(** * ASFclaim: the response parsers, the webhook queue, the connection
    checks, the claim cycle and the start-up migration of [index.js],
    embedded as Rocq functions and step relations. *)

From Stdlib Require Import NArith ZArith Ascii String Lia.
From stdpp Require Import gmap list.

Local Open Scope N_scope.

(** ** JavaScript strings

    A JavaScript string is a sequence of UTF-16 code units; a regular
    expression without the [u] flag works on code units. *)

Abbreviation jsstring := (list N).

(** An ASCII literal of the source as a code-unit sequence. *)
Definition js (s : string) : jsstring :=
  map N_of_ascii (list_ascii_of_string s).

(** ECMAScript LineTerminator: LF, CR, U+2028, U+2029. *)
Definition is_line_terminator (c : N) : bool :=
  (c =? 10) || (c =? 13) || (c =? 8232) || (c =? 8233).

(** ECMAScript WhiteSpace: TAB, VT, FF, SP, NBSP, ZWNBSP and the characters
    of category Zs. *)
Definition is_white_space (c : N) : bool :=
  (c =? 9) || (c =? 11) || (c =? 12) || (c =? 32) || (c =? 160) ||
  (c =? 5760) || ((8192 <=? c) && (c <=? 8202)) || (c =? 8239) ||
  (c =? 8287) || (c =? 12288) || (c =? 65279).

(** [\s], also the characters [String.prototype.trim] removes. *)
Definition is_space (c : N) : bool :=
  is_white_space c || is_line_terminator c.

(** [.] without the [s] flag. *)
Definition is_dot (c : N) : bool := negb (is_line_terminator c).

(** [\d]. *)
Definition is_digit (c : N) : bool := (48 <=? c) && (c <=? 57).

(** [\w]; without the [u] flag the [i] flag adds nothing to it. *)
Definition is_word (c : N) : bool :=
  ((97 <=? c) && (c <=? 122)) || ((65 <=? c) && (c <=? 90)) ||
  is_digit c || (c =? 95).

(** Canonicalize of the [i] flag without [u]: the upper-case mapping, which
    never sends a code unit of 128 or more to one below 128; on the ASCII
    letters of the two patterns only [a-z] and [A-Z] are identified. *)
Definition upper (c : N) : N :=
  if (97 <=? c) && (c <=? 122) then c - 32 else c.

(** A pattern character under the [i] flag. *)
Definition is_char_i (a : N) (c : N) : bool := upper c =? upper a.

(** A pattern character that is no letter. *)
Definition is_char (a : N) (c : N) : bool := c =? a.

(** [s.split("\n")]: never empty, [""] gives [[""]]. *)
Fixpoint split_nl (s : jsstring) : list jsstring :=
  match s with
  | [] => [[]]
  | c :: s' =>
      if c =? 10 then [] :: split_nl s'
      else match split_nl s' with
           | l :: ls => (c :: l) :: ls
           | [] => [[c]]
           end
  end.

(** [s.startsWith(p)]. *)
Fixpoint starts_with (p s : jsstring) : bool :=
  match p, s with
  | [], _ => true
  | a :: p', c :: s' => (c =? a) && starts_with p' s'
  | _ :: _, [] => false
  end.

(** [s.includes(p)]. *)
Fixpoint includes (s p : jsstring) : bool :=
  starts_with p s ||
  match s with
  | [] => false
  | _ :: s' => includes s' p
  end.

(** [s.trim()]. *)
Fixpoint trim_start (s : jsstring) : jsstring :=
  match s with
  | c :: s' => if is_space c then trim_start s' else s
  | [] => []
  end.

Definition trim (s : jsstring) : jsstring :=
  reverse (trim_start (reverse (trim_start s))).

(** ** Plain objects used as dictionaries

    [o[k] = v] on an object created by [{}] defines an own property, except
    for the key [__proto__]: that key is an accessor inherited from
    [Object.prototype], and assigning an object to it replaces the prototype
    of [o] and defines no own property.  [Object.values] and [Object.keys]
    see own properties only. *)

Definition proto_key : jsstring := js "__proto__".

Record jsobj (V : Type) : Type := MkObj {
  own : gmap jsstring V;
  proto : option V
}.
Arguments MkObj {V} _ _.
Arguments own {V} _.
Arguments proto {V} _.

(** [{}]; [proto = None] stands for the initial [Object.prototype]. *)
Definition obj_empty {V} : jsobj V := MkObj ∅ None.

(** [o[k] = v] for an object value [v]. *)
Definition obj_set {V} (o : jsobj V) (k : jsstring) (v : V) : jsobj V :=
  if decide (k = proto_key) then MkObj (own o) (Some v)
  else MkObj (<[k := v]> (own o)) (proto o).

(** [o[k]] for a key just assigned: the own property, or for [__proto__]
    the prototype installed by the assignment; [None] is [undefined]. *)
Definition obj_get {V} (o : jsobj V) (k : jsstring) : option V :=
  if decide (k = proto_key) then proto o else own o !! k.

(** [Object.keys(o)] as a set. *)
Definition obj_keys {V} (o : jsobj V) : gset jsstring := dom (own o).

(** [Object.values(o)] (in the order of the keys' encoding; the callers only
    ask whether some value has a property). *)
Definition obj_values {V} (o : jsobj V) : list V :=
  (map_to_list (own o)).*2.

(** ** A backtracking matcher for the constructs of the two patterns *)

Module Regex.

(** Every [*] and [+] of the two patterns quantifies a one-character atom;
    [?] also quantifies groups. *)
Inductive regex : Type :=
| Eps
| Cls (p : N -> bool)
| Seq (r1 r2 : regex)
| Alt (r1 r2 : regex)
| Rep (greedy : bool) (min : nat) (p : N -> bool)
| Opt (r : regex)
| Grp (n : nat) (r : regex)
| Bol
| Eol.

(** A match state: the index reached, the input still to read, and the
    captures ([None] is [undefined]). *)
Record mstate : Type := MkSt {
  idx : nat;
  rest : jsstring;
  caps : list (option jsstring)
}.

Abbreviation result := (list (option jsstring)).

(** The capture groups inside a pattern. *)
Fixpoint groups (r : regex) : list nat :=
  match r with
  | Seq r1 r2 | Alt r1 r2 => groups r1 ++ groups r2
  | Opt r' => groups r'
  | Grp n r' => n :: groups r'
  | _ => []
  end.

Definition reset (gs : list nat) (c : list (option jsstring)) :
  list (option jsstring) :=
  foldr (fun n acc => <[n := None]> acc) c gs.

(** Greedy [p*] ([min = 0]) and [p+] ([min = 1]): as many as possible first. *)
Fixpoint rep_greedy (p : N -> bool) (min : nat) (i : nat) (s : jsstring)
  (k : nat -> jsstring -> option result) : option result :=
  let stop := match min with O => k i s | S _ => None end in
  match s with
  | c :: s' =>
      if p c then
        match rep_greedy p (pred min) (S i) s' k with
        | Some x => Some x
        | None => stop
        end
      else stop
  | [] => stop
  end.

(** Lazy [p*?] and [p+?]: as few as possible first. *)
Fixpoint rep_lazy (p : N -> bool) (min : nat) (i : nat) (s : jsstring)
  (k : nat -> jsstring -> option result) : option result :=
  let more :=
    match s with
    | c :: s' => if p c then rep_lazy p (pred min) (S i) s' k else None
    | [] => None
    end in
  match min with
  | O => match k i s with
         | Some x => Some x
         | None => more
         end
  | S _ => more
  end.

(** The matcher of a pattern, in continuation-passing style as in the
    ECMAScript specification: [k] is the rest of the pattern. *)
Fixpoint m (r : regex) (st : mstate) (k : mstate -> option result) :
  option result :=
  match r with
  | Eps => k st
  | Cls p =>
      match rest st with
      | c :: s' => if p c then k (MkSt (S (idx st)) s' (caps st)) else None
      | [] => None
      end
  | Seq r1 r2 => m r1 st (fun st1 => m r2 st1 k)
  | Alt r1 r2 =>
      match m r1 st k with
      | Some x => Some x
      | None => m r2 st k
      end
  | Rep greedy min p =>
      (if greedy then rep_greedy else rep_lazy) p min (idx st) (rest st)
        (fun i s => k (MkSt i s (caps st)))
  | Opt r' =>
      let xr := MkSt (idx st) (rest st) (reset (groups r') (caps st)) in
      match m r' xr (fun st1 => if (idx st1 =? idx st)%nat then None else k st1) with
      | Some x => Some x
      | None => k st
      end
  | Grp n r' =>
      m r' st (fun st1 =>
        k (MkSt (idx st1) (rest st1)
             (<[n := Some (take (idx st1 - idx st) (rest st))]> (caps st1))))
  | Bol => if (idx st =? 0)%nat then k st else None
  | Eol => match rest st with [] => k st | _ :: _ => None end
  end.

(** One attempt at index [i]; capture 0 is the whole match. *)
Definition match_at (r : regex) (ngroups : nat) (i : nat) (s : jsstring) :
  option result :=
  m (Grp 0 r) (MkSt i s (replicate (S ngroups) None)) (fun st => Some (caps st)).

(** [RegExpBuiltinExec] without [g] and [y]: the first index, from 0 to the
    length of the input, at which the pattern matches. *)
Fixpoint exec_from (r : regex) (ngroups : nat) (i : nat) (s : jsstring) :
  option result :=
  match match_at r ngroups i s with
  | Some x => Some x
  | None =>
      match s with
      | [] => None
      | _ :: s' => exec_from r ngroups (S i) s'
      end
  end.

(** [s.match(re)] for a pattern without the [g] flag. *)
Definition exec (r : regex) (ngroups : nat) (s : jsstring) : option result :=
  exec_from r ngroups 0 s.

(** [matchRes[n]]. *)
Definition group (res : result) (n : nat) : option jsstring :=
  default None (res !! n).

(** A sequence of pattern items. *)
Definition seqs (rs : list regex) : regex := foldr Seq Eps rs.

(** A literal under the [i] flag. *)
Definition lit_i (s : string) : regex :=
  seqs (map (fun c => Cls (is_char_i c)) (js s)).

End Regex.

Import Regex.

(** ** The two response parsers *)

(** The pattern of [parseASFResult], flag [i], item by item. *)
Definition result_re : regex :=
  seqs [
    Opt (Cls (is_char 39));                  (* '?          *)
    Cls (is_char 60);                        (* <           *)
    Grp 1 (Rep true 1 is_dot);               (* (?<user>.+) *)
    Cls (is_char 62);                        (* >           *)
    Rep true 0 is_space;                     (* \s*         *)
    Opt (seqs [                              (* (?: ... )?  *)
      Rep true 0 is_dot;                     (*   .*        *)
      lit_i "ID:";                           (*   ID:       *)
      Rep true 1 is_space;                   (*   \s+       *)
      Grp 2 (seqs [Rep true 1 is_word;       (*   (?<id>\w+ *)
                   Cls (is_char 47);         (*     \/      *)
                   Rep true 1 is_digit]);    (*     \d+)    *)
      Cls is_space;                          (*   \s        *)
      Rep true 1 is_dot;                     (*   .+        *)
      lit_i "Status:";                       (*   Status:   *)
      Rep true 1 is_space ]);                (*   \s+       *)
    Grp 3 (Rep false 0 is_dot);              (* (?<status>.*?) *)
    Opt (Alt (Seq (Cls (is_char 92)) (Cls (is_char_i 110)))
             (Cls (is_char 10)));            (* (?:\\n|\n)? *)
    Opt (Seq (Cls (is_char 39))
             (Rep true 0 is_dot));           (* (?: ' .* )? *)
    Eol ].                                   (* $           *)

(** The pattern of [parseASFStatus], flag [i], item by item. *)
Definition status_re : regex :=
  seqs [
    Bol;                                     (* ^           *)
    Rep true 0 is_dot;                       (* .*          *)
    Cls (is_char 60);                        (* <           *)
    Grp 1 (Rep true 0 is_dot);               (* (?<user>.* ) *)
    Cls (is_char 62);                        (* >           *)
    Rep true 0 is_space;                     (* \s*         *)
    Grp 2 (Rep false 1 is_dot);              (* (?<status>.+?) *)
    Rep true 0 (fun c => is_char 46 c || is_char 33 c || is_char 63 c);
                                             (* [\.!?]*     *)
    Opt (Seq (Cls (is_char 58))
             (Rep true 1 is_dot));           (* (?::.+)?    *)
    Opt (seqs [Cls (is_char 92); Cls (is_char_i 110); Cls is_dot;
               Rep true 1 is_space; Cls (is_char 43)]);
                                             (* (?:\\n.\s+\+)? *)
    Eol ].                                   (* $           *)

(** The pattern [Bot is connecting to Steam network], flag [i]. *)
Definition connecting_re : regex := lit_i "Bot is connecting to Steam network".

(** One entry of the object [parseASFResult] returns; [None] is
    [undefined]. *)
Record BotResult : Type := MkBot {
  bot_id : option jsstring;
  bot_status : option jsstring
}.

(** A value used as a property key: [undefined] becomes ["undefined"]. *)
Definition key_of (v : option jsstring) : jsstring :=
  default (js "undefined") v.

Definition not_available : jsstring :=
  js "OK -> Not available for this account".

(** [(matchRes[3] != "OK") ? matchRes[3] : "OK -> Not available ..."]. *)
Definition reclassify (st : option jsstring) : option jsstring :=
  if decide (st = Some (js "OK")) then Some not_available else st.

(** The body of the loop of [parseASFResult] for one line. *)
Definition result_line (botResults : jsobj BotResult) (line : jsstring) :
  jsobj BotResult :=
  match exec result_re 3 line with
  | Some matchRes =>
      obj_set botResults (key_of (group matchRes 1))
        (MkBot (group matchRes 2) (reclassify (group matchRes 3)))
  | None => botResults
  end.

Definition parseASFResult (result : jsstring) : jsobj BotResult :=
  foldl result_line obj_empty (split_nl result).

(** [statusInfo.user[name]] and [statusInfo] of [parseASFStatus]. *)
Record UserStatus : Type := MkUser {
  user_status : option jsstring;
  user_isDone : bool
}.

Record StatusInfo : Type := MkInfo {
  user : jsobj UserStatus;
  isDone : bool
}.

(** [str.match(/Bot is connecting to Steam network/i)] is not [null]. *)
Definition is_connecting (str : jsstring) : bool :=
  bool_decide (is_Some (exec connecting_re 0 str)).

(** The body of the loop of [parseASFStatus] for one line.  [None] is a
    [TypeError]: [matchRes[2].match] on [undefined], or the assignment of
    [isDone] on an entry that reads back as [undefined]. *)
Definition status_line (statusInfo : StatusInfo) (line : jsstring) :
  option StatusInfo :=
  match exec status_re 2 line with
  | Some matchRes =>
      let name := key_of (group matchRes 1) in
      let users := obj_set (user statusInfo) name
                     (MkUser (group matchRes 2) true) in
      str ← group matchRes 2;
      if is_connecting str then
        entry ← obj_get users name;
        Some (MkInfo (obj_set users name (MkUser (user_status entry) false))
                false)
      else Some (MkInfo users (isDone statusInfo))
  | None => Some statusInfo
  end.

Fixpoint status_lines (statusInfo : StatusInfo) (lines : list jsstring) :
  option StatusInfo :=
  match lines with
  | [] => Some statusInfo
  | line :: lines' =>
      statusInfo' ← status_line statusInfo line;
      status_lines statusInfo' lines'
  end.

Definition parseASFStatus (result : jsstring) : option StatusInfo :=
  status_lines (MkInfo obj_empty true) (split_nl result).

(** *** What a successful match means *)

(** [matches r st st']: the pattern [r] can take the state [st] to [st']. *)
Fixpoint matches (r : regex) (st st' : mstate) : Prop :=
  match r with
  | Eps => st' = st
  | Cls p =>
      ∃ c s', rest st = c :: s' ∧ p c = true ∧
              st' = MkSt (S (idx st)) s' (caps st)
  | Seq r1 r2 => ∃ st1, matches r1 st st1 ∧ matches r2 st1 st'
  | Alt r1 r2 => matches r1 st st' ∨ matches r2 st st'
  | Rep _ min p =>
      ∃ pre, rest st = pre ++ rest st' ∧ forallb p pre = true ∧
             (min <= length pre)%nat ∧
             idx st' = (idx st + length pre)%nat ∧ caps st' = caps st
  | Opt r' =>
      st' = st ∨
      matches r' (MkSt (idx st) (rest st) (reset (groups r') (caps st))) st'
  | Grp n r' =>
      ∃ st1, matches r' st st1 ∧
             st' = MkSt (idx st1) (rest st1)
                     (<[n := Some (take (idx st1 - idx st) (rest st))]>
                        (caps st1))
  | Bol => idx st = 0%nat ∧ st' = st
  | Eol => rest st = [] ∧ st' = st
  end.

(** The groups that are defined after every match of a pattern. *)
Fixpoint sets (r : regex) : list nat :=
  match r with
  | Seq r1 r2 =>
      filter (fun n => negb (existsb (Nat.eqb n) (groups r2))) (sets r1)
        ++ sets r2
  | Grp n r' => n :: sets r'
  | _ => []
  end.

(** The account name and the entry a line of the [addlicense] response
    gives, if the line matches. *)
Definition result_of_line (line : jsstring) : option (jsstring * BotResult) :=
  matchRes ← exec result_re 3 line;
  Some (key_of (group matchRes 1),
        MkBot (group matchRes 2) (reclassify (group matchRes 3))).

(** The account name, status phrase and ready flag a line of the [status]
    response gives, if the line matches. *)
Definition status_of_line (line : jsstring) : option (jsstring * UserStatus) :=
  matchRes ← exec status_re 2 line;
  Some (key_of (group matchRes 1),
        MkUser (group matchRes 2)
          (negb (is_connecting (default [] (group matchRes 2))))).

(** The matched lines of a response, in input order. *)
Definition result_matches (result : jsstring) : list (jsstring * BotResult) :=
  omap result_of_line (split_nl result).

Definition status_matches (result : jsstring) : list (jsstring * UserStatus) :=
  omap status_of_line (split_nl result).

(** Assigning a list of entries in order. *)
Definition obj_set_all {V} (o : jsobj V) (kvs : list (jsstring * V)) : jsobj V :=
  foldl (fun o kv => obj_set o kv.1 kv.2) o kvs.

(** [p] at the start of [s], letters compared without case. *)
Fixpoint starts_with_i (p s : jsstring) : bool :=
  match p, s with
  | [], _ => true
  | a :: p', c :: s' => is_char_i a c && starts_with_i p' s'
  | _ :: _, [] => false
  end.

(** [p] somewhere in [s], letters compared without case. *)
Fixpoint includes_i (s p : jsstring) : bool :=
  starts_with_i p s ||
  match s with
  | [] => false
  | _ :: s' => includes_i s' p
  end.

(** What one line writes. *)
Definition written_by (line : jsstring) (name : jsstring) (e : BotResult) : Prop :=
  ∃ matchRes st,
    exec result_re 3 line = Some matchRes ∧
    group matchRes 1 = Some name ∧
    group matchRes 3 = Some st ∧
    e = MkBot (group matchRes 2)
          (Some (if decide (st = js "OK")
                 then js "OK -> Not available for this account" else st)).

(** ** The environment of the process: replies, notifications, events *)

(** The four notification and log types. *)
Inductive Severity : Type := Info | Warn | Error | Success.

(** What [fetch(...).then(res => res.json())] gives for a command sent to
    [/Api/Command]: the body [{ Success, Result }], or a rejection (the
    transport failed or the body is no JSON). *)
Inductive Reply : Type :=
| Body (Success : bool) (Result : jsstring)
| Failure.

(** What the process does, in order.  [Hook] is a call of [sendHookAsync]
    (the metadata lookups and the webhook queue behind it are not unfolded
    here); [Log] is a call of the logger, its text left out. *)
Inductive Event : Type :=
| Fetch (command : jsstring)
| Sleep (seconds : N)
| Log (level : Severity)
| Hook (type : Severity) (msg : string) (licenseId : option jsstring)
       (asfResult : option (jsobj BotResult))
| Save (licenses : list jsstring)
| Exit (code : Z).

(** How a function of the process ends.  [Pending]: it awaits a reply the
    given environment does not hold. *)
Inductive Outcome : Type :=
| Returned
| Exited (code : Z)
| Threw
| Pending.

Record Config : Type := MkConfig {
  prefix : jsstring;
  bots : jsstring;
  webhookShowAccountStatus : bool
}.

(** The answer of [octokit.gists.get] and of the access to the file
    [Steam Codes] in it: the content, or an error with its [status]. *)
Inductive Gist : Type :=
| GistContent (content : jsstring)
| GistError (status : option N).

(** [content.split(...).map(code => code.trim()).filter(code => code)]. *)
Definition codes_of (content : jsstring) : list jsstring :=
  filter (fun code => code ≠ []) (map trim (split_nl content)).

Definition is_hook (e : Event) : bool :=
  match e with Hook _ _ _ _ => true | _ => false end.

(** The number of calls of [sendHookAsync] among events. *)
Definition hook_calls (evs : list Event) : nat :=
  length (filter (fun e => is_hook e = true) evs).

(** The commands sent, in order. *)
Definition fetches (evs : list Event) : list jsstring :=
  omap (fun e => match e with Fetch command => Some command | _ => None end) evs.

Definition is_log (e : Event) : bool :=
  match e with Log _ => true | _ => false end.

(** The events other than log lines. *)
Definition actions (evs : list Event) : list Event :=
  filter (fun e => is_log e = false) evs.

Section Process.

Variable config : Config.

(** [hookOk n]: the [n]-th call of [sendHookAsync] (from 0) returns; when it
    is [false] the call throws (a delivery of the webhook queue was
    rejected, or a metadata lookup threw). *)
Variable hookOk : nat -> bool.

(** [await sendHookAsync(type, msg, licenseId, asfResult)] after the events
    [evs]: the events with the call, and whether it returned. *)
Definition sendHookAsync (evs : list Event) (type : Severity) (msg : string)
  (licenseId : option jsstring) (asfResult : option (jsobj BotResult)) :
  list Event * bool :=
  (evs ++ [Hook type msg licenseId asfResult],
   hookOk (hook_calls evs)).

(** [await consoleAndWebhookAsync(type, msg)]. *)
Definition consoleAndWebhookAsync (evs : list Event) (type : Severity)
  (msg : string) : list Event * bool :=
  sendHookAsync (evs ++ [Log match type with Success => Info | t => t end])
    type msg None None.

(** *** checkConnection *)

Definition maxRetries : nat := 5.
Definition retryDelay : N := 5.

(** [success] after the promise chain of one attempt. *)
Definition reply_success (r : Reply) : bool :=
  match r with
  | Body ok _ => ok
  | Failure => false
  end.

Definition stats_command : jsstring := prefix config ++ js "stats".

(** The [while (true)] loop of [checkConnection] from the test of
    [attemptNumber], on the replies still to come. *)
Fixpoint checkConnection_from (attemptNumber : nat) (replies : list Reply) :
  list Event * Outcome :=
  if (maxRetries <? attemptNumber)%nat then
    ([Log Error; Exit 1], Exited 1)
  else
    match replies with
    | [] => ([Fetch stats_command], Pending)
    | r :: replies' =>
        if reply_success r then ([Fetch stats_command], Returned)
        else
          let '(evs, out) := checkConnection_from (S attemptNumber) replies' in
          ([Fetch stats_command; Log Error; Log Error; Log Warn;
            Sleep retryDelay] ++ evs, out)
    end.

Definition checkConnection (replies : list Reply) : list Event * Outcome :=
  checkConnection_from 1 replies.

(** *** checkUserLoggedIn *)

Definition status_command : jsstring := prefix config ++ js "status asf".

(** [result && result.Success && result.Result]. *)
Definition status_reply_ok (r : Reply) : option jsstring :=
  match r with
  | Body true (c :: res) => Some (c :: res)
  | _ => None
  end.

(** The [while (true)] loop of [checkUserLoggedIn]. *)
Fixpoint checkUserLoggedIn_loop (replies : list Reply) : list Event * Outcome :=
  match replies with
  | [] => ([Fetch status_command], Pending)
  | Failure :: _ => ([Fetch status_command; Log Error; Log Error], Threw)
  | r :: replies' =>
      match status_reply_ok r with
      | None => ([Fetch status_command; Log Error], Threw)
      | Some res =>
          let lines := replicate (length (status_matches res)) (Log Info) in
          match parseASFStatus res with
          | None => (Fetch status_command :: lines, Threw)
          | Some asfStatus =>
              if isDone asfStatus then
                (Fetch status_command :: lines ++ [Log Info], Returned)
              else
                let '(evs, out) := checkUserLoggedIn_loop replies' in
                (Fetch status_command :: lines ++
                   [Log Info; Log Info; Sleep 10] ++ evs, out)
          end
      end
  end.

Definition checkUserLoggedIn (replies : list Reply) : list Event * Outcome :=
  match checkUserLoggedIn_loop replies with
  | (evs, Returned) =>
      let '(evs', ok) :=
        consoleAndWebhookAsync evs Info "ASF users are logged in!" in
      (evs', if ok then Returned else Threw)
  | r => r
  end.

(** *** checkGame *)

Definition rate_limit_marker : jsstring := js "RateLimitExceeded".

(** [values.some(result => result.status.includes('RateLimitExceeded'))];
    [None] is the [TypeError] of [includes] on an [undefined] status. *)
Fixpoint some_rate_limit (values : list BotResult) : option bool :=
  match values with
  | [] => Some false
  | result :: values' =>
      st ← bot_status result;
      if includes st rate_limit_marker then Some true
      else some_rate_limit values'
  end.

Definition hasRateLimit (asfResult : jsobj BotResult) : option bool :=
  some_rate_limit (obj_values asfResult).

(** Some account of the parsed result has a status text that contains
    [RateLimitExceeded]. *)
Definition rate_limited (asfResult : jsobj BotResult) : Prop :=
  ∃ name e st,
    own asfResult !! name = Some e ∧ bot_status e = Some st ∧
    includes st rate_limit_marker = true.

Definition addlicense_command (currentLicense : jsstring) : jsstring :=
  prefix config ++ js "addlicense " ++ bots config ++ js " " ++ currentLicense.

(** The state of a cycle: the array [processedLicenses] and the events so
    far. *)
Record CycleState : Type := MkCycle {
  processedLicenses : list jsstring;
  events : list Event
}.

Definition emit (st : CycleState) (evs : list Event) : CycleState :=
  MkCycle (processedLicenses st) (events st ++ evs).

Definition hook (st : CycleState) (type : Severity) (msg : string)
  (licenseId : option jsstring) (asfResult : option (jsobj BotResult)) :
  CycleState * bool :=
  let '(evs, ok) := sendHookAsync (events st) type msg licenseId asfResult in
  (MkCycle (processedLicenses st) evs, ok).

(** The [catch (err)] of the [try] around the body of [checkGame];
    [status] is [err.status], which selects the lines logged. *)
Definition gist_catch (status : option N) (st : CycleState) :
  CycleState * Outcome :=
  let lines :=
    match status with
    | Some 401 => 4%nat
    | Some 403 => 2%nat
    | _ => 3%nat
    end in
  let '(st1, ok) :=
    hook (emit st (replicate lines (Log Error))) Error
      "Failed to fetch Steam codes from GitHub Gist. Check the logs for details."
      None None in
  if ok then (emit st1 [Exit 1], Exited 1) else (st1, Threw).

(** The [.catch(async err => ...)] of one submission. *)
Definition submit_catch (st : CycleState) : CycleState * Outcome :=
  let '(st1, ok) :=
    hook (emit st [Log Error]) Error
      "An error occurred while connecting to ASF, check the logs for more information."
      None None in
  if ok then (emit st1 [Log Error; Exit 1], Exited 1) else gist_catch None st1.

(** One pass of the body of [for (let currentLicense of batch)], given the
    reply to the command.  [None] as outcome: the loop goes on. *)
Definition claim_one (currentLicense : jsstring) (r : Reply) (st : CycleState) :
  CycleState * option Outcome :=
  let st0 := emit st [Sleep 2; Fetch (addlicense_command currentLicense)] in
  let failed st' := let '(st'', out) := submit_catch st' in (st'', Some out) in
  match r with
  | Failure => failed st0
  | Body false _ =>
      let '(st1, ok) :=
        hook (emit st0 [Log Error]) Error
          "Got non-success result from ASF, check the logs for more information."
          None None in
      if ok then (emit st1 [Log Error; Exit 1], Some (Exited 1))
      else failed st1
  | Body true Result =>
      let asfResult := parseASFResult Result in
      match hasRateLimit asfResult with
      | None => failed st0
      | Some true =>
          let '(st1, ok) :=
            hook (emit st0 [Log Info; Log Error; Log Info; Log Info; Log Info])
              Error
              "Rate limit exceeded while processing package. Will retry in next run."
              (Some currentLicense) (Some asfResult) in
          if ok then (st1, None) else failed st1
      | Some false =>
          let licenses := processedLicenses st0 ++ [currentLicense] in
          let st1 :=
            MkCycle licenses
              (events st0 ++ [Log Info; Log Info; Log Info; Log Info; Log Info;
                              Log Info; Save licenses]) in
          let '(st2, ok) :=
            hook st1 Success "Processed a new package!" (Some currentLicense)
              (if webhookShowAccountStatus config then Some asfResult else None) in
          if ok then (st2, None) else failed st2
      end
  end.

(** The loop over the batch, on the replies still to come.  An error the
    handler of a submission lets through has already reached the outer
    [catch] in [submit_catch]. *)
Fixpoint claim_batch (batch : list jsstring) (replies : list Reply)
  (st : CycleState) : CycleState * Outcome :=
  match batch with
  | [] => (st, Returned)
  | currentLicense :: batch' =>
      match replies with
      | [] =>
          (emit st [Sleep 2; Fetch (addlicense_command currentLicense)], Pending)
      | r :: replies' =>
          match claim_one currentLicense r st with
          | (st', None) => claim_batch batch' replies' st'
          | (st', Some out) => (st', out)
          end
      end
  end.

(** [codes.filter(code => !processedLicenses.includes(code))]. *)
Definition newCodes (codes processed : list jsstring) : list jsstring :=
  filter (fun code => code ∉ processed) codes.

(** [newCodes.reverse(); newCodes.slice(0, 40)]. *)
Definition batch_of (new : list jsstring) : list jsstring :=
  take 40 (reverse new).

(** The [try] block of [checkGame] with its [catch], after the first
    notification. *)
Definition checkGame_try (gist : Gist) (replies : list Reply)
  (st0 : CycleState) : CycleState * Outcome :=
  match gist with
  | GistError status => gist_catch status st0
  | GistContent content =>
      let new := newCodes (codes_of content) (processedLicenses st0) in
      match new with
      | _ :: _ => claim_batch (batch_of new) replies st0
      | [] =>
          let '(st', ok') :=
            hook (emit st0 [Log Info]) Info "No new packages found." None None in
          if ok' then (st', Returned) else gist_catch None st'
      end
  end.

(** The last notification of [checkGame], when the [try] block returned
    (the date of the next run is left out of the text). *)
Definition checkGame_end (r : CycleState * Outcome) : CycleState * Outcome :=
  match r.2 with
  | Returned =>
      let '(st2, ok2) :=
        hook (emit r.1 [Log Info]) Info "Next run scheduled for: " None None in
      (st2, if ok2 then Returned else Threw)
  | _ => r
  end.

(** [checkGame]. *)
Definition checkGame (gist : Gist) (replies : list Reply)
  (st : CycleState) : CycleState * Outcome :=
  let '(st0, ok) :=
    hook (emit st [Log Info]) Info "Checking for new packages..." None None in
  if ok then checkGame_end (checkGame_try gist replies st0) else (st0, Threw).

End Process.

(** ** The webhook queue

    [processWebhookQueue] is suspended at one of its two [await]s or not
    running; [sendWebhook] may be called at any time in between.  Time is a
    clock in milliseconds; the timer of [sleep(0.2)] (200 ms: [0.2 * 1000]
    is [200] in double arithmetic) does not fire before its delay has
    passed. *)

Section WebhookQueue.

(** An entry [{ url, options, resolve, reject }] of the queue. *)
Variable Job : Type.

Inductive Phase : Type :=
| Idle
| Fetching (job : Job)
| Sleeping (until : N).

(** What the queue did and when, for the statements about it. *)
Inductive QEvent : Type :=
| Started (t : N) (job : Job)
| Resolved (t : N) (job : Job)
| Rejected (t : N) (job : Job).

(** [qlog] has the most recent event first. *)
Record QueueState : Type := MkQueue {
  webhookQueue : list Job;
  isProcessingWebhook : bool;
  phase : Phase;
  now : N;
  qlog : list QEvent
}.

Definition queue_init : QueueState := MkQueue [] false Idle 0 [].

(** What happens to the queue from outside. *)
Inductive Action : Type :=
| Enqueue (job : Job)
| FetchDone (ok : bool)
| Timer
| Tick (ms : N).

Definition spacing : N := 200.

(** The test of [while (webhookQueue.length > 0)] and what follows it up to
    the next [await]: the first entry is shifted and its [fetch] starts, or
    the loop ends and the flag is cleared. *)
Definition loop_head (st : QueueState) : QueueState :=
  match webhookQueue st with
  | job :: queue' =>
      MkQueue queue' (isProcessingWebhook st) (Fetching job) (now st)
        (Started (now st) job :: qlog st)
  | [] => MkQueue [] false Idle (now st) (qlog st)
  end.

(** [processWebhookQueue()] up to its first [await]. *)
Definition processWebhookQueue (st : QueueState) : QueueState :=
  match isProcessingWebhook st, webhookQueue st with
  | true, _ | _, [] => st
  | false, _ :: _ =>
      loop_head (MkQueue (webhookQueue st) true (phase st) (now st) (qlog st))
  end.

(** [sendWebhook(url, options)]: push, then [processWebhookQueue()]. *)
Definition sendWebhook (job : Job) (st : QueueState) : QueueState :=
  processWebhookQueue
    (MkQueue (webhookQueue st ++ [job]) (isProcessingWebhook st) (phase st)
       (now st) (qlog st)).

(** One action; [None] when it cannot happen in the state.  [FetchDone ok]:
    the awaited [fetch] settled, [ok = false] for a response that is not
    [ok] and for a rejected [fetch]; the entry's promise is resolved or
    rejected and [sleep(0.2)] starts. *)
Definition qstep (st : QueueState) (a : Action) : option QueueState :=
  match a, phase st with
  | Tick ms, _ =>
      Some (MkQueue (webhookQueue st) (isProcessingWebhook st) (phase st)
              (now st + ms) (qlog st))
  | Enqueue job, _ => Some (sendWebhook job st)
  | FetchDone ok, Fetching job =>
      Some (MkQueue (webhookQueue st) (isProcessingWebhook st)
              (Sleeping (now st + spacing)) (now st)
              ((if ok then Resolved else Rejected) (now st) job :: qlog st))
  | Timer, Sleeping until =>
      if until <=? now st then Some (loop_head st) else None
  | _, _ => None
  end.

Fixpoint qrun (st : QueueState) (acts : list Action) : option QueueState :=
  match acts with
  | [] => Some st
  | a :: acts' => st' ← qstep st a; qrun st' acts'
  end.

(** The entries enqueued by a sequence of actions, in order. *)
Definition enqueued (acts : list Action) : list Job :=
  omap (fun a => match a with Enqueue job => Some job | _ => None end) acts.

(** The entries whose delivery started, the oldest first, and the times. *)
Definition started (log : list QEvent) : list (N * Job) :=
  reverse (omap (fun e => match e with Started t job => Some (t, job) | _ => None end)
         log).

(** The entries whose promise was settled, the oldest first; [true] for
    resolved. *)
Definition settled (log : list QEvent) : list (Job * bool) :=
  reverse (omap (fun e => match e with
                      | Resolved _ job => Some (job, true)
                      | Rejected _ job => Some (job, false)
                      | Started _ _ => None
                      end) log).

(** The delivery in flight. *)
Definition in_flight (p : Phase) : list Job :=
  match p with Fetching job => [job] | _ => [] end.

(** Increasing times at least [spacing] apart. *)
Fixpoint spaced (ts : list N) : Prop :=
  match ts with
  | t1 :: ((t2 :: _) as ts') => t1 + spacing <= t2 ∧ spaced ts'
  | _ => True
  end.

(** The delivery in flight is settled with outcome [ok], the time of the
    sleep passes and its timer fires. *)
Definition settle_round (ok : bool) : list Action :=
  [FetchDone ok; Tick spacing; Timer].

(** Every delivery that starts right after a settled one starts at least
    [spacing] later ([log] has the most recent event first). *)
Fixpoint waited (log : list QEvent) : Prop :=
  match log with
  | Started t _ :: ((Resolved s _ :: _) as log')
  | Started t _ :: ((Rejected s _ :: _) as log') => s + spacing <= t ∧ waited log'
  | _ :: log' => waited log'
  | [] => True
  end.

(** The time the last delivery was settled, when nothing started since. *)
Definition last_settled (log : list QEvent) : option N :=
  match log with
  | Resolved s _ :: _ | Rejected s _ :: _ => Some s
  | _ => None
  end.

(** What holds of the queue after the entries [enq] were enqueued. *)
Record queue_inv (enq : list Job) (st : QueueState) : Prop := MkInv {
  inv_fifo : (started (qlog st)).*2 ++ webhookQueue st = enq;
  inv_one :
    (started (qlog st)).*2 = (settled (qlog st)).*1 ++ in_flight (phase st);
  inv_flag :
    isProcessingWebhook st =
    match phase st with Idle => false | _ => true end;
  inv_idle : phase st = Idle → webhookQueue st = [];
  inv_spaced : spaced (started (qlog st)).*1;
  inv_last : ∀ t,
    last (started (qlog st)).*1 = Some t →
    match phase st with
    | Fetching _ => t <= now st
    | Sleeping until => t + spacing <= until
    | Idle => t + spacing <= now st
    end;
  inv_waited : waited (qlog st);
  inv_settled : ∀ s,
    last_settled (qlog st) = Some s →
    match phase st with
    | Fetching _ => False
    | Sleeping until => s + spacing <= until
    | Idle => s + spacing <= now st
    end
}.

End WebhookQueue.

Arguments Idle {Job}.
Arguments Fetching {Job} _.
Arguments Sleeping {Job} _.
Arguments Enqueue {Job} _.
Arguments FetchDone {Job} _.
Arguments Timer {Job}.
Arguments Tick {Job} _.
Arguments Started {Job} _ _.
Arguments Resolved {Job} _ _.
Arguments Rejected {Job} _ _.
Arguments MkQueue {Job} _ _ _ _ _.
Arguments webhookQueue {Job} _.
Arguments isProcessingWebhook {Job} _.
Arguments phase {Job} _.
Arguments now {Job} _.
Arguments qlog {Job} _.
Arguments queue_init {Job}.
Arguments loop_head {Job} _.
Arguments processWebhookQueue {Job} _.
Arguments sendWebhook {Job} _ _.
Arguments qstep {Job} _ _.
Arguments qrun {Job} _ _.
Arguments enqueued {Job} _.
Arguments started {Job} _.
Arguments settled {Job} _.
Arguments in_flight {Job} _.
Arguments settle_round {Job} _.
Arguments waited {Job} _.
Arguments last_settled {Job} _.
Arguments queue_inv {Job} _ _.

(** ** The migration at start-up *)

(** The leading decimal digits. *)
Fixpoint leading_digits (s : jsstring) : jsstring :=
  match s with
  | c :: s' => if is_digit c then c :: leading_digits s' else []
  | [] => []
  end.

(** [parseInt(s, 10)]; [None] is [NaN].  The value is kept exact: it is
    only used as the end of a [slice], where a double and the integer it
    rounds agree. *)
Definition parseInt (s : jsstring) : option Z :=
  let s1 := trim_start s in
  let '(negative, s2) :=
    match s1 with
    | 45 :: s' => (true, s')
    | 43 :: s' => (false, s')
    | _ => (false, s1)
    end in
  match leading_digits s2 with
  | [] => None
  | ds =>
      let v := foldl (fun acc c => 10 * acc + Z.of_N (c - 48))%Z 0%Z ds in
      Some (if negative then (- v)%Z else v)
  end.

(** [l.slice(0, e)]. *)
Definition slice0 {A} (l : list A) (e : Z) : list A :=
  let len := Z.of_nat (length l) in
  let final := if (e <? 0)%Z then Z.max (len + e) 0 else Z.min e len in
  take (Z.to_nat final) l.

(** [[...new Set(l)]]: the first occurrence of each element, in order. *)
Fixpoint set_of (seen l : list jsstring) : list jsstring :=
  match l with
  | [] => []
  | x :: l' =>
      if decide (x ∈ seen) then set_of seen l' else x :: set_of (x :: seen) l'
  end.

(** The storage directory and the array in memory.  [lastlength]: the
    content of the file of that name, [None] when there is none (reading it
    then throws).  [licenses]: the array [processedLicenses] at start-up.
    Writing the array to its file and unlinking a file that was just read
    are taken to succeed.  [warnings] counts the lines logged with
    [logger.warn]. *)
Record Storage : Type := MkStorage {
  lastlength : option jsstring;
  processedLicensesFile : list jsstring;
  licenses : list jsstring;
  warnings : nat
}.

(** The migration block at the top level of [index.js]. *)
Definition migration (gist : Gist) (st : Storage) : Storage :=
  match lastlength st with
  | None => st
  | Some content =>
      match parseInt (trim content) with
      | None => st
      | Some lastLength =>
          let st1 :=
            match gist with
            | GistContent text =>
                let migratedLicenses := slice0 (codes_of text) lastLength in
                let all := set_of [] (licenses st ++ migratedLicenses) in
                MkStorage (lastlength st) all all (warnings st)
            | GistError status =>
                MkStorage (lastlength st) (processedLicensesFile st)
                  (licenses st)
                  (warnings st + if decide (status = Some 401) then 2 else 1)
            end in
          MkStorage None (processedLicensesFile st1) (licenses st1)
            (warnings st1)
      end
  end.

(** ** Auxiliary notions for the statements *)

(** The events of one failed attempt of [checkConnection]. *)
Definition failed_attempt (config : Config) : list Event :=
  [Fetch (stats_command config); Log Error; Log Error; Log Warn;
   Sleep retryDelay].

(** A reply to the status command that is accepted and parses to a status
    that is not [isDone]. *)
Definition not_ready (r : Reply) : bool :=
  match status_reply_ok r with
  | Some res =>
      match parseASFStatus res with
      | Some asfStatus => negb (isDone asfStatus)
      | None => false
      end
  | None => false
  end.

(** The events of one round of [checkUserLoggedIn] that ends in the sleep. *)
Definition polling_round (config : Config) (r : Reply) : list Event :=
  match status_reply_ok r with
  | Some res =>
      Fetch (status_command config) ::
      replicate (length (status_matches res)) (Log Info) ++
      [Log Info; Log Info; Sleep 10]
  | None => []
  end.

(** The configuration when no environment variable is set. *)
Definition default_config : Config := MkConfig (js "!") (js "asf") true.

(** A reply of an account that is still connecting. *)
Definition connecting_reply : Reply :=
  Body true (js "<bot1> Bot is connecting to Steam network.").


Definition sample_queue : QueueState nat :=
  MkQueue [] true (Fetching 3%nat) 450
    [Started 450 3%nat; Resolved 200 2%nat; Started 200 2%nat;
     Rejected 0 1%nat; Started 0 1%nat].

(** The text the status phrase is searched for. *)
Definition connecting_text : jsstring :=
  js "Bot is connecting to Steam network".

(** A status response with two lines for the account [a], first
    connecting and then idle. *)
Definition twice_a : jsstring :=
  js "<a> Bot is connecting to Steam network." ++ [10] ++ js "<a> Bot is idle.".

(** A response with two lines for an account named [__proto__]. *)
Definition twice_proto : jsstring :=
  js "<__proto__> Fail" ++ [10] ++ js "<__proto__> OK | Items: app/1".

(** ** Further notions for the statements *)

(** The lines of a text joined by line feeds, the inverse of
    [split("\n")]. *)
Fixpoint join_nl (lines : list jsstring) : jsstring :=
  match lines with
  | [] => []
  | [l] => l
  | l :: ls => l ++ 10 :: join_nl ls
  end.

(** A code as [checkGame] and the migration read them from the list: not
    empty, on one line, without white space around it. *)
Definition is_code (code : jsstring) : Prop :=
  code ≠ [] ∧ (10 ∉ code) ∧ trim code = code.

(** The contents the process saved to the file of processed licenses, in
    order. *)
Definition saves (evs : list Event) : list (list jsstring) :=
  omap (fun e => match e with Save licenses => Some licenses | _ => None end) evs.

(** What a step of the cycle adds to the state: events [new] at the end,
    codes [added] at the end of [processedLicenses], each code saved with
    the array when it is added, and the commands [cmds] sent. *)
Definition extends (st st' : CycleState) (added cmds : list jsstring) : Prop :=
  ∃ new,
    events st' = events st ++ new ∧
    processedLicenses st' = processedLicenses st ++ added ∧
    saves new =
      map (fun i => processedLicenses st ++ take (S i) added)
        (seq 0 (length added)) ∧
    fetches new = cmds.

(** The marks [.], [!] and [?] the pattern of [parseASFStatus] leaves out
    at the end of a status phrase. *)
Definition is_end_mark (c : N) : bool :=
  is_char 46 c || is_char 33 c || is_char 63 c.

(** A character of a status phrase that the pattern of [parseASFStatus]
    takes for nothing else: no line terminator and none of [<], [>], [.],
    [!], [?], [:] and the backslash. *)
Definition is_phrase_char (c : N) : bool :=
  is_dot c && negb (existsb (N.eqb c) [60; 62; 46; 33; 63; 58; 92]).

(** A character of a status text that the pattern of [parseASFResult]
    takes for nothing else: no line terminator and none of [>], ['] and the
    backslash. *)
Definition is_text_char (c : N) : bool :=
  is_dot c && negb (existsb (N.eqb c) [62; 39; 92]).

(** The non-empty suffixes of a text. *)
Fixpoint tails (l : jsstring) : list jsstring :=
  match l with
  | [] => []
  | c :: l' => (c :: l') :: tails l'
  end.

(** A line of an answer to [addlicense] for one account:
    [<name> status], or with the identifier of the license,
    [<name> ID: type/number | Status: status].  The line may start with a
    quote, and the status may be followed by the two characters [\n] and
    by a quote and more text. *)
Record ResultLine : Type := MkResultLine {
  rl_quoted : bool;
  rl_name : jsstring;
  rl_id : option (jsstring * jsstring);
  rl_status : jsstring;
  rl_escape : bool;
  rl_rest : option jsstring
}.

(** What follows the status on the line. *)
Definition result_end (escape : bool) (more : option jsstring) : jsstring :=
  (if escape then js "\n" else []) ++
  match more with Some t => js "'" ++ t | None => [] end.

Definition result_text (l : ResultLine) : jsstring :=
  (if rl_quoted l then js "'" else []) ++
  js "<" ++ rl_name l ++ js "> " ++
  match rl_id l with
  | Some (type, number) =>
      js "ID: " ++ type ++ js "/" ++ number ++ js " | Status: " ++
      rl_status l ++ result_end (rl_escape l) (rl_rest l)
  | None => rl_status l ++ result_end (rl_escape l) (rl_rest l)
  end.

(** The text after the closing quote: no line terminator and no [>]. *)
Definition rest_ok (more : option jsstring) : Prop :=
  match more with
  | Some t => forallb is_dot t = true ∧ (62 ∉ t)
  | None => True
  end.

(** The texts for which the line is read without ambiguity: a name that is
    not empty and holds no line terminator; a type of word characters and a
    number of digits; a status that holds no line terminator, no [>], no
    quote and no backslash and does not start with white space; the status
    with what follows it does not hold the text [Status:], nor [ID:] when
    an identifier comes before it. *)
Definition result_line_ok (l : ResultLine) : Prop :=
  rl_name l ≠ [] ∧ forallb is_dot (rl_name l) = true ∧
  forallb is_text_char (rl_status l) = true ∧
  trim_start (rl_status l) = rl_status l ∧
  rest_ok (rl_rest l) ∧
  includes_i (rl_status l ++ result_end (rl_escape l) (rl_rest l))
    (js "Status:") = false ∧
  match rl_id l with
  | Some (type, number) =>
      type ≠ [] ∧ forallb is_word type = true ∧
      number ≠ [] ∧ forallb is_digit number = true ∧
      includes_i (rl_status l ++ result_end (rl_escape l) (rl_rest l))
        (js "ID:") = false
  | None => True
  end.

(** The entry the line stands for. *)
Definition result_entry (l : ResultLine) : BotResult :=
  MkBot
    match rl_id l with
    | Some (type, number) => Some (type ++ js "/" ++ number)
    | None => None
    end
    (Some (if decide (rl_status l = js "OK")
           then js "OK -> Not available for this account"
           else rl_status l)).


(** A line of an answer to [status] for one account: [<name> phrase]
    followed by marks and, possibly, by a colon and a detail. *)
Record StatusLine : Type := MkStatusLine {
  sl_name : jsstring;
  sl_phrase : jsstring;
  sl_marks : jsstring;
  sl_detail : option jsstring
}.

Definition status_text (l : StatusLine) : jsstring :=
  js "<" ++ sl_name l ++ js "> " ++ sl_phrase l ++ sl_marks l ++
  match sl_detail l with
  | Some detail => js ":" ++ detail
  | None => []
  end.

(** The detail after the colon: not empty, without line terminator, [<]
    and [>]. *)
Definition detail_ok (detail : jsstring) : Prop :=
  detail ≠ [] ∧ forallb is_dot detail = true ∧ (60 ∉ detail) ∧ (62 ∉ detail).

(** The texts for which the line is read without ambiguity: a name without
    line terminator and [<]; a phrase that is not empty, does not start
    with white space and holds no line terminator and none of [<], [>],
    [.], [!], [?], [:] and the backslash; marks among [.], [!] and [?]. *)
Definition status_line_ok (l : StatusLine) : Prop :=
  forallb is_dot (sl_name l) = true ∧ (60 ∉ sl_name l) ∧
  sl_phrase l ≠ [] ∧ trim_start (sl_phrase l) = sl_phrase l ∧
  forallb is_phrase_char (sl_phrase l) = true ∧
  forallb is_end_mark (sl_marks l) = true ∧
  match sl_detail l with
  | Some detail => detail_ok detail
  | None => True
  end.

(** The entry the line stands for: the phrase without the marks and the
    detail; the account is ready unless the phrase holds [Bot is connecting
    to Steam network], in any case. *)
Definition status_entry (l : StatusLine) : UserStatus :=
  MkUser (Some (sl_phrase l)) (negb (includes_i (sl_phrase l) connecting_text)).

(** ** Notifications: [sendHookAsync] and the metadata lookups *)

Module Notify.

(** [config.webhookUrl] and [config.webhookEnabledTypes]. *)
Record HookConfig : Type := MkHookConfig {
  webhookUrl : jsstring;
  webhookEnabledTypes : jsstring
}.

(** [s.split(sep)] for a separator of one character. *)
Fixpoint split_char (sep : N) (s : jsstring) : list jsstring :=
  match s with
  | [] => [[]]
  | c :: s' =>
      if c =? sep then [] :: split_char sep s'
      else match split_char sep s' with
           | l :: ls => (c :: l) :: ls
           | [] => [[c]]
           end
  end.

(** The argument [type] of the calls: ["info"], ["warn"], ["error"] or
    ["success"]. *)
Definition type_name (type : Severity) : jsstring :=
  match type with
  | Info => js "info"
  | Warn => js "warn"
  | Error => js "error"
  | Success => js "success"
  end.

(** [!config.webhookUrl || config.webhookUrl == "none"]. *)
Definition disabled (config : HookConfig) : bool :=
  bool_decide (webhookUrl config = []) ||
  bool_decide (webhookUrl config = js "none").

(** *** The license of a notification *)

(** [s.replace(p, r)] for a string [p] that is not empty and a replacement
    without [$]: the first occurrence. *)
Fixpoint replace_first (p r s : jsstring) : jsstring :=
  if starts_with p s then r ++ drop (length p) s
  else match s with
       | [] => []
       | c :: s' => c :: replace_first p r s'
       end.

(** The pattern [^(\d+)$]. *)
Definition number_re : regex :=
  seqs [Bol; Grp 1 (Rep true 1 is_digit); Eol].

(** [s.replace(/^(\d+)$/, "sub/$1")]: a match starts at index 0, and what
    follows it is kept. *)
Definition replace_number (s : jsstring) : jsstring :=
  match exec number_re 1 s with
  | Some matchRes =>
      js "sub/" ++ default [] (group matchRes 1) ++
      drop (length (default [] (group matchRes 0))) s
  | None => s
  end.

(** The three replacements on a [licenseId] that is not empty. *)
Definition normalize (licenseId : jsstring) : jsstring :=
  replace_number
    (replace_first (js "s/") (js "sub/")
       (replace_first (js "a/") (js "app/") licenseId)).

(** [licenseId] after [if (licenseId) { ... }]; [None] is [undefined]. *)
Definition normalized (licenseId : option jsstring) : option jsstring :=
  match licenseId with
  | Some (c :: l) => Some (normalize (c :: l))
  | other => other
  end.

(** Whether [licenseId] is truthy. *)
Definition truthy (licenseId : option jsstring) : bool :=
  match licenseId with
  | Some (_ :: _) => true
  | _ => false
  end.

(** [license.type] and [license.id]; [None] is [undefined]. *)
Record License : Type := MkLicense {
  license_type : option jsstring;
  license_id : option jsstring
}.

Definition license_of (licenseId : option jsstring) : License :=
  match normalized licenseId with
  | Some (c :: l) =>
      MkLicense (split_char 47 (c :: l) !! 0%nat) (split_char 47 (c :: l) !! 1%nat)
  | _ => MkLicense None None
  end.

(** *** The answers of the store and what the process does *)

(** The fields of [body[appId].data] the notification reads; [None] is a
    field that is absent or falsy. *)
Record AppData : Type := MkAppData {
  header_image : option jsstring;
  app_name : option jsstring;
  app_type : option jsstring;
  steam_appid : option jsstring
}.

(** What [fetch(.../api/appdetails?appids=...)] with its handlers sees:
    a body whose entry has a truthy [success], with its [data] ([None]
    when that is falsy); a body that is [null] or whose entry has no truthy
    [success]; or an error: the request or [res.json()] is rejected, or the
    body has no entry for the id. *)
Inductive AppReply : Type :=
| AppSuccess (data : option AppData)
| AppNoSuccess
| AppError.

(** The same for [.../api/packagedetails?packageids=...]: [apps] is
    [data.apps], an array of objects given by their [id]s, or [None] when
    it is [undefined]; the error case includes an entry without [data]. *)
Inductive PkgReply : Type :=
| PkgSuccess (apps : option (list (option jsstring)))
| PkgNoSuccess
| PkgError.

(** [metaData] of one embed. *)
Record MetaData : Type := MkMeta {
  imageUrl : jsstring;
  meta_name : jsstring;
  meta_type : jsstring;
  appId : option jsstring;
  subId : option jsstring
}.

(** The body of a webhook request: the title, the type that selects the
    color and, for a license, the metadata the image and the description
    are built from. *)
Record Payload : Type := MkPayload {
  title : string;
  color : Severity;
  detail : option MetaData
}.

Inductive HookEvent : Type :=
| GetApp (appId : option jsstring)
| GetPackage (subId : option jsstring)
| WarnLine
| Webhook (payload : Payload).

(** The environment: the answers of the store still to come, the outcomes
    of the deliveries of the webhook queue still to come ([false]: the
    promise of [sendWebhook] is rejected), and what was done so far. *)
Record World : Type := MkWorld {
  appReplies : list AppReply;
  pkgReplies : list PkgReply;
  deliveries : list bool;
  trace : list HookEvent
}.

(** How an asynchronous function ends: with a value, with an exception, or
    awaiting an answer the environment does not hold. *)
Inductive Res (A : Type) : Type :=
| Val (a : A)
| Throw
| Wait.
Arguments Val {A} _.
Arguments Throw {A}.
Arguments Wait {A}.

Definition M (A : Type) : Type := World → Res A * World.

Definition ret {A} (a : A) : M A := fun w => (Val a, w).

Definition bind {A B} (c : M A) (f : A → M B) : M B :=
  fun w =>
    match c w with
    | (Val a, w') => f a w'
    | (Throw, w') => (Throw, w')
    | (Wait, w') => (Wait, w')
    end.

Definition throw {A} : M A := fun w => (Throw, w).

(** [c.catch(handler)], also for an exception in a [then] before it. *)
Definition catch {A} (c handler : M A) : M A :=
  fun w =>
    match c w with
    | (Throw, w') => handler w'
    | r => r
    end.

Definition emit (e : HookEvent) : M unit :=
  fun w =>
    (Val tt,
     MkWorld (appReplies w) (pkgReplies w) (deliveries w) (trace w ++ [e])).

Definition next_app : M AppReply :=
  fun w =>
    match appReplies w with
    | r :: rs => (Val r, MkWorld rs (pkgReplies w) (deliveries w) (trace w))
    | [] => (Wait, w)
    end.

Definition next_pkg : M PkgReply :=
  fun w =>
    match pkgReplies w with
    | r :: rs => (Val r, MkWorld (appReplies w) rs (deliveries w) (trace w))
    | [] => (Wait, w)
    end.

(** [await sendWebhook(config.webhookUrl, { ... })]: the request is
    enqueued and the call waits for its delivery. *)
Definition sendWebhook (payload : Payload) : M unit :=
  bind (emit (Webhook payload)) (fun _ w =>
    match deliveries w with
    | true :: ds => (Val tt, MkWorld (appReplies w) (pkgReplies w) ds (trace w))
    | false :: ds => (Throw, MkWorld (appReplies w) (pkgReplies w) ds (trace w))
    | [] => (Wait, w)
    end).

(** A loop [for (...) { await body }]. *)
Fixpoint for_each {A} (l : list A) (body : A → M unit) : M unit :=
  match l with
  | [] => ret tt
  | x :: l' => bind (body x) (fun _ => for_each l' body)
  end.

(** A loop that collects the results of its passes. *)
Fixpoint collect {A B} (l : list A) (body : A → M B) : M (list B) :=
  match l with
  | [] => ret []
  | x :: l' =>
      bind (body x) (fun y => bind (collect l' body) (fun ys => ret (y :: ys)))
  end.

Section Functions.

Variable config : HookConfig.

(** [webhookEnabledTypes]. *)
Definition enabledTypes : list jsstring :=
  split_char 59 (webhookEnabledTypes config).

(** [sendHookAsync(type, msg)], without [licenseId] and [asfResult]: the
    calls from inside the metadata lookups; the loop then only takes its
    second branch. *)
Definition sendHookAsync_plain (type : Severity) (msg : string) : M unit :=
  if disabled config then ret tt
  else
    for_each enabledTypes (fun enabled =>
      if decide (enabled = type_name type)
      then sendWebhook (MkPayload msg type None)
      else ret tt).

Definition none_success : string :=
  "Got none-success result from SteamAPI, check the logs for more informations".

Definition steam_error : string :=
  "An error occurred while connect to Steam API, check the logs for more informations.".

(** The [catch] handler of both lookups up to its end; the lookup then
    gives [undefined]. *)
Definition lookup_failed {A} : M (option A) :=
  bind (emit WarnLine) (fun _ =>
  bind (emit WarnLine) (fun _ =>
  bind (sendHookAsync_plain Warn steam_error) (fun _ =>
  ret None))).

(** The branch of a lookup for an answer without success, which gives
    [value]. *)
Definition lookup_no_success {A} (value : option A) : M (option A) :=
  bind (emit WarnLine) (fun _ =>
  bind (emit WarnLine) (fun _ =>
  bind (sendHookAsync_plain Warn none_success) (fun _ =>
  ret value))).

(** [parseAppMetaAsync(appId)]; [None] is [undefined]. *)
Definition parseAppMetaAsync (appId : option jsstring) : M (option AppData) :=
  bind (emit (GetApp appId)) (fun _ =>
  bind next_app (fun r =>
    match r with
    | AppSuccess data => ret data
    | AppNoSuccess => catch (lookup_no_success None) lookup_failed
    | AppError => lookup_failed
    end)).

(** [parseSubApps(subId)]: [packageApps.length] throws when the lookup gave
    [undefined]. *)
Definition parseSubApps (subId : option jsstring) :
  M (list (option AppData)) :=
  bind (emit (GetPackage subId)) (fun _ =>
  bind next_pkg (fun r =>
  bind match r with
       | PkgSuccess apps => ret apps
       | PkgNoSuccess => catch (lookup_no_success (Some [])) lookup_failed
       | PkgError => lookup_failed
       end (fun packageApps =>
    match packageApps with
    | None => throw
    | Some apps => collect apps parseAppMetaAsync
    end))).

(** [metaData] for one entry of [appMetadata]. *)
Definition metaData_of (license : License) (data : option AppData) : MetaData :=
  let is_app := bool_decide (license_type license = Some (js "app")) in
  let is_sub := bool_decide (license_type license = Some (js "sub")) in
  let or_else {A} (field : option A) (value : A) := default value field in
  MkMeta
    (or_else (data ≫= header_image)
       (js "https://placehold.co/460x215.jpg?text=Cant+load+image"))
    (or_else (data ≫= app_name) (js "Cant load name"))
    (or_else (data ≫= app_type) (js "Cant load type"))
    match data ≫= steam_appid with
    | Some id => Some id
    | None => if is_app then license_id license else None
    end
    (if is_sub then license_id license else None).

(** [sendHookAsync(type, msg, licenseId)], for the calls that pass no
    [asfResult]: the embed then has no fields. *)
Definition sendHookAsync (type : Severity) (msg : string)
  (licenseId : option jsstring) : M unit :=
  if disabled config then ret tt
  else
    let license := license_of licenseId in
    for_each enabledTypes (fun enabled =>
      if decide (enabled = type_name type) then
        if truthy (normalized licenseId) then
          bind (if decide (license_type license = Some (js "app"))
                then bind (parseAppMetaAsync (license_id license))
                       (fun data => ret [data])
                else parseSubApps (license_id license)) (fun appMetadata =>
          for_each appMetadata (fun data =>
            sendWebhook
              (MkPayload msg type (Some (metaData_of license data)))))
        else sendWebhook (MkPayload msg type None)
      else ret tt).

End Functions.

(** A world with the given answers and an empty trace. *)
Definition world (apps : list AppReply) (pkgs : list PkgReply)
  (ds : list bool) : World := MkWorld apps pkgs ds [].

(** The webhooks sent, in order. *)
Definition webhooks (evs : list HookEvent) : list Payload :=
  omap (fun e => match e with Webhook payload => Some payload | _ => None end)
    evs.

Definition is_lookup (e : HookEvent) : bool :=
  match e with
  | GetApp _ | GetPackage _ => true
  | _ => false
  end.

(** The lookups made, in order. *)
Definition lookups (evs : list HookEvent) : list HookEvent :=
  filter (fun e => is_lookup e = true) evs.

End Notify.

(** ** The start of the process *)

(** The top level of [index.js] from the first notification to the end of
    the first cycle, after the migration.  [webhook] is the test
    [config.webhookUrl && config.webhookUrl !== "none"]; the enabled types
    are left out of the text of the first notification.  An exception at
    the top level ends the process.  [hookOk] counts the calls of
    [sendHookAsync] from the start. *)
Definition startup (config : Config) (hookOk : nat → bool) (webhook : bool)
  (stats_replies status_replies claim_replies : list Reply) (gist : Gist)
  (licenses : list jsstring) : CycleState * Outcome :=
  let '(evs1, ok1) :=
    if webhook
    then consoleAndWebhookAsync hookOk [] Info
           "Discord hook enabled! With types: "
    else ([], true) in
  if ok1 then
    let '(evs2, ok2) :=
      consoleAndWebhookAsync hookOk evs1 Info "ASFClaim started!" in
    if ok2 then
      match checkConnection config stats_replies with
      | (evs3, Returned) =>
          match checkUserLoggedIn config
                  (fun n => hookOk (hook_calls (evs2 ++ evs3) + n)%nat)
                  status_replies with
          | (evs4, Returned) =>
              checkGame config hookOk gist claim_replies
                (MkCycle licenses (evs2 ++ evs3 ++ evs4))
          | (evs4, out) => (MkCycle licenses (evs2 ++ evs3 ++ evs4), out)
          end
      | (evs3, out) => (MkCycle licenses (evs2 ++ evs3), out)
      end
    else (MkCycle licenses evs2, Threw)
  else (MkCycle licenses evs1, Threw).

(** ** Soundness of the matcher *)

Lemma rep_greedy_sound p min i s k x :
  rep_greedy p min i s k = Some x →
  ∃ pre s', s = pre ++ s' ∧ forallb p pre = true ∧
            (min <= length pre)%nat ∧ k (i + length pre)%nat s' = Some x.
Proof.
  revert min i. induction s as [|c s IH]; intros min i H; simpl in H.
  - destruct min; [|discriminate].
    exists [], []. rewrite Nat.add_0_r. auto.
  - assert (Hstop : match min with O => k i (c :: s) | S _ => None end = Some x →
              ∃ pre s', c :: s = pre ++ s' ∧ forallb p pre = true ∧
                (min <= length pre)%nat ∧ k (i + length pre)%nat s' = Some x).
    { destruct min; [|discriminate]. intros Hk.
      exists [], (c :: s). rewrite Nat.add_0_r. auto. }
    destruct (p c) eqn:Hp; [|auto].
    destruct (rep_greedy p (pred min) (S i) s k) eqn:Hrec; [|auto].
    injection H as ->.
    destruct (IH _ _ Hrec) as (pre & s' & -> & Hall & Hmin & Hk).
    exists (c :: pre), s'. simpl. rewrite Hp, Hall.
    replace (i + S (length pre))%nat with (S i + length pre)%nat by lia.
    repeat split; auto; lia.
Qed.

Lemma rep_lazy_sound p min i s k x :
  rep_lazy p min i s k = Some x →
  ∃ pre s', s = pre ++ s' ∧ forallb p pre = true ∧
            (min <= length pre)%nat ∧ k (i + length pre)%nat s' = Some x.
Proof.
  revert min i. induction s as [|c s IH]; intros min i H.
  - destruct min; simpl in H; [|discriminate].
    destruct (k i []) eqn:Hk; [|discriminate].
    exists [], []. rewrite Nat.add_0_r. injection H as ->. auto.
  - assert (Hmore : (if p c then rep_lazy p (pred min) (S i) s k else None) = Some x →
              ∃ pre s', c :: s = pre ++ s' ∧ forallb p pre = true ∧
                (min <= length pre)%nat ∧ k (i + length pre)%nat s' = Some x).
    { destruct (p c) eqn:Hp; [|discriminate]. intros Hrec.
      destruct (IH _ _ Hrec) as (pre & s' & -> & Hall & Hmin & Hk).
      exists (c :: pre), s'. simpl. rewrite Hp, Hall.
      replace (i + S (length pre))%nat with (S i + length pre)%nat by lia.
      repeat split; auto; lia. }
    destruct min; simpl in H; [|auto].
    destruct (k i (c :: s)) eqn:Hk; [|auto].
    injection H as ->. exists [], (c :: s). rewrite Nat.add_0_r. auto.
Qed.

(** Soundness of the matcher: a result comes from the continuation, called
    on a state the pattern leads to. *)
Lemma m_sound r : ∀ st k x,
  m r st k = Some x → ∃ st', matches r st st' ∧ k st' = Some x.
Proof.
  induction r as [|p|r1 IH1 r2 IH2|r1 IH1 r2 IH2|g min p|r IH|n r IH| |];
    intros st k x H; simpl in H.
  - exists st. simpl. auto.
  - destruct (rest st) as [|c s'] eqn:Hr; [discriminate|].
    destruct (p c) eqn:Hp; [|discriminate].
    eexists; split; [|exact H]. simpl. eauto.
  - destruct (IH1 _ _ _ H) as (st1 & H1 & H2).
    destruct (IH2 _ _ _ H2) as (st' & H3 & H4).
    exists st'. split; [|done]. simpl. eauto.
  - destruct (m r1 st k) eqn:E1.
    + injection H as ->. destruct (IH1 _ _ _ E1) as (st' & ? & ?).
      exists st'. simpl. auto.
    + destruct (IH2 _ _ _ H) as (st' & ? & ?). exists st'. simpl. auto.
  - assert (∃ pre s', rest st = pre ++ s' ∧ forallb p pre = true ∧
              (min <= length pre)%nat ∧
              k (MkSt (idx st + length pre) s' (caps st)) = Some x)
      as (pre & s' & Hs & Hall & Hmin & Hk).
    { destruct g; [apply rep_greedy_sound in H | apply rep_lazy_sound in H];
        exact H. }
    eexists; split; [|exact Hk]. simpl. exists pre. auto.
  - match type of H with
    | match ?e with _ => _ end = _ => destruct e eqn:E
    end.
    + injection H as ->. destruct (IH _ _ _ E) as (st' & Hm & Hk).
      destruct (idx st' =? idx st)%nat; [discriminate|].
      exists st'. simpl. auto.
    + exists st. simpl. auto.
  - destruct (IH _ _ _ H) as (st1 & Hm & Hk).
    eexists; split; [|exact Hk]. simpl. eauto.
  - destruct (idx st =? 0)%nat eqn:E; [|discriminate].
    apply Nat.eqb_eq in E. exists st. simpl. auto.
  - destruct (rest st) eqn:E; [|discriminate]. exists st. simpl. auto.
Qed.

Lemma reset_length gs c : length (reset gs c) = length c.
Proof.
  induction gs as [|g gs IH]; simpl; [done|]. by rewrite length_insert.
Qed.

Lemma reset_other gs c n :
  existsb (Nat.eqb n) gs = false → reset gs c !! n = c !! n.
Proof.
  induction gs as [|g gs IH]; simpl; [done|].
  intros H. apply orb_false_elim in H as [Hg Hgs].
  apply Nat.eqb_neq in Hg.
  rewrite list_lookup_insert_ne by congruence. auto.
Qed.

Lemma matches_length r : ∀ st st',
  matches r st st' → length (caps st') = length (caps st).
Proof.
  induction r as [|p|r1 IH1 r2 IH2|r1 IH1 r2 IH2|g min p|r IH|n r IH| |];
    intros st st' H; simpl in H.
  - by subst.
  - destruct H as (c & s' & _ & _ & ->). done.
  - destruct H as (st1 & H1 & H2).
    rewrite (IH2 _ _ H2). eauto.
  - destruct H; eauto.
  - destruct H as (pre & _ & _ & _ & _ & ->). done.
  - destruct H as [->|H]; [done|].
    rewrite (IH _ _ H). simpl. apply reset_length.
  - destruct H as (st1 & H & ->). simpl.
    rewrite length_insert. eauto.
  - destruct H as [_ ->]. done.
  - destruct H as [_ ->]. done.
Qed.

Lemma matches_other r n : ∀ st st',
  existsb (Nat.eqb n) (groups r) = false →
  matches r st st' → caps st' !! n = caps st !! n.
Proof.
  induction r as [|p|r1 IH1 r2 IH2|r1 IH1 r2 IH2|g min p|r IH|k r IH| |];
    intros st st' Hn H; simpl in H, Hn.
  - by subst.
  - destruct H as (c & s' & _ & _ & ->). done.
  - rewrite existsb_app in Hn. apply orb_false_elim in Hn as [Hn1 Hn2].
    destruct H as (st1 & H1 & H2).
    rewrite (IH2 _ _ Hn2 H2). eauto.
  - rewrite existsb_app in Hn. apply orb_false_elim in Hn as [Hn1 Hn2].
    destruct H; eauto.
  - destruct H as (pre & _ & _ & _ & _ & ->). done.
  - destruct H as [->|H]; [done|].
    rewrite (IH _ _ Hn H). simpl. by apply reset_other.
  - apply orb_false_elim in Hn as [Hk Hn]. apply Nat.eqb_neq in Hk.
    destruct H as (st1 & H & ->). simpl.
    rewrite list_lookup_insert_ne by congruence. eauto.
  - destruct H as [_ ->]. done.
  - destruct H as [_ ->]. done.
Qed.

(** A group of [sets r] is defined in the state after a match of [r]. *)
Lemma matches_sets r n : ∀ st st',
  n ∈ sets r → (n < length (caps st))%nat →
  matches r st st' → ∃ v, caps st' !! n = Some (Some v).
Proof.
  induction r as [|p|r1 IH1 r2 IH2|r1 IH1 r2 IH2|g min p|r IH|k r IH| |];
    intros st st' Hn Hlen H; simpl in H, Hn;
    try (by apply elem_of_nil in Hn).
  - destruct H as (st1 & H1 & H2).
    apply elem_of_app in Hn as [Hn|Hn].
    + apply list_elem_of_filter in Hn as [Hno Hn].
      apply negb_prop_elim in Hno. apply Is_true_false in Hno.
      rewrite (matches_other _ _ _ _ Hno H2). eauto.
    + apply (IH2 st1); [done| |done].
      by rewrite (matches_length _ _ _ H1).
  - destruct H as (st1 & H & ->). simpl.
    destruct (decide (n = k)) as [->|Hne].
    + eexists. apply list_lookup_insert_eq.
      by rewrite (matches_length _ _ _ H).
    + rewrite list_lookup_insert_ne by congruence.
      apply elem_of_cons in Hn as [?|Hn]; [done|]. eauto.
Qed.

Lemma match_at_defined r ng i s res n :
  match_at r ng i s = Some res →
  n ∈ sets (Grp 0 r) → (n <= ng)%nat →
  ∃ v, group res n = Some v.
Proof.
  unfold match_at. intros H Hn Hle.
  apply m_sound in H as (st' & Hm & Hk). injection Hk as <-.
  assert (Hlen : (n < length (caps (MkSt i s (replicate (S ng) None))))%nat).
  { simpl. rewrite length_replicate. lia. }
  destruct (matches_sets _ n _ _ Hn Hlen Hm) as [v Hv].
  exists v. unfold group. by rewrite Hv.
Qed.

Lemma exec_from_defined r ng s res n : ∀ i,
  exec_from r ng i s = Some res →
  n ∈ sets (Grp 0 r) → (n <= ng)%nat →
  ∃ v, group res n = Some v.
Proof.
  induction s as [|c s IH]; intros i H Hn Hle; simpl in H.
  - destruct (match_at r ng i []) eqn:E; [|discriminate].
    injection H as ->. exact (match_at_defined _ _ _ _ _ _ E Hn Hle).
  - destruct (match_at r ng i (c :: s)) eqn:E.
    + injection H as ->. exact (match_at_defined _ _ _ _ _ _ E Hn Hle).
    + eauto.
Qed.

(** A group of [sets] is defined in every result of [exec]. *)
Lemma exec_defined r ng s res n :
  exec r ng s = Some res →
  n ∈ sets (Grp 0 r) → (n <= ng)%nat →
  ∃ v, group res n = Some v.
Proof. apply exec_from_defined. Qed.


(** ** Facts about objects and the parsers *)

Lemma obj_get_set {V} (o : jsobj V) k v : obj_get (obj_set o k v) k = Some v.
Proof.
  unfold obj_get, obj_set. destruct (decide (k = proto_key)); simpl; [done|].
  apply lookup_insert_eq.
Qed.

Lemma own_obj_set {V} (o : jsobj V) k v :
  own (obj_set o k v) = if decide (k = proto_key) then own o else <[k := v]> (own o).
Proof. unfold obj_set. by destruct (decide (k = proto_key)). Qed.

Lemma own_obj_set_elim {V} (o : jsobj V) k v name e :
  own (obj_set o k v) !! name = Some e →
  (name = k ∧ e = v) ∨ own o !! name = Some e.
Proof.
  rewrite own_obj_set. destruct (decide (k = proto_key)); [auto|].
  rewrite lookup_insert. destruct (decide (k = name)); [|auto].
  intros [= <-]. auto.
Qed.

(** Groups 1 and 3 take part in every match of the pattern of
    [parseASFResult], groups 1 and 2 in every match of the pattern of
    [parseASFStatus]. *)
Lemma result_re_defined line matchRes :
  exec result_re 3 line = Some matchRes →
  ∃ name st, group matchRes 1 = Some name ∧ group matchRes 3 = Some st.
Proof.
  intros H.
  destruct (exec_defined _ _ _ _ 1%nat H) as [name Hname];
    [vm_compute; repeat constructor | lia |].
  destruct (exec_defined _ _ _ _ 3%nat H) as [st Hst];
    [vm_compute; repeat constructor | lia |].
  eauto.
Qed.

Lemma status_re_defined line matchRes :
  exec status_re 2 line = Some matchRes →
  ∃ name st, group matchRes 1 = Some name ∧ group matchRes 2 = Some st.
Proof.
  intros H.
  destruct (exec_defined _ _ _ _ 1%nat H) as [name Hname];
    [vm_compute; repeat constructor | lia |].
  destruct (exec_defined _ _ _ _ 2%nat H) as [st Hst];
    [vm_compute; repeat constructor | lia |].
  eauto.
Qed.

Lemma reclassify_Some st :
  reclassify (Some st) = Some (if decide (st = js "OK") then not_available else st).
Proof.
  unfold reclassify. destruct (decide (st = js "OK")) as [->|Hne].
  - by rewrite decide_True.
  - rewrite decide_False; [done|]. intros [= ?]. done.
Qed.

Lemma obj_set_set {V} (o : jsobj V) k v v' :
  obj_set (obj_set o k v) k v' = obj_set o k v'.
Proof.
  unfold obj_set. destruct (decide (k = proto_key)); simpl; [done|].
  by rewrite insert_insert_eq.
Qed.

Lemma obj_keys_set {V} (o : jsobj V) k v :
  obj_keys (obj_set o k v) =
  if decide (k = proto_key) then obj_keys o else {[k]} ∪ obj_keys o.
Proof.
  unfold obj_keys. rewrite own_obj_set.
  destruct (decide (k = proto_key)); [done|]. apply dom_insert_L.
Qed.

Lemma result_line_eq o line :
  result_line o line =
  match result_of_line line with
  | Some (name, e) => obj_set o name e
  | None => o
  end.
Proof.
  unfold result_line, result_of_line.
  by destruct (exec result_re 3 line).
Qed.

(** One line of the status response never raises, and what it does. *)
Lemma status_line_eq info line :
  status_line info line =
  Some match status_of_line line with
       | Some (name, e) =>
           MkInfo (obj_set (user info) name e) (isDone info && user_isDone e)
       | None => info
       end.
Proof.
  unfold status_line, status_of_line.
  destruct (exec status_re 2 line) as [mr|] eqn:E; simpl; [|done].
  destruct (status_re_defined _ _ E) as (name & st & Hname & Hst).
  rewrite Hst. simpl. destruct (is_connecting st) eqn:Hc; simpl.
  - rewrite obj_get_set. simpl. rewrite obj_set_set.
    by rewrite andb_false_r.
  - by rewrite andb_true_r.
Qed.

Lemma foldl_result_line lines : ∀ o,
  foldl result_line o lines = obj_set_all o (omap result_of_line lines).
Proof.
  induction lines as [|l ls IH]; intros o; simpl; [done|].
  rewrite IH, result_line_eq.
  by destruct (result_of_line l) as [[name e]|].
Qed.

Lemma parseASFResult_eq result :
  parseASFResult result = obj_set_all obj_empty (result_matches result).
Proof. apply foldl_result_line. Qed.

Lemma status_lines_eq lines : ∀ info,
  status_lines info lines =
  Some (MkInfo (obj_set_all (user info) (omap status_of_line lines))
          (isDone info && forallb (fun kv => user_isDone kv.2)
                            (omap status_of_line lines))).
Proof.
  induction lines as [|l ls IH]; intros info; simpl.
  - rewrite andb_true_r. by destruct info.
  - rewrite status_line_eq. simpl. rewrite IH.
    destruct (status_of_line l) as [[name e]|]; simpl; [|done].
    by rewrite andb_assoc.
Qed.

(** [parseASFStatus] never raises; its result in closed form. *)
Lemma parseASFStatus_eq result :
  parseASFStatus result =
  Some (MkInfo (obj_set_all obj_empty (status_matches result))
          (forallb (fun kv => user_isDone kv.2) (status_matches result))).
Proof. unfold parseASFStatus. by rewrite status_lines_eq. Qed.

Lemma obj_keys_set_all {V} (kvs : list (jsstring * V)) : ∀ o,
  obj_keys (obj_set_all o kvs) =
  obj_keys o ∪ list_to_set (filter (fun k => k ≠ proto_key) kvs.*1).
Proof.
  induction kvs as [|[k v] kvs IH]; intros o; simpl.
  - by rewrite (right_id_L ∅ (∪)).
  - unfold obj_set_all in *. simpl. rewrite IH, obj_keys_set. simpl.
    destruct (decide (k = proto_key)) as [->|Hne].
    + rewrite filter_cons_False by (intros ?; done). done.
    + rewrite filter_cons_True by done. simpl.
      by rewrite (assoc_L (∪)), (comm_L (∪) {[k]}).
Qed.

(** The last assignment to a name other than [__proto__] is the entry. *)
Lemma own_obj_set_all_last {V} (pre post : list (jsstring * V)) o k v :
  k ≠ proto_key → k ∉ post.*1 →
  own (obj_set_all o (pre ++ (k, v) :: post)) !! k = Some v.
Proof.
  intros Hk Hpost. unfold obj_set_all. rewrite foldl_app. simpl.
  generalize (foldl (fun o kv => obj_set o kv.1 kv.2) o pre) as o1. intros o1.
  assert (H1 : own (obj_set o1 k v) !! k = Some v).
  { rewrite own_obj_set, decide_False by done. apply lookup_insert_eq. }
  revert H1. generalize (obj_set o1 k v) as o2.
  induction post as [|[k' v'] post IH]; intros o2 H; simpl; [done|].
  apply IH.
  - intros Hin. apply Hpost. simpl. by apply list_elem_of_further.
  - rewrite own_obj_set. destruct (decide (k' = proto_key)); [done|].
    rewrite lookup_insert_ne; [done|].
    intros ->. apply Hpost. simpl. apply list_elem_of_here.
Qed.

(** Every own entry was assigned. *)
Lemma own_obj_set_all_elim {V} (kvs : list (jsstring * V)) : ∀ o k v,
  own (obj_set_all o kvs) !! k = Some v →
  (k, v) ∈ kvs ∨ own o !! k = Some v.
Proof.
  induction kvs as [|[k' v'] kvs IH]; intros o k v H; simpl in H; [auto|].
  apply IH in H as [H|H].
  - left. by apply list_elem_of_further.
  - apply own_obj_set_elim in H as [[-> ->]|H]; [|auto].
    left. apply list_elem_of_here.
Qed.

(** *** A literal pattern is a search without case *)

Lemma m_literal p : ∀ st k,
  m (seqs (map (fun c => Cls (is_char_i c)) p)) st k =
  if starts_with_i p (rest st)
  then k (MkSt (idx st + length p) (drop (length p) (rest st)) (caps st))
  else None.
Proof.
  induction p as [|a p IH]; intros [i s c] k; simpl.
  - by rewrite Nat.add_0_r.
  - destruct s as [|x s]; [done|].
    destruct (is_char_i a x); simpl; [|done].
    rewrite IH. simpl. by rewrite Nat.add_succ_r.
Qed.

Lemma match_at_literal p ng i s :
  is_Some (match_at (seqs (map (fun c => Cls (is_char_i c)) p)) ng i s) ↔
  starts_with_i p s = true.
Proof.
  unfold match_at. cbn [m]. rewrite m_literal. cbn [rest].
  destruct (starts_with_i p s); split; intros H; try done.
Qed.

Lemma exec_from_literal p ng s : ∀ i,
  is_Some (exec_from (seqs (map (fun c => Cls (is_char_i c)) p)) ng i s) ↔
  includes_i s p = true.
Proof.
  induction s as [|c s IH]; intros i; cbn [exec_from includes_i].
  - rewrite orb_false_r, <- (match_at_literal p ng i).
    by destruct (match_at _ ng i []).
  - rewrite orb_true_iff, <- (match_at_literal p ng i), <- (IH (S i)).
    destruct (match_at _ ng i (c :: s)) as [x|].
    + split; [by left | by eauto].
    + split; [by right | intros [[? [=]]|?]; done].
Qed.

(** The test of [parseASFStatus] on a status phrase: it holds the text
    [Bot is connecting to Steam network] somewhere, in any case. *)
Lemma is_connecting_includes_i str :
  is_connecting str = includes_i str (js "Bot is connecting to Steam network").
Proof.
  unfold is_connecting, exec, connecting_re, lit_i.
  destruct (includes_i str _) eqn:E.
  - apply bool_decide_eq_true. by apply exec_from_literal.
  - apply bool_decide_eq_false. rewrite exec_from_literal. by rewrite E.
Qed.

(** With distinct names, none of them [__proto__], every assignment is an
    entry. *)
Lemma own_obj_set_all_NoDup {V} (kvs : list (jsstring * V)) o k v :
  NoDup kvs.*1 → proto_key ∉ kvs.*1 → (k, v) ∈ kvs →
  own (obj_set_all o kvs) !! k = Some v.
Proof.
  intros Hnd Hproto Hin.
  apply list_elem_of_split in Hin as (pre & post & ->).
  rewrite fmap_app, fmap_cons in Hnd, Hproto. simpl in *.
  apply NoDup_app in Hnd as (_ & _ & Hnd). apply NoDup_cons in Hnd as [Hk _].
  apply own_obj_set_all_last; [|done].
  intros ->. apply Hproto. apply elem_of_app. right. apply list_elem_of_here.
Qed.

(** ** The response parsers: the claims *)

Lemma result_of_line_written line name e :
  result_of_line line = Some (name, e) → written_by line name e.
Proof.
  unfold result_of_line. destruct (exec result_re 3 line) as [mr|] eqn:E;
    simpl; [|discriminate].
  destruct (result_re_defined _ _ E) as (u & st & Hu & Hst).
  rewrite Hu, Hst, reclassify_Some. simpl. intros [= <- <-].
  exists mr, st. auto.
Qed.

Lemma parseASFResult_entry result name e :
  own (parseASFResult result) !! name = Some e →
  ∃ line, line ∈ split_nl result ∧ written_by line name e.
Proof.
  rewrite parseASFResult_eq. intros H.
  apply own_obj_set_all_elim in H as [H|H]; [|simpl in H; by rewrite lookup_empty in H].
  apply list_elem_of_omap in H as (line & Hin & Hl).
  eauto using result_of_line_written.
Qed.

Lemma not_available_not_OK : not_available ≠ js "OK".
Proof. discriminate. Qed.

(** C1: every matching line of the response is written with the status
    text it captured, except that the exact text [OK] is written as
    [OK -> Not available for this account]; so every entry of the object
    [parseASFResult] returns holds such a status of one of the lines and
    none holds the bare [OK]; the response ['<bot1> OK'] gives the one
    entry [bot1] with that status, and a status [OK | Items: ...] is kept
    as it is. *)
Theorem parseASFResult_reclassifies_OK :
  (∀ (botResults : jsobj BotResult) (line : jsstring) matchRes,
     exec result_re 3 line = Some matchRes →
     ∃ name st,
       group matchRes 1 = Some name ∧ group matchRes 3 = Some st ∧
       result_line botResults line =
         obj_set botResults name
           (MkBot (group matchRes 2)
              (Some (if decide (st = js "OK")
                     then js "OK -> Not available for this account"
                     else st)))) ∧
  (∀ (result name : jsstring) (e : BotResult),
     own (parseASFResult result) !! name = Some e →
     (∃ line, line ∈ split_nl result ∧ written_by line name e) ∧
     bot_status e ≠ Some (js "OK")) ∧
  parseASFResult (js "'<bot1> OK'") =
    MkObj {[ js "bot1" :=
               MkBot None (Some (js "OK -> Not available for this account")) ]}
      None ∧
  parseASFResult (js "<bot1> OK | Items: app/339610") =
    MkObj {[ js "bot1" := MkBot None (Some (js "OK | Items: app/339610")) ]}
      None.
Proof.
  split; [|split].
  - intros o line mr E.
    destruct (result_re_defined _ _ E) as (name & st & Hname & Hst).
    exists name, st. unfold result_line.
    by rewrite E, Hname, Hst, reclassify_Some.
  - intros result name e H.
    destruct (parseASFResult_entry _ _ _ H) as (line & Hin & Hw).
    split; [eauto|].
    destruct Hw as (mr & st & _ & _ & _ & ->). simpl.
    intros Heq. apply (inj Some) in Heq.
    destruct (decide (st = js "OK")) as [_|Hne];
      [by apply not_available_not_OK | done].
  - split; vm_compute; reflexivity.
Qed.

(** C3, counterexample: with two lines for the account [a], the first one
    connecting, the only entry of the result has its flag [true] while the
    aggregate is [false]: the aggregate is not the conjunction of the flags
    of the accounts of the result. *)
Lemma allReady_not_and_of_account_flags :
  ∃ info,
    parseASFStatus twice_a = Some info ∧
    forallb user_isDone (obj_values (user info)) = true ∧
    isDone info = false.
Proof. eexists. split; [vm_compute; reflexivity|]. split; reflexivity. Qed.

Lemma status_of_line_flag line name e :
  status_of_line line = Some (name, e) →
  ∃ st, user_status e = Some st ∧
        user_isDone e = negb (includes_i st connecting_text).
Proof.
  unfold status_of_line. destruct (exec status_re 2 line) as [mr|] eqn:E;
    simpl; [|discriminate].
  destruct (status_re_defined _ _ E) as (u & st & Hu & Hst).
  rewrite Hst. simpl. intros [= <- <-]. simpl.
  rewrite is_connecting_includes_i. eauto.
Qed.

(** C3, amended: [parseASFStatus] returns; every matching line gives its
    account the flag [false] exactly when its status phrase holds
    [Bot is connecting to Steam network] in any case, and so has every
    entry of the result; the aggregate is the conjunction of the flags of
    all matching lines, which is the conjunction over the entries of the
    result when no name is matched twice and none is [__proto__]; without
    a matching line the aggregate is [true]. *)
Theorem parseASFStatus_ready_flags (result : jsstring) :
  ∃ info,
    parseASFStatus result = Some info ∧
    (∀ name e, (name, e) ∈ status_matches result →
       ∃ st, user_status e = Some st ∧
             user_isDone e = negb (includes_i st connecting_text)) ∧
    (∀ name e, own (user info) !! name = Some e →
       ∃ st, user_status e = Some st ∧
             user_isDone e = negb (includes_i st connecting_text)) ∧
    isDone info =
      forallb (fun kv => user_isDone kv.2) (status_matches result) ∧
    (NoDup (status_matches result).*1 →
     proto_key ∉ (status_matches result).*1 →
     (isDone info = true ↔
      ∀ name e, own (user info) !! name = Some e → user_isDone e = true)) ∧
    (status_matches result = [] → isDone info = true).
Proof.
  eexists. split; [apply parseASFStatus_eq|]. simpl.
  assert (Hline : ∀ name e, (name, e) ∈ status_matches result →
            ∃ st, user_status e = Some st ∧
                  user_isDone e = negb (includes_i st connecting_text)).
  { intros name e H. apply list_elem_of_omap in H as (line & _ & Hl).
    eauto using status_of_line_flag. }
  assert (Hown : ∀ name e,
            own (obj_set_all obj_empty (status_matches result)) !! name = Some e →
            (name, e) ∈ status_matches result).
  { intros name e H. apply own_obj_set_all_elim in H as [H|H]; [done|].
    simpl in H. by rewrite lookup_empty in H. }
  split; [exact Hline|]. split; [|split; [|split]].
  - intros name e H. eauto.
  - reflexivity.
  - intros Hnd Hproto. rewrite forallb_forall. split.
    + intros Hall name e H. apply Hown in H.
      apply (Hall (name, e)). by apply list_elem_of_In.
    + intros Hall [name e] Hin. apply list_elem_of_In in Hin. simpl.
      apply (Hall name). by apply own_obj_set_all_NoDup.
  - intros ->. reflexivity.
Qed.

(** C4, at the failing input: the line [<__proto__> OK] matches with the
    account name [__proto__], and the object returned has no key; the same
    for [parseASFStatus]. *)
Theorem parsers_lose_proto_key :
  (result_matches (js "<__proto__> OK")).*1 = [js "__proto__"] ∧
  obj_keys (parseASFResult (js "<__proto__> OK")) = ∅ ∧
  (status_matches (js "<__proto__> OK")).*1 = [js "__proto__"] ∧
  ∃ info, parseASFStatus (js "<__proto__> OK") = Some info ∧
          obj_keys (user info) = ∅.
Proof.
  split; [vm_compute; reflexivity|]. split; [vm_compute; reflexivity|].
  split; [vm_compute; reflexivity|].
  eexists. split; [vm_compute; reflexivity|]. vm_compute. reflexivity.
Qed.

(** Both parsers return for every text: [parseASFResult] has no step that
    can raise, and the two of [parseASFStatus] that could never do; the
    keys of the objects returned are the account names of the matching
    lines other than [__proto__]. *)
Theorem parsers_total_keys (result : jsstring) :
  obj_keys (parseASFResult result) =
    list_to_set (filter (fun k => k ≠ proto_key) (result_matches result).*1) ∧
  ∃ info,
    parseASFStatus result = Some info ∧
    obj_keys (user info) =
      list_to_set (filter (fun k => k ≠ proto_key) (status_matches result).*1).
Proof.
  split.
  - rewrite parseASFResult_eq, obj_keys_set_all. unfold obj_keys. simpl.
    rewrite dom_empty_L. apply (left_id_L ∅ (∪)).
  - eexists. split; [apply parseASFStatus_eq|]. simpl.
    rewrite obj_keys_set_all. unfold obj_keys. simpl.
    rewrite dom_empty_L. apply (left_id_L ∅ (∪)).
Qed.

(** C9, at the failing input: two matching lines for the account
    [__proto__] leave no entry for it. *)
Theorem parseASFResult_proto_twice :
  (result_matches twice_proto).*1 = [js "__proto__"; js "__proto__"] ∧
  own (parseASFResult twice_proto) = ∅.
Proof. split; vm_compute; reflexivity. Qed.

(** For an account name other than [__proto__], the entry of the object
    returned is the one of the last matching line with that name. *)
Theorem parseASFResult_last_line_wins
  (result : jsstring) (pre post : list jsstring) (line name : jsstring)
  (e : BotResult) :
  split_nl result = pre ++ line :: post →
  result_of_line line = Some (name, e) →
  name ≠ proto_key →
  (∀ l e', l ∈ post → result_of_line l ≠ Some (name, e')) →
  own (parseASFResult result) !! name = Some e.
Proof.
  intros Hsplit Hline Hname Hpost.
  rewrite parseASFResult_eq. unfold result_matches.
  rewrite Hsplit, omap_app. simpl. rewrite Hline.
  apply own_obj_set_all_last; [done|].
  intros Hin. apply list_elem_of_fmap in Hin as ([k e'] & -> & Hin).
  apply list_elem_of_omap in Hin as (l & Hl & Hres).
  by apply (Hpost l e').
Qed.

Lemma parseASFResult_last_line_wins_witness :
  own (parseASFResult (js "<bot1> Fail" ++ [10] ++ js "<bot1> OK")) !! js "bot1"
  = Some (MkBot None (Some (js "OK -> Not available for this account"))).
Proof.
  apply (parseASFResult_last_line_wins _ [js "<bot1> Fail"] [] (js "<bot1> OK")).
  - vm_compute. reflexivity.
  - vm_compute. reflexivity.
  - discriminate.
  - intros l e' Hin. by apply elem_of_nil in Hin.
Defined.

(** ** The connection checks: the claims *)

Section Connectivity.

Variable config : Config.

Lemma actions_app evs1 evs2 : actions (evs1 ++ evs2) = actions evs1 ++ actions evs2.
Proof. apply filter_app. Qed.

Lemma actions_logs n evs : actions (replicate n (Log Info) ++ evs) = actions evs.
Proof. induction n as [|n IH]; simpl; [done|]. exact IH. Qed.

Lemma actions_failed_attempts n :
  actions (concat (replicate n (failed_attempt config))) =
  concat (replicate n [Fetch (stats_command config); Sleep retryDelay]).
Proof.
  induction n as [|n IH]; simpl; [done|].
  change (actions (failed_attempt config ++
            concat (replicate n (failed_attempt config))) =
          [Fetch (stats_command config); Sleep retryDelay] ++
            concat (replicate n [Fetch (stats_command config); Sleep retryDelay])).
  rewrite actions_app, IH. reflexivity.
Qed.

(** Failed attempts while attempts remain: each is followed by the sleep and
    the next pass of the loop. *)
Lemma checkConnection_failed_prefix pre : ∀ attemptNumber rest,
  Forall (fun r => reply_success r = false) pre →
  (attemptNumber + length pre <= S maxRetries)%nat →
  checkConnection_from config attemptNumber (pre ++ rest) =
  (concat (replicate (length pre) (failed_attempt config)) ++
     (checkConnection_from config (attemptNumber + length pre) rest).1,
   (checkConnection_from config (attemptNumber + length pre) rest).2).
Proof.
  induction pre as [|r pre IH]; intros a rest Hall Hle; simpl in *.
  - rewrite Nat.add_0_r. by destruct (checkConnection_from config a rest).
  - apply Forall_cons in Hall as [Hr Hall].
    destruct (Nat.ltb_spec maxRetries a) as [Hlt|_]; [lia|].
    rewrite Hr, IH by (done || lia).
    replace (S a + length pre)%nat with (a + S (length pre))%nat by lia.
    reflexivity.
Qed.

(** C6: when every query of [checkConnection] fails (the request is
    rejected or the answer is not a success), it makes exactly 5 attempts,
    sleeps 5 seconds after each, and exits with code 1; when the attempt
    after fewer than 5 failed ones succeeds, it returns and makes no further
    attempt. *)
Theorem checkConnection_five_attempts (replies : list Reply) :
  (Forall (fun r => reply_success r = false) replies →
   (5 <= length replies)%nat →
   ∃ evs,
     checkConnection config replies = (evs, Exited 1) ∧
     actions evs =
       concat (replicate 5 [Fetch (stats_command config); Sleep 5]) ++ [Exit 1]) ∧
  (∀ pre r post,
     replies = pre ++ r :: post →
     Forall (fun r => reply_success r = false) pre →
     (length pre < 5)%nat →
     reply_success r = true →
     ∃ evs,
       checkConnection config replies = (evs, Returned) ∧
       actions evs =
         concat (replicate (length pre) [Fetch (stats_command config); Sleep 5])
           ++ [Fetch (stats_command config)]).
Proof.
  split.
  - intros Hall Hlen. eexists. split.
    + unfold checkConnection. rewrite <- (take_drop 5 replies).
      rewrite checkConnection_failed_prefix.
      * rewrite length_take, Nat.min_l by lia.
        destruct (drop 5 replies); reflexivity.
      * by apply Forall_take.
      * rewrite length_take. unfold maxRetries. lia.
    + rewrite actions_app, actions_failed_attempts. reflexivity.
  - intros pre r post -> Hall Hlen Hr. eexists. split.
    + unfold checkConnection. rewrite checkConnection_failed_prefix.
      * simpl. destruct (Nat.ltb_spec maxRetries (S (length pre))) as [Hlt|_];
          [unfold maxRetries in Hlt; lia|].
        rewrite Hr. reflexivity.
      * done.
      * unfold maxRetries. lia.
    + simpl. rewrite actions_app, actions_failed_attempts. reflexivity.
Qed.

Lemma actions_polling_round r :
  not_ready r = true →
  actions (polling_round config r) = [Fetch (status_command config); Sleep 10].
Proof.
  unfold not_ready, polling_round.
  destruct (status_reply_ok r) as [res|]; [|discriminate]. intros _.
  change (actions ([Fetch (status_command config)] ++
            replicate (length (status_matches res)) (Log Info) ++
            [Log Info; Log Info; Sleep 10]) = [Fetch (status_command config); Sleep 10]).
  rewrite actions_app, actions_logs. reflexivity.
Qed.

Lemma actions_polling_rounds pre :
  Forall (fun r => not_ready r = true) pre →
  actions (concat (map (polling_round config) pre)) =
  concat (replicate (length pre) [Fetch (status_command config); Sleep 10]).
Proof.
  induction 1 as [|r pre Hr _ IH]; simpl; [done|].
  change (actions (polling_round config r ++
            concat (map (polling_round config) pre)) =
          [Fetch (status_command config); Sleep 10] ++
            concat (replicate (length pre) [Fetch (status_command config); Sleep 10])).
  by rewrite actions_app, IH, actions_polling_round.
Qed.

(** One step of the loop on a reply that is no rejection. *)
Lemma checkUserLoggedIn_loop_body ok res replies :
  checkUserLoggedIn_loop config (Body ok res :: replies) =
  match status_reply_ok (Body ok res) with
  | None => ([Fetch (status_command config); Log Error], Threw)
  | Some res =>
      let lines := replicate (length (status_matches res)) (Log Info) in
      match parseASFStatus res with
      | None => (Fetch (status_command config) :: lines, Threw)
      | Some asfStatus =>
          if isDone asfStatus then
            (Fetch (status_command config) :: lines ++ [Log Info], Returned)
          else
            (Fetch (status_command config) :: lines ++
               [Log Info; Log Info; Sleep 10] ++
               (checkUserLoggedIn_loop config replies).1,
             (checkUserLoggedIn_loop config replies).2)
      end
  end.
Proof.
  simpl. destruct ok, res; try reflexivity.
  destruct (parseASFStatus (n :: res)) as [info|]; [|reflexivity].
  destruct (isDone info); [reflexivity|].
  by destruct (checkUserLoggedIn_loop config replies).
Qed.

(** Replies that are not ready: each round ends in the sleep of 10 seconds
    and the next query. *)
Lemma checkUserLoggedIn_loop_not_ready pre : ∀ rest,
  Forall (fun r => not_ready r = true) pre →
  checkUserLoggedIn_loop config (pre ++ rest) =
  (concat (map (polling_round config) pre) ++
     (checkUserLoggedIn_loop config rest).1,
   (checkUserLoggedIn_loop config rest).2).
Proof.
  induction pre as [|r pre IH]; intros rest Hall.
  - simpl. by destruct (checkUserLoggedIn_loop config rest).
  - apply Forall_cons in Hall as [Hr Hall].
    change ((r :: pre) ++ rest) with (r :: (pre ++ rest)).
    unfold not_ready in Hr. destruct r as [ok res|]; [|discriminate].
    rewrite checkUserLoggedIn_loop_body.
    change (concat (map (polling_round config) (Body ok res :: pre)))
      with (polling_round config (Body ok res) ++
            concat (map (polling_round config) pre)).
    unfold polling_round.
    destruct (status_reply_ok (Body ok res)) as [res'|]; [|discriminate].
    destruct (parseASFStatus res') as [info|]; [|discriminate].
    destruct (isDone info); [discriminate|].
    rewrite IH by done. simpl. f_equal. f_equal.
    rewrite <- !app_assoc. reflexivity.
Qed.

(** The loop ends only on a reply whose status is [isDone], after replies
    that were not ready. *)
Lemma checkUserLoggedIn_loop_returned replies : ∀ evs,
  checkUserLoggedIn_loop config replies = (evs, Returned) →
  ∃ pre r rest res asfStatus,
    replies = pre ++ r :: rest ∧
    Forall (fun r => not_ready r = true) pre ∧
    status_reply_ok r = Some res ∧
    parseASFStatus res = Some asfStatus ∧
    isDone asfStatus = true.
Proof.
  induction replies as [|r replies IH]; intros evs H; [discriminate|].
  destruct r as [ok res|]; [|discriminate].
  rewrite checkUserLoggedIn_loop_body in H.
  destruct (status_reply_ok (Body ok res)) as [res'|] eqn:Hok; [|discriminate].
  destruct (parseASFStatus res') as [info|] eqn:Hparse; [|discriminate].
  destruct (isDone info) eqn:Hdone.
  - exists [], (Body ok res), replies, res', info.
    split; [reflexivity|]. split; [constructor|].
    split; [exact Hok|]. split; [exact Hparse|exact Hdone].
  - injection H as _ Hout.
    destruct (checkUserLoggedIn_loop config replies) as [evs' out] eqn:E.
    cbn [snd] in Hout. subst out.
    destruct (IH _ eq_refl) as (pre & r & rest & res2 & info2 & -> & Hall & ?).
    exists (Body ok res :: pre), r, rest, res2, info2.
    split; [done|]. split; [|done].
    constructor; [|done]. unfold not_ready. by rewrite Hok, Hparse, Hdone.
Qed.

Variable hookOk : nat -> bool.

Lemma checkUserLoggedIn_not_returned replies evs out :
  checkUserLoggedIn_loop config replies = (evs, out) →
  out ≠ Returned →
  checkUserLoggedIn config hookOk replies = (evs, out).
Proof.
  unfold checkUserLoggedIn. intros -> Hout. by destruct out.
Qed.

(** C7: after any number of accepted replies whose parsed status is not
    [isDone], each followed by a sleep of 10 seconds, [checkUserLoggedIn]
    is still polling; a rejected request or a reply that is not a success
    then makes it throw at once, with no sleep and no further query; a reply
    whose status is [isDone] ends the loop, and the loop ends in no other
    way. *)
Theorem checkUserLoggedIn_polling (pre : list Reply) :
  Forall (fun r => not_ready r = true) pre →
  let polled :=
    concat (replicate (length pre) [Fetch (status_command config); Sleep 10])
      ++ [Fetch (status_command config)] in
  (∃ evs, checkUserLoggedIn config hookOk pre = (evs, Pending) ∧
          actions evs = polled) ∧
  (∀ r rest,
     r = Failure ∨ (∃ res, r = Body false res) →
     ∃ evs, checkUserLoggedIn config hookOk (pre ++ r :: rest) = (evs, Threw) ∧
            actions evs = polled) ∧
  (∀ r rest res asfStatus,
     status_reply_ok r = Some res →
     parseASFStatus res = Some asfStatus →
     isDone asfStatus = true →
     ∃ evs, checkUserLoggedIn_loop config (pre ++ r :: rest) = (evs, Returned) ∧
            actions evs = polled) ∧
  (∀ replies evs,
     checkUserLoggedIn_loop config replies = (evs, Returned) →
     ∃ pre' r rest res asfStatus,
       replies = pre' ++ r :: rest ∧
       Forall (fun r => not_ready r = true) pre' ∧
       status_reply_ok r = Some res ∧
       parseASFStatus res = Some asfStatus ∧
       isDone asfStatus = true).
Proof.
  intros Hall polled. split; [|split; [|split]].
  - eexists. split.
    + apply checkUserLoggedIn_not_returned; [|discriminate].
      rewrite <- (app_nil_r pre) at 1.
      by rewrite checkUserLoggedIn_loop_not_ready.
    + simpl. by rewrite actions_app, actions_polling_rounds.
  - intros r rest Hr. eexists. split.
    + apply checkUserLoggedIn_not_returned; [|discriminate].
      rewrite checkUserLoggedIn_loop_not_ready by done.
      destruct Hr as [->|[res ->]]; reflexivity.
    + destruct Hr as [->|[res ->]]; simpl;
        by rewrite actions_app, actions_polling_rounds.
  - intros r rest res info Hok Hparse Hdone. eexists. split.
    + rewrite checkUserLoggedIn_loop_not_ready by done.
      destruct r as [ok res'|]; [|discriminate].
      rewrite checkUserLoggedIn_loop_body, Hok, Hparse, Hdone. reflexivity.
    + simpl. rewrite actions_app, actions_polling_rounds by done.
      f_equal.
      change (actions ([Fetch (status_command config)] ++
                replicate (length (status_matches res)) (Log Info) ++
                [Log Info]) = [Fetch (status_command config)]).
      rewrite actions_app, actions_logs. reflexivity.
  - apply checkUserLoggedIn_loop_returned.
Qed.

End Connectivity.

Lemma checkConnection_five_attempts_witness :
  (∃ evs,
     checkConnection default_config (replicate 5 Failure) = (evs, Exited 1) ∧
     actions evs =
       concat (replicate 5 [Fetch (stats_command default_config); Sleep 5]) ++ [Exit 1]) ∧
  (∃ evs,
     checkConnection default_config [Failure; Body false []; Body true []] =
       (evs, Returned) ∧
     actions evs =
       concat (replicate 2 [Fetch (stats_command default_config); Sleep 5])
         ++ [Fetch (stats_command default_config)]).
Proof.
  split.
  - apply (proj1 (checkConnection_five_attempts default_config (replicate 5 Failure))).
    + repeat constructor.
    + simpl. lia.
  - apply (proj2 (checkConnection_five_attempts default_config
                    [Failure; Body false []; Body true []])
             [Failure; Body false []] (Body true []) []).
    + reflexivity.
    + repeat constructor.
    + simpl. lia.
    + reflexivity.
Defined.

Lemma checkUserLoggedIn_polling_witness :
  ∃ evs,
    checkUserLoggedIn default_config (fun _ => true)
      [connecting_reply; connecting_reply] = (evs, Pending) ∧
    actions evs =
      concat (replicate (length [connecting_reply; connecting_reply])
                [Fetch (status_command default_config); Sleep 10]) ++
        [Fetch (status_command default_config)].
Proof.
  refine (proj1 (checkUserLoggedIn_polling default_config (fun _ => true)
                   [connecting_reply; connecting_reply] _)).
  repeat (constructor; [vm_compute; reflexivity|]). constructor.
Defined.

(** ** The claim cycle: the claims *)

Lemma parseASFResult_status_defined result name e :
  own (parseASFResult result) !! name = Some e → is_Some (bot_status e).
Proof.
  intros H. apply parseASFResult_entry in H as (line & _ & Hw).
  destruct Hw as (mr & st & _ & _ & _ & ->). simpl. eauto.
Qed.

Lemma some_rate_limit_spec values :
  Forall (fun e => is_Some (bot_status e)) values →
  ∃ b, some_rate_limit values = Some b ∧
       (b = true ↔ ∃ e st, e ∈ values ∧ bot_status e = Some st ∧
                           includes st rate_limit_marker = true).
Proof.
  induction 1 as [|e values [st Hst] _ (b & Hb & Hiff)]; simpl.
  - exists false. split; [done|]. split; [discriminate|].
    intros (e & st & Hin & _). by apply elem_of_nil in Hin.
  - rewrite Hst. simpl.
    destruct (includes st rate_limit_marker) eqn:Hinc.
    + exists true. split; [done|]. split; [|done]. intros _.
      exists e, st. split; [apply list_elem_of_here|done].
    + exists b. split; [done|]. rewrite Hiff. split.
      * intros (e' & st' & Hin & ?). exists e', st'.
        split; [by apply list_elem_of_further|done].
      * intros (e' & st' & Hin & Hst' & Hinc').
        apply elem_of_cons in Hin as [->|Hin]; [congruence|eauto].
Qed.

(** The test of [checkGame] never raises on a parsed result, and says
    whether some account's status contains [RateLimitExceeded]. *)
Lemma hasRateLimit_spec result :
  ∃ b, hasRateLimit (parseASFResult result) = Some b ∧
       (b = true ↔ rate_limited (parseASFResult result)).
Proof.
  unfold hasRateLimit, obj_values, rate_limited.
  destruct (some_rate_limit_spec (map_to_list (own (parseASFResult result))).*2)
    as (b & Hb & Hiff).
  { apply Forall_forall. intros e He.
    apply list_elem_of_fmap in He as ([name e'] & -> & He).
    apply elem_of_map_to_list in He.
    by apply (parseASFResult_status_defined result name). }
  exists b. split; [done|]. rewrite Hiff. split.
  - intros (e & st & Hin & ?).
    apply list_elem_of_fmap in Hin as ([name e'] & -> & Hin).
    apply elem_of_map_to_list in Hin. by exists name, e', st.
  - intros (name & e & st & Hlook & ?). exists e, st. split; [|done].
    apply list_elem_of_fmap. exists (name, e). split; [done|].
    by apply elem_of_map_to_list.
Qed.

Section Cycle.

Variable config : Config.
Variable hookOk : nat -> bool.

Lemma hook_calls_app evs1 evs2 :
  hook_calls (evs1 ++ evs2) = (hook_calls evs1 + hook_calls evs2)%nat.
Proof. unfold hook_calls. by rewrite filter_app, length_app. Qed.

(** Case analysis on every outcome of a notification call in the goal. *)
Ltac case_hooks :=
  repeat match goal with
         | |- context [hookOk ?n] => destruct (hookOk n)
         end.

Lemma submit_catch_licenses st :
  processedLicenses (submit_catch hookOk st).1 = processedLicenses st ∧
  (submit_catch hookOk st).2 ≠ Returned ∧
  (submit_catch hookOk st).2 ≠ Pending.
Proof.
  unfold submit_catch, gist_catch, hook, sendHookAsync, emit. simpl.
  case_hooks; simpl; done.
Qed.

(** *** The commands a cycle sends *)

Lemma fetches_app evs1 evs2 : fetches (evs1 ++ evs2) = fetches evs1 ++ fetches evs2.
Proof. apply omap_app. Qed.

Lemma fetches_hook st type msg licenseId asfResult :
  fetches (events (hook hookOk st type msg licenseId asfResult).1)
  = fetches (events st).
Proof.
  unfold hook, sendHookAsync. simpl. rewrite fetches_app. simpl.
  by rewrite app_nil_r.
Qed.

Lemma fetches_replicate_log n level : fetches (replicate n (Log level)) = [].
Proof. induction n as [|n IH]; [done|exact IH]. Qed.

Lemma fetches_gist_catch status st :
  fetches (events (gist_catch hookOk status st).1) = fetches (events st).
Proof.
  unfold gist_catch.
  destruct (hook hookOk _ _ _ _ _) as [st1 ok] eqn:E.
  assert (H1 : fetches (events st1) = fetches (events st)).
  { change st1 with ((st1, ok).1). rewrite <- E, fetches_hook.
    unfold emit. simpl. rewrite fetches_app, fetches_replicate_log.
    by rewrite app_nil_r. }
  destruct ok; simpl; [|done].
  by rewrite fetches_app, H1, app_nil_r.
Qed.

Lemma fetches_submit_catch st :
  fetches (events (submit_catch hookOk st).1) = fetches (events st).
Proof.
  unfold submit_catch.
  destruct (hook hookOk _ _ _ _ _) as [st1 ok] eqn:E.
  assert (H1 : fetches (events st1) = fetches (events st)).
  { change st1 with ((st1, ok).1). rewrite <- E, fetches_hook.
    unfold emit. simpl. rewrite fetches_app. by rewrite app_nil_r. }
  destruct ok; simpl.
  - by rewrite fetches_app, H1, app_nil_r.
  - by rewrite fetches_gist_catch.
Qed.

(** One submission sends one command, the one for its code. *)
Lemma fetches_claim_one currentLicense r st :
  fetches (events (claim_one config hookOk currentLicense r st).1)
  = fetches (events st) ++ [addlicense_command config currentLicense].
Proof.
  assert (H0 : ∀ evs,
            fetches evs = [] →
            fetches ((events st ++
                      [Sleep 2; Fetch (addlicense_command config currentLicense)])
                     ++ evs)
            = fetches (events st) ++ [addlicense_command config currentLicense]).
  { intros evs Hevs. rewrite !fetches_app, Hevs. simpl. by rewrite app_nil_r. }
  unfold claim_one. destruct r as [[] Result|].
  - remember (parseASFResult Result) as asfResult.
    destruct (hasRateLimit asfResult) as [[]|].
    + destruct (hook hookOk _ _ _ _ _) as [st1 ok] eqn:E.
      assert (H1 : fetches (events st1)
                   = fetches (events st) ++ [addlicense_command config currentLicense]).
      { change st1 with ((st1, ok).1). rewrite <- E, fetches_hook.
        unfold emit. simpl. by apply H0. }
      destruct ok; simpl; [done|].
      destruct (submit_catch hookOk st1) as [st2 out] eqn:E2. simpl.
      change st2 with ((st2, out).1). by rewrite <- E2, fetches_submit_catch.
    + destruct (hook hookOk _ _ _ _ _) as [st1 ok] eqn:E.
      assert (H1 : fetches (events st1)
                   = fetches (events st) ++ [addlicense_command config currentLicense]).
      { change st1 with ((st1, ok).1). rewrite <- E, fetches_hook.
        unfold emit. simpl. by apply H0. }
      destruct ok; simpl; [done|].
      destruct (submit_catch hookOk st1) as [st2 out] eqn:E2. simpl.
      change st2 with ((st2, out).1). by rewrite <- E2, fetches_submit_catch.
    + destruct (submit_catch hookOk _) as [st2 out] eqn:E2. simpl.
      change st2 with ((st2, out).1). rewrite <- E2, fetches_submit_catch.
      unfold emit. simpl. rewrite <- (app_nil_r (_ ++ [Sleep 2; _])).
      by apply H0.
  - destruct (hook hookOk _ _ _ _ _) as [st1 ok] eqn:E.
    assert (H1 : fetches (events st1)
                 = fetches (events st) ++ [addlicense_command config currentLicense]).
    { change st1 with ((st1, ok).1). rewrite <- E, fetches_hook.
      unfold emit. simpl. by apply H0. }
    destruct ok; simpl.
    + by rewrite fetches_app, H1, app_nil_r.
    + destruct (submit_catch hookOk st1) as [st2 out] eqn:E2. simpl.
      change st2 with ((st2, out).1). by rewrite <- E2, fetches_submit_catch.
  - destruct (submit_catch hookOk _) as [st2 out] eqn:E2. simpl.
    change st2 with ((st2, out).1). rewrite <- E2, fetches_submit_catch.
    unfold emit. simpl. rewrite <- (app_nil_r (_ ++ [Sleep 2; _])).
    by apply H0.
Qed.

(** The loop sends the commands for the codes of the batch, in the order of
    the batch, up to the code at which it stops. *)
Lemma fetches_claim_batch batch : ∀ replies st,
  ∃ n,
    fetches (events (claim_batch config hookOk batch replies st).1)
    = fetches (events st) ++ map (addlicense_command config) (take n batch).
Proof.
  induction batch as [|code batch IH]; intros replies st; simpl.
  - exists 0%nat. by rewrite app_nil_r.
  - destruct replies as [|r replies].
    + exists 1%nat. unfold emit. simpl. by rewrite fetches_app.
    + pose proof (fetches_claim_one code r st) as Hone.
      destruct (claim_one config hookOk code r st) as [st' [out|]]; simpl in *.
      * by exists 1%nat.
      * destruct (IH replies st') as [n Hn]. exists (S n).
        rewrite Hn, Hone, <- app_assoc. reflexivity.
Qed.

Lemma fetches_checkGame_end r :
  fetches (events (checkGame_end hookOk r).1) = fetches (events r.1).
Proof.
  unfold checkGame_end. destruct r as [st1 []]; try done.
  unfold hook, sendHookAsync, emit. simpl.
  rewrite !fetches_app. simpl. by rewrite !app_nil_r.
Qed.

(** The commands of a cycle are the ones for the first codes of the batch
    computed from the content of the Gist and [processedLicenses]. *)
Lemma fetches_checkGame content replies st :
  ∃ n,
    fetches (events (checkGame config hookOk (GistContent content) replies st).1)
    = fetches (events st) ++
      map (addlicense_command config)
        (take n (batch_of (newCodes (codes_of content) (processedLicenses st)))).
Proof.
  unfold checkGame.
  destruct (hook hookOk (emit st [Log Info]) _ _ _ _) as [st0 ok] eqn:E0.
  assert (H0 : fetches (events st0) = fetches (events st)).
  { change st0 with ((st0, ok).1). rewrite <- E0, fetches_hook.
    unfold emit. simpl. rewrite fetches_app. by rewrite app_nil_r. }
  assert (Hp : processedLicenses st0 = processedLicenses st).
  { unfold hook, sendHookAsync in E0. by injection E0 as <- _. }
  destruct ok; [|exists 0%nat; cbn [fst]; by rewrite H0, app_nil_r].
  rewrite fetches_checkGame_end. unfold checkGame_try. rewrite Hp.
  destruct (newCodes (codes_of content) (processedLicenses st)) as [|c new] eqn:Hnew.
  - exists 0%nat. rewrite app_nil_r.
    destruct (hook hookOk (emit st0 [Log Info]) _ _ _ _) as [st' ok'] eqn:E'.
    assert (H' : fetches (events st') = fetches (events st)).
    { change st' with ((st', ok').1). rewrite <- E', fetches_hook.
      unfold emit. simpl. rewrite fetches_app, H0. by rewrite app_nil_r. }
    destruct ok'; [done|]. by rewrite fetches_gist_catch.
  - destruct (fetches_claim_batch (batch_of (c :: new)) replies st0) as [n Hn].
    exists n. by rewrite Hn, H0.
Qed.

(** The submission of a code whose reply is a success, by the test of the
    rate limit. *)
Lemma claim_one_success currentLicense Result st b :
  hasRateLimit (parseASFResult Result) = Some b →
  claim_one config hookOk currentLicense (Body true Result) st =
  let sent := events st ++ [Sleep 2; Fetch (addlicense_command config currentLicense)] in
  let st1 :=
    if b then
      MkCycle (processedLicenses st)
        ((sent ++ [Log Info; Log Error; Log Info; Log Info; Log Info]) ++
         [Hook Error
            "Rate limit exceeded while processing package. Will retry in next run."
            (Some currentLicense) (Some (parseASFResult Result))])
    else
      MkCycle (processedLicenses st ++ [currentLicense])
        ((sent ++ [Log Info; Log Info; Log Info; Log Info; Log Info; Log Info;
                   Save (processedLicenses st ++ [currentLicense])]) ++
         [Hook Success "Processed a new package!" (Some currentLicense)
            (if webhookShowAccountStatus config
             then Some (parseASFResult Result) else None)]) in
  if hookOk (hook_calls (events st)) then (st1, None)
  else ((submit_catch hookOk st1).1, Some (submit_catch hookOk st1).2).
Proof.
  intros Hb. unfold claim_one. rewrite Hb.
  remember (parseASFResult Result) as asfResult.
  unfold hook, sendHookAsync, emit. cbn [processedLicenses events].
  rewrite !hook_calls_app. cbn [hook_calls filter length is_hook].
  destruct b.
  - replace (hook_calls (events st) + _ + _)%nat with (hook_calls (events st))
      by (unfold hook_calls; simpl; lia).
    destruct (hookOk (hook_calls (events st))); [reflexivity|].
    cbv zeta. by destruct (submit_catch _ _).
  - replace (hook_calls (events st) + _ + _)%nat with (hook_calls (events st))
      by (unfold hook_calls; simpl; lia).
    destruct (hookOk (hook_calls (events st))); [reflexivity|].
    cbv zeta. by destruct (submit_catch _ _).
Qed.




End Cycle.


(** C8, counterexample: for the list [a/100; a/200; a/100] and no
    processed code, the new codes keep both occurrences of [a/100]. *)
Lemma newCodes_keeps_duplicates :
  newCodes [js "a/100"; js "a/200"; js "a/100"] []
    = [js "a/100"; js "a/200"; js "a/100"] ∧
  newCodes [js "a/100"; js "a/200"; js "a/100"] [] ≠ [js "a/100"; js "a/200"].
Proof. split; [vm_compute; reflexivity | discriminate]. Qed.

(** C8, amended: the new codes are the codes of the list that are not in
    [processedLicenses], by equality of strings, in the order of the list
    and as often as they occur there; the batch is at most 40 of them, the
    last ones of the list, last first, and the commands a cycle sends are
    the ones for the first codes of the batch; for [a/100; a/200; a/100]
    and no processed code both are [a/100; a/200; a/100]. *)
Theorem newCodes_batch (codes processed : list jsstring) :
  let new := newCodes codes processed in
  (∀ config hookOk content replies st,
     codes = codes_of content → processed = processedLicenses st →
     ∃ n,
       fetches (events (checkGame config hookOk (GistContent content) replies st).1)
       = fetches (events st) ++
         map (addlicense_command config) (take n (batch_of new))) ∧
  (∀ code, code ∈ new ↔ code ∈ codes ∧ code ∉ processed) ∧
  new `sublist_of` codes ∧
  (∀ code, code ∉ processed →
     length (filter (fun c => c = code) new)
       = length (filter (fun c => c = code) codes)) ∧
  batch_of new = reverse (drop (length new - 40) new) ∧
  (length (batch_of new) <= 40)%nat ∧
  newCodes [js "a/100"; js "a/200"; js "a/100"] []
    = [js "a/100"; js "a/200"; js "a/100"] ∧
  batch_of (newCodes [js "a/100"; js "a/200"; js "a/100"] [])
    = [js "a/100"; js "a/200"; js "a/100"].
Proof.
  intros new. subst new.
  split; [intros config hookOk content replies st -> ->;
          apply fetches_checkGame|].
  unfold newCodes, batch_of.
  split; [|split; [|split; [|split; [|split; [|split]]]]].
  - intros code. rewrite list_elem_of_filter. tauto.
  - apply sublist_filter.
  - intros code Hcode. f_equal. rewrite list_filter_filter.
    apply list_filter_iff. intros c. split; [tauto|].
    intros ->. done.
  - apply take_reverse.
  - rewrite length_take. lia.
  - vm_compute. reflexivity.
  - vm_compute. reflexivity.
Qed.

(** ** The migration at start-up: the claim *)

(** A storage directory whose marker holds [3] and a Gist that cannot be
    read: the marker is removed and nothing else changes but the
    warnings. *)
Example migration_failed_fetch :
  migration (GistError (Some 401))
    (MkStorage (Some (js "3")) [js "a/1"] [js "a/1"] 0)
  = MkStorage None [js "a/1"] [js "a/1"] 2.
Proof. vm_compute. reflexivity. Qed.

(** C10: when the marker file exists and its content parses as an integer,
    the migration deletes it, also when the Gist cannot be read: then
    [processedLicenses] and its file are unchanged and a warning is logged,
    and a later run of the migration changes nothing, whatever the Gist
    gives then; when the marker file is absent or does not parse, the
    migration changes nothing. *)
Theorem migration_consumes_marker (gist : Gist) (st : Storage) :
  (∀ content lastLength,
     lastlength st = Some content →
     parseInt (trim content) = Some lastLength →
     lastlength (migration gist st) = None ∧
     (∀ status,
        gist = GistError status →
        licenses (migration gist st) = licenses st ∧
        processedLicensesFile (migration gist st) = processedLicensesFile st ∧
        (warnings st < warnings (migration gist st))%nat) ∧
     (∀ gist', migration gist' (migration gist st) = migration gist st)) ∧
  ((lastlength st = None ∨
    ∃ content, lastlength st = Some content ∧ parseInt (trim content) = None) →
   migration gist st = st).
Proof.
  split.
  - intros content lastLength Hmarker Hparse.
    assert (Hnone : lastlength (migration gist st) = None).
    { unfold migration. rewrite Hmarker, Hparse. reflexivity. }
    split; [exact Hnone|]. split.
    + intros status ->. unfold migration. rewrite Hmarker, Hparse.
      cbn [licenses processedLicensesFile warnings].
      repeat split; [done..|]. destruct (decide _); lia.
    + intros gist'. unfold migration at 1. by rewrite Hnone.
  - intros [Hnone|(content & Hmarker & Hparse)]; unfold migration.
    + by rewrite Hnone.
    + by rewrite Hmarker, Hparse.
Qed.

(** ** The webhook queue: the claim *)

Section QueueProofs.

Context {Job : Type}.

Implicit Types (st : QueueState Job) (log : list (QEvent Job)).

Lemma started_Started log t job :
  started (Started t job :: log) = started log ++ [(t, job)].
Proof. unfold started. simpl. by rewrite reverse_cons. Qed.

Lemma started_settle log t job (ok : bool) :
  started ((if ok then Resolved else Rejected) t job :: log) = started log.
Proof. unfold started. by destruct ok. Qed.

Lemma settled_Started log t job :
  settled (Started t job :: log) = settled log.
Proof. reflexivity. Qed.

Lemma settled_settle log t job (ok : bool) :
  settled ((if ok then Resolved else Rejected) t job :: log)
  = settled log ++ [(job, ok)].
Proof. unfold settled. destruct ok; simpl; by rewrite reverse_cons. Qed.

Lemma spaced_snoc ts t :
  spaced (ts ++ [t]) ↔
  spaced ts ∧ ∀ t', last ts = Some t' → t' + spacing <= t.
Proof.
  induction ts as [|t1 [|t2 ts] IH]; simpl in *.
  - split; [|done]. intros _. split; [done|]. discriminate.
  - split.
    + intros [H _]. split; [done|]. by intros t' [= <-].
    + intros [_ H]. split; [|done]. by apply H.
  - rewrite IH. tauto.
Qed.



Lemma queue_inv_init : queue_inv [] (@queue_init Job).
Proof. split; simpl; try done. Qed.

(** The loop test after the sleep, or at the start of a run of the loop. *)
Lemma queue_inv_loop_head enq st :
  (started (qlog st)).*2 ++ webhookQueue st = enq →
  (started (qlog st)).*2 = (settled (qlog st)).*1 →
  isProcessingWebhook st = true →
  spaced (started (qlog st)).*1 →
  (∀ t, last (started (qlog st)).*1 = Some t → t + spacing <= now st) →
  waited (qlog st) →
  (∀ s, last_settled (qlog st) = Some s → s + spacing <= now st) →
  queue_inv enq (loop_head st).
Proof.
  intros Hfifo Hone Hflag Hspaced Hlast Hwaited Hsettled. unfold loop_head.
  destruct (webhookQueue st) as [|job queue'] eqn:Hq.
  - split; simpl; try done. by rewrite app_nil_r.
  - split; simpl; rewrite ?started_Started, ?settled_Started, ?fmap_app; simpl.
    + by rewrite <- app_assoc.
    + by rewrite Hone.
    + done.
    + done.
    + apply spaced_snoc. auto.
    + intros t. rewrite last_snoc. by intros [= <-].
    + destruct (qlog st) as [|[t s0|s j|s j] log'] eqn:Hlog; simpl in *;
        try done; (split; [|done]); by apply Hsettled.
    + done.
Qed.

Lemma queue_inv_step enq st a st' :
  queue_inv enq st → qstep st a = Some st' →
  queue_inv (enq ++ enqueued [a]) st'.
Proof.
  intros [Hfifo Hone Hflag Hidle Hspaced Hlast Hwaited Hsettled] Hstep.
  destruct a as [job|ok| |ms]; unfold qstep in Hstep; simpl.
  - (* Enqueue *)
    assert (Hst' : st' = sendWebhook job st) by (by destruct (phase st); simplify_eq).
    subst st'. clear Hstep. unfold sendWebhook, processWebhookQueue. simpl.
    destruct (isProcessingWebhook st) eqn:Hproc.
    + split; simpl; try done.
      * by rewrite app_assoc, Hfifo.
      * intros Hp. rewrite Hp in Hflag. discriminate.
    + assert (Hp : phase st = Idle).
      { destruct (phase st); [done|discriminate..]. }
      rewrite (Hidle Hp) in *. simpl.
      apply queue_inv_loop_head; simpl.
      * rewrite app_nil_r in Hfifo. by rewrite Hfifo.
      * by rewrite Hone, Hp, app_nil_r.
      * done.
      * done.
      * intros t Ht. specialize (Hlast t Ht). by rewrite Hp in Hlast.
      * done.
      * intros s Hs. specialize (Hsettled s Hs). by rewrite Hp in Hsettled.
  - (* FetchDone *)
    destruct (phase st) as [|job|until] eqn:Hp; simplify_eq.
    rewrite app_nil_r.
    split; simpl; rewrite ?started_settle, ?settled_settle, ?fmap_app; simpl;
      try done.
    + by rewrite app_nil_r.
    + intros t Ht. specialize (Hlast t Ht). simpl in Hlast. lia.
    + by destruct ok.
    + destruct ok; simpl; intros s [= <-]; lia.
  - (* Timer *)
    destruct (phase st) as [|job|until] eqn:Hp; simplify_eq.
    destruct (N.leb_spec until (now st)) as [Hle|]; simplify_eq.
    rewrite app_nil_r. apply queue_inv_loop_head; try done.
    + by rewrite Hone, app_nil_r.
    + intros t Ht. specialize (Hlast t Ht). simpl in Hlast. lia.
    + intros s Hs. specialize (Hsettled s Hs). simpl in Hsettled. lia.
  - (* Tick *)
    assert (st' = MkQueue (webhookQueue st) (isProcessingWebhook st) (phase st)
                    (now st + ms) (qlog st)) as ->
      by (by destruct (phase st); simplify_eq).
    rewrite app_nil_r. split; simpl; try done.
    + intros t Ht. specialize (Hlast t Ht).
      destruct (phase st); lia.
    + intros s Hs. specialize (Hsettled s Hs).
      destruct (phase st); [lia|done..].
Qed.

Lemma queue_inv_run acts : ∀ enq st st',
  queue_inv enq st → qrun st acts = Some st' →
  queue_inv (enq ++ enqueued acts) st'.
Proof.
  induction acts as [|a acts IH]; intros enq st st' Hinv Hrun; simpl in Hrun.
  - simplify_eq. by rewrite app_nil_r.
  - destruct (qstep st a) as [st1|] eqn:Hstep; [|done]. simpl in Hrun.
    pose proof (IH _ _ _ (queue_inv_step _ _ _ _ Hinv Hstep) Hrun) as H.
    rewrite <- app_assoc in H.
    change (a :: acts) with ([a] ++ acts). unfold enqueued in *.
    by rewrite omap_app.
Qed.





End QueueProofs.


(** The sample run: three entries, the first delivery fails. *)
Example sample_queue_deliveries :
  started (qlog sample_queue) = [(0, 1%nat); (200, 2%nat); (450, 3%nat)] ∧
  settled (qlog sample_queue) = [(1%nat, false); (2%nat, true)] ∧
  phase sample_queue = Fetching 3%nat.
Proof. repeat split. Qed.

(** ** Which split a quantifier takes *)

(** A greedy quantifier whose continuation fails after every longer run
    stops where it is. *)
Lemma rep_greedy_stop p min i s k :
  (∀ e s', s = e ++ s' → e ≠ [] → forallb p e = true →
           k (i + length e)%nat s' = None) →
  rep_greedy p min i s k = match min with O => k i s | S _ => None end.
Proof.
  revert min i. induction s as [|c s IH]; intros min i Hext; [done|].
  simpl. destruct (p c) eqn:Hp; [|done].
  rewrite IH.
  - assert (Hk : k (S i) s = None).
    { rewrite <- (Nat.add_1_r i). apply (Hext [c] s); [done..|].
      simpl. by rewrite Hp. }
    rewrite Hk. by destruct min as [|[|min]].
  - intros e s' -> Hne He.
    replace (S i + length e)%nat with (i + length (c :: e))%nat by (simpl; lia).
    apply Hext; [done|done|]. simpl. by rewrite Hp, He.
Qed.

(** A greedy quantifier takes the longest run after which the rest of the
    pattern matches. *)
Lemma rep_greedy_pick p min i pre post k x :
  forallb p pre = true → (min <= length pre)%nat →
  k (i + length pre)%nat post = Some x →
  (∀ e post', post = e ++ post' → e ≠ [] → forallb p e = true →
              k (i + length pre + length e)%nat post' = None) →
  rep_greedy p min i (pre ++ post) k = Some x.
Proof.
  revert min i. induction pre as [|c pre IH]; intros min i Hall Hmin Hk Hext.
  - simpl in *. rewrite Nat.add_0_r in *. rewrite rep_greedy_stop by done.
    destruct min; [done|lia].
  - simpl in Hall. apply andb_prop in Hall as [Hc Hall]. simpl. rewrite Hc.
    rewrite (IH (pred min) (S i)); [done|done|simpl in Hmin; lia| |].
    + by replace (S i + length pre)%nat with (i + length (c :: pre))%nat
        by (simpl; lia).
    + intros e post' -> Hne He.
      replace (S i + length pre)%nat with (i + length (c :: pre))%nat
        by (simpl; lia).
      by apply Hext.
Qed.

(** A lazy quantifier takes the shortest run after which the rest of the
    pattern matches. *)
Lemma rep_lazy_pick p min i pre post k x :
  forallb p pre = true → (min <= length pre)%nat →
  k (i + length pre)%nat post = Some x →
  (∀ e e', pre = e ++ e' → e' ≠ [] → (min <= length e)%nat →
           k (i + length e)%nat (e' ++ post) = None) →
  rep_lazy p min i (pre ++ post) k = Some x.
Proof.
  revert min i. induction pre as [|c pre IH]; intros min i Hall Hmin Hk Hshort.
  - simpl in *. rewrite Nat.add_0_r in Hk.
    destruct min; [|lia]. destruct post; simpl; by rewrite Hk.
  - simpl in Hall. apply andb_prop in Hall as [Hc Hall].
    assert (Hrec : rep_lazy p (pred min) (S i) (pre ++ post) k = Some x).
    { apply IH; [done|simpl in Hmin; lia| |].
      - by replace (S i + length pre)%nat with (i + length (c :: pre))%nat
          by (simpl; lia).
      - intros e e' -> Hne Hlen.
        replace (S i + length e)%nat with (i + length (c :: e))%nat
          by (simpl; lia).
        apply (Hshort (c :: e) e'); [done|done|simpl; lia]. }
    destruct min as [|min]; simpl; rewrite Hc.
    + pose proof (Hshort [] (c :: pre) eq_refl) as H0. simpl in H0.
      rewrite Nat.add_0_r in H0. rewrite H0 by (done || lia). exact Hrec.
    + exact Hrec.
Qed.

(** A pattern whose every match is refused by the continuation fails. *)
Lemma m_none r st k :
  (∀ st', matches r st st' → k st' = None) → m r st k = None.
Proof.
  intros H. destruct (m r st k) as [x|] eqn:E; [|done].
  apply m_sound in E as (st' & Hm & Hk). by rewrite (H _ Hm) in Hk.
Qed.

(** What a match consumes. *)
Lemma matches_consumes r : ∀ st st',
  matches r st st' →
  ∃ w, rest st = w ++ rest st' ∧ idx st' = (idx st + length w)%nat.
Proof.
  induction r as [|p|r1 IH1 r2 IH2|r1 IH1 r2 IH2|g min p|r IH|n r IH| |];
    intros st st' H; simpl in H.
  - subst. exists []. by rewrite Nat.add_0_r.
  - destruct H as (c & s' & Hr & _ & ->). exists [c]. simpl.
    split; [done|lia].
  - destruct H as (st1 & H1 & H2).
    destruct (IH1 _ _ H1) as (w1 & Hr1 & Hi1).
    destruct (IH2 _ _ H2) as (w2 & Hr2 & Hi2).
    exists (w1 ++ w2). rewrite Hr1, Hr2, Hi2, Hi1, length_app, <- app_assoc.
    split; [done|lia].
  - destruct H as [H|H]; eauto.
  - destruct H as (pre & Hr & _ & _ & Hi & _). by exists pre.
  - destruct H as [->|H].
    + exists []. by rewrite Nat.add_0_r.
    + apply IH in H. exact H.
  - destruct H as (st1 & H & ->). apply IH in H. exact H.
  - destruct H as [_ ->]. exists []. by rewrite Nat.add_0_r.
  - destruct H as [_ ->]. exists []. by rewrite Nat.add_0_r.
Qed.

Lemma matches_literal p : ∀ st st',
  matches (seqs (map (fun c => Cls (is_char_i c)) p)) st st' →
  starts_with_i p (rest st) = true.
Proof.
  induction p as [|a p IH]; intros st st' H; simpl in *.
  - by destruct (rest st).
  - destruct H as (st1 & (c & s' & Hr & Hc & ->) & H).
    rewrite Hr, Hc. simpl. by apply IH in H.
Qed.

Lemma includes_i_app a b p :
  starts_with_i p b = true → includes_i (a ++ b) p = true.
Proof.
  intros H. induction a as [|c a IH]; simpl.
  - destruct b; simpl; by rewrite H.
  - rewrite IH. apply orb_true_r.
Qed.

Lemma includes_i_suffix a b p :
  includes_i (a ++ b) p = false → includes_i b p = false.
Proof.
  induction a as [|c a IH]; simpl; [done|].
  intros H. apply orb_false_elim in H as [_ H]. auto.
Qed.

Lemma includes_i_starts s p :
  includes_i s p = false → starts_with_i p s = false.
Proof. destruct s; simpl; intros H; by apply orb_false_elim in H as [H _]. Qed.

(** An attempt that does not start at index 0 fails on a pattern that
    starts with [^]. *)
Lemma exec_from_Bol r ng s : ∀ i,
  exec_from (Seq Bol r) ng (S i) s = None.
Proof.
  induction s as [|c s IH]; intros i; simpl; [done|]. apply IH.
Qed.

(** *** One item of a pattern at a time *)

Lemma m_seqs_cons r rs st k :
  m (seqs (r :: rs)) st k = m r st (fun st1 => m (seqs rs) st1 k).
Proof. reflexivity. Qed.

Lemma m_seqs_nil st k : m (seqs []) st k = k st.
Proof. reflexivity. Qed.

Lemma m_Cls_hit p c i s caps k :
  p c = true → m (Cls p) (MkSt i (c :: s) caps) k = k (MkSt (S i) s caps).
Proof. simpl. by intros ->. Qed.

Lemma m_Cls_miss p c i s caps k :
  p c = false → m (Cls p) (MkSt i (c :: s) caps) k = None.
Proof. simpl. by intros ->. Qed.

Lemma m_Cls_nil p i caps k : m (Cls p) (MkSt i [] caps) k = None.
Proof. reflexivity. Qed.

(** An optional item that cannot match is skipped. *)
Lemma m_Opt_skip r st k :
  (∀ k', m r (MkSt (idx st) (rest st) (reset (groups r) (caps st))) k' = None) →
  m (Opt r) st k = k st.
Proof. intros H. simpl. by rewrite H. Qed.

Lemma m_Rep_greedy_pick p min i s pre post caps k x :
  s = pre ++ post →
  forallb p pre = true → (min <= length pre)%nat →
  k (MkSt (i + length pre) post caps) = Some x →
  (∀ e post', post = e ++ post' → e ≠ [] → forallb p e = true →
              k (MkSt (i + length pre + length e) post' caps) = None) →
  m (Rep true min p) (MkSt i s caps) k = Some x.
Proof.
  intros -> Hall Hmin Hk Hext. simpl. by apply rep_greedy_pick.
Qed.

Lemma m_Rep_lazy_pick p min i s pre post caps k x :
  s = pre ++ post →
  forallb p pre = true → (min <= length pre)%nat →
  k (MkSt (i + length pre) post caps) = Some x →
  (∀ e e', pre = e ++ e' → e' ≠ [] → (min <= length e)%nat →
           k (MkSt (i + length e) (e' ++ post) caps) = None) →
  m (Rep false min p) (MkSt i s caps) k = Some x.
Proof.
  intros -> Hall Hmin Hk Hshort. simpl. by apply rep_lazy_pick.
Qed.

(** A quantifier in a group captures the run it takes. *)
Lemma m_Grp_greedy_pick n p min i s pre post caps k x :
  s = pre ++ post →
  forallb p pre = true → (min <= length pre)%nat →
  k (MkSt (i + length pre) post (<[n := Some pre]> caps)) = Some x →
  (∀ e post' caps', post = e ++ post' → e ≠ [] → forallb p e = true →
                    k (MkSt (i + length pre + length e) post' caps') = None) →
  m (Grp n (Rep true min p)) (MkSt i s caps) k = Some x.
Proof.
  intros -> Hall Hmin Hk Hext. simpl. apply rep_greedy_pick; try done.
  - replace (i + length pre - i)%nat with (length pre) by lia.
    by rewrite take_app_length.
  - intros e post' Hpost Hne He. by apply Hext.
Qed.

Lemma m_Grp_lazy_pick n p min i s pre post caps k x :
  s = pre ++ post →
  forallb p pre = true → (min <= length pre)%nat →
  k (MkSt (i + length pre) post (<[n := Some pre]> caps)) = Some x →
  (∀ e e' caps', pre = e ++ e' → e' ≠ [] → (min <= length e)%nat →
                 k (MkSt (i + length e) (e' ++ post) caps') = None) →
  m (Grp n (Rep false min p)) (MkSt i s caps) k = Some x.
Proof.
  intros -> Hall Hmin Hk Hshort. simpl. apply rep_lazy_pick; try done.
  - replace (i + length pre - i)%nat with (length pre) by lia.
    by rewrite take_app_length.
  - intros e e' Hpre Hne He. by apply Hshort.
Qed.

Lemma m_Grp n r st k :
  m (Grp n r) st k =
  m r st (fun st1 =>
    k (MkSt (idx st1) (rest st1)
         (<[n := Some (take (idx st1 - idx st) (rest st))]> (caps st1)))).
Proof. reflexivity. Qed.

(** An optional item is taken when it matches something and the rest of
    the pattern matches after it. *)
Lemma m_Opt_hit r st k x :
  m r (MkSt (idx st) (rest st) (reset (groups r) (caps st)))
    (fun st1 => if (idx st1 =? idx st)%nat then None else k st1) = Some x →
  m (Opt r) st k = Some x.
Proof. intros H. simpl. by rewrite H. Qed.

Lemma m_lit_hit (p : string) i s cs k :
  starts_with_i (js p) s = true →
  m (lit_i p) (MkSt i s cs) k =
  k (MkSt (i + length (js p)) (drop (length (js p)) s) cs).
Proof. intros H. unfold lit_i. rewrite m_literal. simpl. by rewrite H. Qed.

Lemma m_lit_miss (p : string) i s cs k :
  starts_with_i (js p) s = false → m (lit_i p) (MkSt i s cs) k = None.
Proof. intros H. unfold lit_i. rewrite m_literal. simpl. by rewrite H. Qed.

(** A text that differs from the start of [p] within its own length does
    not start [p], whatever follows it. *)
Lemma starts_with_i_within p : ∀ l s,
  starts_with_i (take (length l) p) l = false →
  starts_with_i p (l ++ s) = false.
Proof.
  induction p as [|a p IH]; intros l s H.
  - by rewrite take_nil in H.
  - destruct l as [|c l]; [done|]. simpl in *.
    destruct (is_char_i a c); [|done]. simpl in *. by apply IH.
Qed.

Lemma includes_i_splits s p e post :
  includes_i s p = false → s = e ++ post → starts_with_i p post = false.
Proof.
  intros H ->. by apply includes_i_suffix, includes_i_starts in H.
Qed.

(** [p] starts no suffix of [l ++ s] that begins in [l], if every non-empty
    suffix of [l] differs from the start of [p], nor one that begins in
    [s], if it starts no suffix of [s]. *)
Lemma starts_with_i_tails p l : ∀ s e post,
  Forall (fun k => starts_with_i (take (length k) p) k = false) (tails l) →
  (∀ e2 post2, s = e2 ++ post2 → starts_with_i p post2 = false) →
  l ++ s = e ++ post → starts_with_i p post = false.
Proof.
  induction l as [|c l IH]; intros s e post Hall Hs Heq.
  - by apply (Hs e).
  - apply Forall_cons in Hall as [Hc Hall].
    destruct e as [|x e]; simpl in Heq.
    + rewrite <- Heq. by apply (starts_with_i_within p (c :: l)).
    + injection Heq as _ Heq. by apply (IH s e post).
Qed.

(** [p] starts no suffix of [A ++ s] that begins in [A] or in [s]. *)
Lemma starts_with_i_middle p (A s e post : jsstring) :
  (∀ e1 u, A = e1 ++ u → u ≠ [] → starts_with_i p (u ++ s) = false) →
  (∀ e2 post2, s = e2 ++ post2 → starts_with_i p post2 = false) →
  A ++ s = e ++ post → starts_with_i p post = false.
Proof.
  intros HA Hs Heq. apply app_eq_inv in Heq as [(k & -> & ->)|(k & -> & ->)].
  - destruct k as [|c k]; [by apply (Hs [])|]. by apply (HA e).
  - by apply (Hs k).
Qed.

(** ** Lines and codes *)

Lemma split_nl_cons_line s : ∃ l ls, split_nl s = l :: ls.
Proof.
  induction s as [|c s (l & ls & IH)]; simpl; [eauto|].
  destruct (c =? 10); [eauto|]. rewrite IH. eauto.
Qed.

Lemma split_nl_line l : 10 ∉ l → split_nl l = [l].
Proof.
  induction l as [|c l IH]; intros H; simpl; [done|].
  apply not_elem_of_cons in H as [Hc Hl].
  destruct (N.eqb_spec c 10) as [->|_]; [done|]. by rewrite IH.
Qed.

Lemma split_nl_app l s : 10 ∉ l → split_nl (l ++ 10 :: s) = l :: split_nl s.
Proof.
  induction l as [|c l IH]; intros H; simpl; [done|].
  apply not_elem_of_cons in H as [Hc Hl].
  destruct (N.eqb_spec c 10) as [->|_]; [done|]. by rewrite IH.
Qed.

Lemma split_nl_join lines :
  lines ≠ [] → Forall (fun l => 10 ∉ l) lines →
  split_nl (join_nl lines) = lines.
Proof.
  induction lines as [|l ls IH]; intros Hne Hall; [done|].
  apply Forall_cons in Hall as [Hl Hls].
  destruct ls as [|l' ls]; [by apply split_nl_line|].
  change (join_nl (l :: l' :: ls)) with (l ++ 10 :: join_nl (l' :: ls)).
  rewrite split_nl_app by done. by rewrite IH.
Qed.

Lemma split_nl_lines s : Forall (fun l => 10 ∉ l) (split_nl s).
Proof.
  induction s as [|c s IH]; simpl.
  - repeat constructor. apply not_elem_of_nil.
  - destruct (N.eqb_spec c 10) as [->|Hc].
    + constructor; [apply not_elem_of_nil | done].
    + destruct (split_nl s) as [|l ls]; [repeat constructor|].
      * intros H. apply elem_of_cons in H as [?|H]; [done|].
        by apply elem_of_nil in H.
      * apply Forall_cons in IH as [Hl Hls]. constructor; [|done].
        intros H. apply elem_of_cons in H as [?|H]; done.
Qed.

Lemma trim_start_split s :
  ∃ ws, s = ws ++ trim_start s ∧ forallb is_space ws = true.
Proof.
  induction s as [|c s (ws & IH & Hws)]; simpl; [by exists []|].
  destruct (is_space c) eqn:Hc; [|by exists []].
  exists (c :: ws). simpl. rewrite Hc, Hws. by rewrite <- IH.
Qed.

Lemma trim_start_head s c t : trim_start s = c :: t → is_space c = false.
Proof.
  induction s as [|x s IH]; simpl; [done|].
  destruct (is_space x) eqn:Hx; [done|]. by intros [= <- _].
Qed.

Lemma trim_start_id c t : is_space c = false → trim_start (c :: t) = c :: t.
Proof. simpl. by intros ->. Qed.

Lemma trim_start_subseteq s c : c ∈ trim_start s → c ∈ s.
Proof.
  destruct (trim_start_split s) as (ws & Hs & _). intros H.
  rewrite Hs. apply elem_of_app. by right.
Qed.

Lemma trim_subseteq s c : c ∈ trim s → c ∈ s.
Proof.
  unfold trim. rewrite elem_of_reverse. intros H.
  apply trim_start_subseteq in H. rewrite elem_of_reverse in H.
  by apply trim_start_subseteq.
Qed.

(** A text that neither starts nor ends with white space is its own
    trimmed form. *)
Lemma trim_id c t d :
  is_space c = false → is_space d = false → last (c :: t) = Some d →
  trim (c :: t) = c :: t.
Proof.
  intros Hc Hd Hlast. unfold trim. rewrite trim_start_id by done.
  destruct (reverse (c :: t)) as [|x r] eqn:Hr.
  - by apply (f_equal length) in Hr; rewrite length_reverse in Hr.
  - assert (x = d) as ->.
    { rewrite <- head_reverse, Hr in Hlast. by injection Hlast. }
    rewrite trim_start_id by done. rewrite <- Hr. apply reverse_involutive.
Qed.

(** The trimmed form is empty, or starts and ends with a character that is
    no white space. *)
Lemma trim_ends s :
  trim s = [] ∨
  ∃ c t d, trim s = c :: t ∧ is_space c = false ∧ is_space d = false ∧
           last (c :: t) = Some d.
Proof.
  unfold trim.
  destruct (trim_start s) as [|c t] eqn:Hs; [by left|].
  pose proof (trim_start_head _ _ _ Hs) as Hc.
  destruct (trim_start (reverse (c :: t))) as [|d r] eqn:Hr.
  - exfalso. rewrite reverse_cons in Hr.
    destruct (trim_start_split (reverse t ++ [c])) as (ws & Hws & Hall).
    rewrite Hr, app_nil_r in Hws. subst ws.
    rewrite forallb_app in Hall. simpl in Hall. rewrite Hc in Hall.
    by rewrite andb_false_r in Hall.
  - right. pose proof (trim_start_head _ _ _ Hr) as Hd.
    destruct (trim_start_split (reverse (c :: t))) as (ws & Hws & Hall).
    rewrite Hr in Hws.
    apply (f_equal reverse) in Hws.
    rewrite reverse_involutive, reverse_app, reverse_cons in Hws.
    destruct (reverse r) as [|c' t'] eqn:Hrr; simpl in Hws.
    + injection Hws as <- Ht.
      exists c, [], c. rewrite reverse_cons, Hrr. simpl. done.
    + injection Hws as <- Ht.
      exists c, (t' ++ [d]), d. rewrite reverse_cons, Hrr. simpl.
      repeat split; try done.
      change (c :: t' ++ [d]) with ((c :: t') ++ [d]). apply last_snoc.
Qed.

Lemma trim_trim s : trim (trim s) = trim s.
Proof.
  destruct (trim_ends s) as [->|(c & t & d & -> & Hc & Hd & Hlast)]; [done|].
  by apply (trim_id c t d).
Qed.

Lemma codes_of_is_code content : Forall is_code (codes_of content).
Proof.
  unfold codes_of. apply Forall_forall. intros code Hin.
  apply list_elem_of_filter in Hin as [Hne Hin].
  apply list_elem_of_fmap in Hin as (l & -> & Hl).
  repeat split; [done| |apply trim_trim].
  intros H. apply trim_subseteq in H.
  pose proof (split_nl_lines content) as Hall.
  rewrite Forall_forall in Hall. by apply (Hall l).
Qed.

(** Every code read from the list is a code: it is not empty, holds
    no line feed and has no white space at either end, whatever the
    content of the list. *)
Theorem codes_of_clean content :
  Forall (fun code =>
            code ≠ [] ∧ (10 ∉ code) ∧ trim code = code ∧
            (∃ c, head code = Some c ∧ is_space c = false) ∧
            (∃ d, last code = Some d ∧ is_space d = false))
    (codes_of content).
Proof.
  eapply Forall_impl; [apply codes_of_is_code|].
  intros code (Hne & Hnl & Htrim). repeat split; try done.
  - destruct (trim_ends code) as [H|(c & t & d & H & Hc & Hd & Hlast)];
      rewrite Htrim in H; [done|].
    subst code. by exists c.
  - destruct (trim_ends code) as [H|(c & t & d & H & Hc & Hd & Hlast)];
      rewrite Htrim in H; [done|].
    subst code. by exists d.
Qed.

(** A list written one code per line is read back as it is: for codes
    that are not empty, hold no line feed and have no white space around
    them, reading the text that lists them gives the same codes in the same
    order. *)
Theorem codes_of_round_trip codes :
  Forall is_code codes → codes_of (join_nl codes) = codes.
Proof.
  intros Hall. destruct codes as [|c cs]; [done|].
  unfold codes_of. rewrite split_nl_join; [|done|].
  - induction Hall as [|x l (Hne & Hnl & Htrim) Hl IH]; [done|].
    rewrite fmap_cons, Htrim, filter_cons_True by done. by f_equal.
  - eapply Forall_impl; [exact Hall|]. by intros x (_ & ? & _).
Qed.

Lemma codes_of_round_trip_witness :
  codes_of (join_nl [js "a/10"; js "s/20"; js "30"]) =
  [js "a/10"; js "s/20"; js "30"].
Proof.
  apply codes_of_round_trip.
  repeat constructor; try discriminate;
    apply (bool_decide_unpack _); vm_compute; reflexivity.
Defined.

(** ** The migration at start-up: a Gist that can be read *)

Lemma set_of_elem l : ∀ seen x,
  x ∈ set_of seen l ↔ x ∈ l ∧ x ∉ seen.
Proof.
  induction l as [|y l IH]; intros seen x; simpl.
  - split; [intros H; by apply elem_of_nil in H | intros [H _]; by apply elem_of_nil in H].
  - destruct (decide (y ∈ seen)) as [Hy|Hy].
    + rewrite IH, elem_of_cons. split; [tauto|].
      intros [[->|H] Hx]; [done|tauto].
    + rewrite !elem_of_cons, IH, not_elem_of_cons.
      destruct (decide (x = y)) as [->|Hne]; tauto.
Qed.

Lemma set_of_NoDup l : ∀ seen, NoDup (set_of seen l).
Proof.
  induction l as [|y l IH]; intros seen; simpl; [constructor|].
  destruct (decide (y ∈ seen)); [apply IH|].
  constructor; [|apply IH].
  rewrite set_of_elem, not_elem_of_cons. tauto.
Qed.

(** An array without duplicates is kept as it is at the front. *)
Lemma set_of_app l l' : ∀ seen,
  NoDup l → (∀ x, x ∈ l → x ∉ seen) →
  set_of seen (l ++ l') = l ++ set_of (reverse l ++ seen) l'.
Proof.
  induction l as [|y l IH]; intros seen Hnd Hseen; simpl; [done|].
  apply NoDup_cons in Hnd as [Hy Hnd].
  rewrite decide_False by (apply Hseen, list_elem_of_here).
  rewrite IH; [|done|].
  - by rewrite reverse_cons, <- app_assoc.
  - intros x Hx. rewrite not_elem_of_cons. split.
    + intros ->. done.
    + apply Hseen. by apply list_elem_of_further.
Qed.

Lemma slice0_take {A} (l : list A) (e : Z) :
  slice0 l e =
  take (Z.to_nat (if (e <? 0)%Z then Z.of_nat (length l) + e else e)) l.
Proof.
  unfold slice0. destruct (Z.ltb_spec e 0) as [Hneg|Hpos].
  - f_equal. lia.
  - destruct (Z.le_ge_cases e (Z.of_nat (length l))) as [Hle|Hge].
    + by rewrite Z.min_l.
    + rewrite Z.min_r, Nat2Z.id by done.
      rewrite firstn_all. symmetry. apply take_ge. lia.
Qed.

(** When the marker holds the integer [n] and the Gist can be read, the
    migration marks the first [n] codes of the list, for a negative [n] all
    but the last [-n], as processed: afterwards [processedLicenses] holds
    the codes it held and these ones and no other, each once; it starts
    with the old array if that had no duplicates; the file holds the same
    array; and none of the codes marked is a new code for [checkGame]. *)
Theorem migration_backfill (st : Storage) (marker text : jsstring) (n : Z) :
  lastlength st = Some marker →
  parseInt (trim marker) = Some n →
  let codes := codes_of text in
  let k := Z.to_nat (if (n <? 0)%Z then Z.of_nat (length codes) + n else n) in
  let st' := migration (GistContent text) st in
  NoDup (licenses st') ∧
  (∀ code, code ∈ licenses st' ↔ code ∈ licenses st ∨ code ∈ take k codes) ∧
  (NoDup (licenses st) → licenses st `prefix_of` licenses st') ∧
  processedLicensesFile st' = licenses st' ∧
  (∀ code, code ∈ newCodes codes (licenses st') →
           code ∈ drop k codes ∧ code ∉ licenses st).
Proof.
  intros Hmarker Hparse codes k st'.
  assert (Hst' : licenses st' = set_of [] (licenses st ++ take k codes) ∧
                 processedLicensesFile st' = licenses st').
  { subst st'. unfold migration. rewrite Hmarker, Hparse.
    cbn [licenses processedLicensesFile]. by rewrite slice0_take. }
  destruct Hst' as [Hlic Hfile]. rewrite Hfile, Hlic.
  assert (Helem : ∀ code, code ∈ set_of [] (licenses st ++ take k codes) ↔
                          code ∈ licenses st ∨ code ∈ take k codes).
  { intros code. rewrite set_of_elem, elem_of_app.
    pose proof (not_elem_of_nil code). tauto. }
  split; [apply set_of_NoDup|]. split; [exact Helem|].
  split; [|split; [done|]].
  - intros Hnd. rewrite set_of_app; [by eexists|done|].
    intros x _. apply not_elem_of_nil.
  - intros code Hcode. unfold newCodes in Hcode.
    apply list_elem_of_filter in Hcode as [Hnot Hin].
    rewrite Helem in Hnot. split; [|tauto].
    rewrite <- (take_drop k codes) in Hin.
    apply elem_of_app in Hin as [Hin|Hin]; [tauto|done].
Qed.

Lemma migration_backfill_witness :
  let st := MkStorage (Some (js "2")) [js "a/1"] [js "a/1"] 0 in
  let text := js "a/1" ++ [10] ++ js "s/2" ++ [10] ++ js "3" in
  let st' := migration (GistContent text) st in
  NoDup (licenses st') ∧
  (∀ code, code ∈ licenses st' ↔
           code ∈ licenses st ∨ code ∈ take 2 (codes_of text)) ∧
  (NoDup (licenses st) → licenses st `prefix_of` licenses st') ∧
  processedLicensesFile st' = licenses st' ∧
  (∀ code, code ∈ newCodes (codes_of text) (licenses st') →
           code ∈ drop 2 (codes_of text) ∧ code ∉ licenses st).
Proof.
  exact (migration_backfill
           (MkStorage (Some (js "2")) [js "a/1"] [js "a/1"] 0)
           (js "2") (js "a/1" ++ [10] ++ js "s/2" ++ [10] ++ js "3") 2
           eq_refl eq_refl).
Defined.

(** ** The webhook queue: nothing is lost or sent twice *)

Lemma enqueued_app {Job} (acts1 acts2 : list (Action Job)) :
  enqueued (acts1 ++ acts2) = enqueued acts1 ++ enqueued acts2.
Proof. apply omap_app. Qed.

(** After any sequence of calls of [sendWebhook], settled fetches, timers
    and passing time, every entry enqueued is, in the order of the calls,
    either settled, in flight or still waiting, and each only once; the
    flag [isProcessingWebhook] is set exactly while a delivery or the sleep
    after it is pending, so a call of [sendWebhook] in that time starts no
    second delivery; and when the loop is not running, nothing waits: every
    entry enqueued was delivered and settled, once, in order. *)
Theorem webhook_queue_exactly_once {Job} (acts : list (Action Job))
  (st : QueueState Job) :
  qrun queue_init acts = Some st →
  enqueued acts =
    (settled (qlog st)).*1 ++ in_flight (phase st) ++ webhookQueue st ∧
  (isProcessingWebhook st = true ↔ phase st ≠ Idle) ∧
  (∀ job,
     phase st ≠ Idle →
     phase (sendWebhook job st) = phase st ∧
     qlog (sendWebhook job st) = qlog st ∧
     webhookQueue (sendWebhook job st) = webhookQueue st ++ [job]) ∧
  (phase st = Idle →
   webhookQueue st = [] ∧ (settled (qlog st)).*1 = enqueued acts ∧
   length (started (qlog st)) = length (enqueued acts)).
Proof.
  intros Hrun.
  pose proof (queue_inv_run acts [] _ _ queue_inv_init Hrun) as Hinv.
  rewrite app_nil_l in Hinv.
  destruct Hinv as [Hfifo Hone Hflag Hidle _ _ _ _].
  assert (Hall : enqueued acts =
            (settled (qlog st)).*1 ++ in_flight (phase st) ++ webhookQueue st).
  { by rewrite <- Hfifo, Hone, <- app_assoc. }
  assert (Hbusy : isProcessingWebhook st = true ↔ phase st ≠ Idle).
  { rewrite Hflag. destruct (phase st); split; done. }
  split; [exact Hall|]. split; [exact Hbusy|]. split.
  - intros job Hphase. apply Hbusy in Hphase.
    unfold sendWebhook, processWebhookQueue. cbn [isProcessingWebhook].
    rewrite Hphase. done.
  - intros Hphase. specialize (Hidle Hphase).
    rewrite Hall, Hphase, Hidle. simpl. rewrite app_nil_r.
    split; [done|]. split; [done|].
    rewrite <- (length_fmap snd (started (qlog st))), Hone, Hphase.
    simpl. by rewrite app_nil_r.
Qed.

Lemma webhook_queue_exactly_once_witness :
  let acts : list (Action nat) :=
    [Enqueue 1%nat; Enqueue 2%nat] ++ settle_round false ++ settle_round true in
  ∃ st, qrun queue_init acts = Some st ∧ phase st = Idle ∧
        (settled (qlog st)).*1 = enqueued acts.
Proof.
  eexists. split; [vm_compute; reflexivity|]. split; [reflexivity|].
  refine (proj1 (proj2 (proj2 (proj2 (proj2
    (webhook_queue_exactly_once
       ([Enqueue 1%nat; Enqueue 2%nat] ++ settle_round false ++ settle_round true)
       _ _))) _))).
  - vm_compute. reflexivity.
  - reflexivity.
Defined.

(** ** A cycle: what is submitted, what is marked as processed, what is
    saved *)

Section CycleTrace.

Variable config : Config.
Variable hookOk : nat -> bool.

Lemma saves_app evs1 evs2 : saves (evs1 ++ evs2) = saves evs1 ++ saves evs2.
Proof. apply omap_app. Qed.

Lemma extends_refl st : extends st st [] [].
Proof. exists []. by rewrite !app_nil_r. Qed.

Lemma extends_trans st1 st2 st3 added1 added2 cmds1 cmds2 :
  extends st1 st2 added1 cmds1 → extends st2 st3 added2 cmds2 →
  extends st1 st3 (added1 ++ added2) (cmds1 ++ cmds2).
Proof.
  intros (new1 & He1 & Hp1 & Hs1 & Hf1) (new2 & He2 & Hp2 & Hs2 & Hf2).
  exists (new1 ++ new2).
  rewrite He2, He1, Hp2, Hp1, saves_app, Hs1, Hs2, <- !app_assoc.
  unfold fetches in *. rewrite omap_app, Hf1, Hf2.
  repeat split; try done.
  rewrite length_app, seq_app, map_app. f_equal.
  - apply map_ext_in. intros i Hi. apply in_seq in Hi.
    by rewrite take_app_le by lia.
  - replace (0 + length added1)%nat with (length added1 + 0)%nat by lia.
    rewrite <- (fmap_add_seq (length added1) 0), <- list_fmap_compose.
    apply map_ext. intros i. simpl. rewrite Hp1, <- app_assoc. f_equal.
    replace (S (length added1 + i)) with (length added1 + S i)%nat by lia.
    by rewrite take_app_add.
Qed.

Lemma extends_quiet st new :
  saves new = [] → fetches new = [] →
  extends st (MkCycle (processedLicenses st) (events st ++ new)) [] [].
Proof. intros Hs Hf. exists new. simpl. by rewrite app_nil_r. Qed.

Lemma extends_hook st type msg licenseId asfResult :
  extends st (hook hookOk st type msg licenseId asfResult).1 [] [].
Proof. unfold hook, sendHookAsync. simpl. by apply extends_quiet. Qed.

Lemma extends_emit st new :
  saves new = [] → fetches new = [] → extends st (emit st new) [] [].
Proof. apply extends_quiet. Qed.

Lemma saves_replicate_log n level : saves (replicate n (Log level)) = [].
Proof. induction n as [|n IH]; [done|exact IH]. Qed.

Lemma fetches_replicate n level : fetches (replicate n (Log level)) = [].
Proof. induction n as [|n IH]; [done|exact IH]. Qed.

Lemma extends_gist_catch status st :
  extends st (gist_catch hookOk status st).1 [] [].
Proof.
  unfold gist_catch.
  pose proof (extends_hook
    (emit st (replicate match status with
                        | Some 401 => 4%nat | Some 403 => 2%nat | _ => 3%nat
                        end (Log Error))) Error
    "Failed to fetch Steam codes from GitHub Gist. Check the logs for details."
    None None) as H.
  destruct (hook hookOk _ _ _ _ _) as [st1 ok]. cbn [fst] in H.
  apply (extends_trans st _ _ [] [] [] []) in H;
    [|apply extends_emit; [apply saves_replicate_log|apply fetches_replicate]].
  destruct ok; [|exact H]. cbn [fst].
  apply (extends_trans st st1 _ [] [] [] []); [exact H|].
  by apply extends_emit.
Qed.

Lemma extends_submit_catch st :
  extends st (submit_catch hookOk st).1 [] [].
Proof.
  unfold submit_catch.
  pose proof (extends_hook (emit st [Log Error]) Error
    "An error occurred while connecting to ASF, check the logs for more information."
    None None) as H.
  destruct (hook hookOk _ _ _ _ _) as [st1 ok]. cbn [fst] in H.
  apply (extends_trans st _ _ [] [] [] []) in H; [|by apply extends_emit].
  destruct ok; cbn [fst].
  - apply (extends_trans st st1 _ [] [] [] []); [exact H|].
    by apply extends_emit.
  - apply (extends_trans st st1 _ [] [] [] []); [exact H|].
    apply extends_gist_catch.
Qed.

(** One submission sends the command for its code, adds the code or
    nothing, and goes on only after a reply that is a success. *)
Lemma extends_claim_one currentLicense r st :
  ∃ added,
    extends st (claim_one config hookOk currentLicense r st).1 added
      [addlicense_command config currentLicense] ∧
    (added = [] ∨ added = [currentLicense]).
Proof.
  assert (Hsent : extends st
            (emit st [Sleep 2; Fetch (addlicense_command config currentLicense)])
            [] [addlicense_command config currentLicense]).
  { exists [Sleep 2; Fetch (addlicense_command config currentLicense)].
    unfold emit. simpl. by rewrite app_nil_r. }
  set (st0 := emit st [Sleep 2; Fetch (addlicense_command config currentLicense)])
    in *.
  assert (Hfailed : ∀ st1 added,
            extends st st1 added [addlicense_command config currentLicense] →
            extends st (submit_catch hookOk st1).1 added
              [addlicense_command config currentLicense]).
  { intros st1 added H1.
    pose proof (extends_trans _ _ _ _ _ _ _ H1 (extends_submit_catch st1)) as H.
    by rewrite !app_nil_r in H. }
  assert (Hhook : ∀ st1 added type msg licenseId asfResult,
            extends st st1 added [addlicense_command config currentLicense] →
            extends st (hook hookOk st1 type msg licenseId asfResult).1 added
              [addlicense_command config currentLicense]).
  { intros st1 added type msg licenseId asfResult H1.
    pose proof (extends_trans _ _ _ _ _ _ _ H1
                  (extends_hook st1 type msg licenseId asfResult)) as H.
    by rewrite !app_nil_r in H. }
  assert (Hemit : ∀ st1 added new,
            saves new = [] → fetches new = [] →
            extends st st1 added [addlicense_command config currentLicense] →
            extends st (emit st1 new) added
              [addlicense_command config currentLicense]).
  { intros st1 added new Hs Hf H1.
    pose proof (extends_trans _ _ _ _ _ _ _ H1 (extends_emit st1 new Hs Hf)) as H.
    by rewrite !app_nil_r in H. }
  unfold claim_one. fold st0.
  destruct r as [[] Result|].
  - destruct (hasRateLimit (parseASFResult Result)) as [[]|].
    + exists []. split; [|by left].
      match goal with
      | |- context [hook hookOk (emit st0 ?new) ?t ?m ?l ?a] =>
          pose proof (Hhook _ _ t m l a (Hemit st0 [] new eq_refl eq_refl Hsent)) as H;
          destruct (hook hookOk (emit st0 new) t m l a) as [st1 ok]
      end.
      cbn [fst] in H. destruct ok; [exact H|].
      specialize (Hfailed _ _ H). by destruct (submit_catch hookOk st1).
    + exists [currentLicense]. split; [|by right].
      assert (Hadd : extends st
                (MkCycle (processedLicenses st0 ++ [currentLicense])
                   (events st0 ++
                    [Log Info; Log Info; Log Info; Log Info; Log Info; Log Info;
                     Save (processedLicenses st0 ++ [currentLicense])]))
                [currentLicense] [addlicense_command config currentLicense]).
      { exists ([Sleep 2; Fetch (addlicense_command config currentLicense)] ++
                [Log Info; Log Info; Log Info; Log Info; Log Info; Log Info;
                 Save (processedLicenses st ++ [currentLicense])]).
        unfold st0, emit. cbn [events processedLicenses].
        rewrite <- app_assoc. repeat split; done. }
      match goal with
      | |- context [hook hookOk ?s ?t ?m ?l ?a] =>
          pose proof (Hhook _ _ t m l a Hadd) as H;
          destruct (hook hookOk s t m l a) as [st1 ok]
      end.
      cbn [fst] in H. destruct ok; [exact H|].
      specialize (Hfailed _ _ H). by destruct (submit_catch hookOk st1).
    + exists []. split; [|by left].
      specialize (Hfailed _ _ Hsent). by destruct (submit_catch hookOk st0).
  - exists []. split; [|by left].
    match goal with
    | |- context [hook hookOk (emit st0 ?new) ?t ?m ?l ?a] =>
        pose proof (Hhook _ _ t m l a (Hemit st0 [] new eq_refl eq_refl Hsent)) as H;
        destruct (hook hookOk (emit st0 new) t m l a) as [st1 ok]
    end.
    cbn [fst] in H. destruct ok.
    + by apply Hemit.
    + specialize (Hfailed _ _ H). by destruct (submit_catch hookOk st1).
  - exists []. split; [|by left].
    specialize (Hfailed _ _ Hsent). by destruct (submit_catch hookOk st0).
Qed.

Lemma extends_claim_batch batch : ∀ replies st,
  ∃ added n,
    extends st (claim_batch config hookOk batch replies st).1 added
      (map (addlicense_command config) (take n batch)) ∧
    added `sublist_of` take n batch.
Proof.
  induction batch as [|code batch IH]; intros replies st; simpl.
  - exists [], 0%nat. split; [apply extends_refl|done].
  - destruct replies as [|r replies].
    + exists [], 1%nat. split; [|apply sublist_nil_l].
      exists [Sleep 2; Fetch (addlicense_command config code)].
      unfold emit. simpl. by rewrite app_nil_r.
    + destruct (extends_claim_one code r st) as (added1 & H1 & Hadded1).
      destruct (claim_one config hookOk code r st) as [st' [out|]];
        cbn [fst] in *.
      * exists added1, 1%nat. split; [exact H1|].
        destruct Hadded1 as [->| ->]; [apply sublist_nil_l|done].
      * destruct (IH replies st') as (added2 & n & H2 & Hsub).
        exists (added1 ++ added2), (S n). split.
        -- exact (extends_trans _ _ _ _ _ _ _ H1 H2).
        -- simpl. destruct Hadded1 as [->| ->]; simpl.
           ++ by apply sublist_cons.
           ++ by apply sublist_skip.
Qed.

Lemma extends_checkGame_end st r added cmds :
  extends st r.1 added cmds →
  extends st (checkGame_end hookOk r).1 added cmds.
Proof.
  intros H. unfold checkGame_end. destruct r as [st1 []]; try done.
  cbn [fst snd] in *.
  pose proof (extends_hook (emit st1 [Log Info]) Info
                "Next run scheduled for: " None None) as H2.
  destruct (hook hookOk _ _ _ _ _) as [st2 ok]. cbn [fst] in *.
  pose proof (extends_trans _ _ _ _ _ _ _ H
    (extends_trans _ _ _ _ _ _ _ (extends_emit st1 [Log Info] eq_refl eq_refl) H2))
    as H3.
  by rewrite !app_nil_r in H3.
Qed.

Lemma extends_checkGame gist replies st :
  ∃ added n,
    extends st (checkGame config hookOk gist replies st).1 added
      (map (addlicense_command config) (take n
         match gist with
         | GistContent content =>
             batch_of (newCodes (codes_of content) (processedLicenses st))
         | GistError _ => []
         end)) ∧
    added `sublist_of` take n
      match gist with
      | GistContent content =>
          batch_of (newCodes (codes_of content) (processedLicenses st))
      | GistError _ => []
      end.
Proof.
  unfold checkGame.
  pose proof (extends_hook (emit st [Log Info]) Info
                "Checking for new packages..." None None) as H0.
  assert (Hp : processedLicenses
                 (hook hookOk (emit st [Log Info]) Info
                    "Checking for new packages..." None None).1
               = processedLicenses st) by reflexivity.
  destruct (hook hookOk _ _ _ _ _) as [st0 ok]. cbn [fst] in *.
  pose proof (extends_trans _ _ _ _ _ _ _
                (extends_emit st [Log Info] eq_refl eq_refl) H0) as H1.
  simpl in H1.
  destruct ok; [|exists [], 0%nat; by split].
  assert (Htry : ∃ added n,
    extends st0 (checkGame_try config hookOk gist replies st0).1 added
      (map (addlicense_command config) (take n
         match gist with
         | GistContent content =>
             batch_of (newCodes (codes_of content) (processedLicenses st))
         | GistError _ => []
         end)) ∧
    added `sublist_of` take n
      match gist with
      | GistContent content =>
          batch_of (newCodes (codes_of content) (processedLicenses st))
      | GistError _ => []
      end).
  { unfold checkGame_try. destruct gist as [content|status].
    - rewrite Hp.
      destruct (newCodes (codes_of content) (processedLicenses st))
        as [|c new] eqn:Hnew.
      + exists [], 0%nat. split; [|done].
        pose proof (extends_hook (emit st0 [Log Info]) Info
                      "No new packages found." None None) as H2.
        destruct (hook hookOk _ _ _ _ _) as [st' ok']. cbn [fst] in *.
        pose proof (extends_trans _ _ _ _ _ _ _
                      (extends_emit st0 [Log Info] eq_refl eq_refl) H2) as H3.
        simpl in H3. destruct ok'; [exact H3|].
        exact (extends_trans _ _ _ _ _ _ _ H3 (extends_gist_catch None st')).
      + apply extends_claim_batch.
    - exists [], 0%nat. split; [|done]. apply extends_gist_catch. }
  destruct Htry as (added & n & Htry & Hsub).
  exists added, n. split; [|exact Hsub].
  apply extends_checkGame_end.
  exact (extends_trans _ _ _ _ _ _ _ H1 Htry).
Qed.

End CycleTrace.

(** The trace of a cycle. *)
Lemma checkGame_trace (config : Config) (hookOk : nat -> bool)
  (gist : Gist) (replies : list Reply) (st : CycleState) :
  let st' := (checkGame config hookOk gist replies st).1 in
  ∃ new added submitted,
    events st' = events st ++ new ∧
    fetches new = map (addlicense_command config) submitted ∧
    (length submitted <= 40)%nat ∧
    (∀ code, code ∈ submitted →
       (code ∉ processedLicenses st) ∧
       ∃ content, gist = GistContent content ∧ code ∈ codes_of content) ∧
    processedLicenses st' = processedLicenses st ++ added ∧
    added `sublist_of` submitted ∧
    (∀ content, gist = GistContent content → NoDup (codes_of content) →
                NoDup submitted).
Proof.
  intros st'. subst st'.
  destruct (extends_checkGame config hookOk gist replies st)
    as (added & n & (new & Hev & Hp & _ & Hf) & Hsub).
  exists new, added. eexists. split; [exact Hev|]. split; [exact Hf|].
  split; [|split; [|split; [exact Hp|split; [exact Hsub|]]]].
  - destruct gist; [|by rewrite take_nil; simpl; lia].
    unfold batch_of. rewrite !length_take. lia.
  - intros code Hin. destruct gist as [content|status];
      [|by rewrite take_nil in Hin; apply elem_of_nil in Hin].
    apply subseteq_take in Hin.
    unfold batch_of in Hin.
    apply subseteq_take in Hin.
    rewrite elem_of_reverse in Hin.
    unfold newCodes in Hin. apply list_elem_of_filter in Hin as [Hnot Hin].
    split; [done|]. by exists content.
  - intros content -> Hnd. unfold batch_of, newCodes.
    eapply sublist_NoDup; [|apply sublist_take].
    eapply sublist_NoDup; [|apply sublist_take].
    rewrite reverse_Permutation. by apply NoDup_filter.
Qed.

(** Whatever the Gist and the agent answer and whether or not the
    notifications get through, a cycle sends at most 40 [addlicense]
    commands, each for a code of the list that was not in
    [processedLicenses] when the cycle began, and none when the Gist cannot
    be read; [processedLicenses] is only extended at its end, by codes
    submitted in this cycle, in the order of their submission; and when
    neither the list nor [processedLicenses] holds a code twice, no code is
    submitted twice and [processedLicenses] still holds no code twice after
    the cycle. *)
Theorem checkGame_submits_new (config : Config) (hookOk : nat -> bool)
  (gist : Gist) (replies : list Reply) (st : CycleState) :
  let st' := (checkGame config hookOk gist replies st).1 in
  ∃ new added submitted,
    events st' = events st ++ new ∧
    fetches new = map (addlicense_command config) submitted ∧
    (length submitted <= 40)%nat ∧
    (∀ code, code ∈ submitted →
       (code ∉ processedLicenses st) ∧
       ∃ content, gist = GistContent content ∧ code ∈ codes_of content) ∧
    processedLicenses st' = processedLicenses st ++ added ∧
    added `sublist_of` submitted ∧
    (∀ content, gist = GistContent content → NoDup (codes_of content) →
                NoDup (processedLicenses st) →
                NoDup submitted ∧ NoDup (processedLicenses st')).
Proof.
  intros st'. subst st'.
  destruct (checkGame_trace config hookOk gist replies st)
    as (new & added & submitted & Hev & Hf & Hlen & Hnew & Hp & Hsub & Hnd).
  exists new, added, submitted.
  split; [exact Hev|]. split; [exact Hf|]. split; [exact Hlen|].
  split; [exact Hnew|]. split; [exact Hp|]. split; [exact Hsub|].
  intros content Hgist Hcodes Hproc.
  specialize (Hnd content Hgist Hcodes). split; [exact Hnd|].
  rewrite Hp. apply NoDup_app. split; [exact Hproc|]. split.
  - intros code Hin Hadd.
    by destruct (Hnew code (elem_of_sublist _ _ _ Hadd Hsub)).
  - by apply (sublist_NoDup _ submitted).
Qed.

(** The file of processed licenses follows the array: during a cycle the
    array is saved each time a code is added to it, with that code as the
    last one, and at no other time; so after the cycle, however it ends,
    the last content saved, or the content before the cycle when nothing
    was saved, is the array. *)
Theorem checkGame_saves_each_code (config : Config) (hookOk : nat -> bool)
  (gist : Gist) (replies : list Reply) (st : CycleState) :
  let st' := (checkGame config hookOk gist replies st).1 in
  ∃ new added,
    events st' = events st ++ new ∧
    processedLicenses st' = processedLicenses st ++ added ∧
    saves new =
      map (fun i => processedLicenses st ++ take (S i) added)
        (seq 0 (length added)) ∧
    default (processedLicenses st) (last (saves new)) = processedLicenses st'.
Proof.
  intros st'. subst st'.
  destruct (extends_checkGame config hookOk gist replies st)
    as (added & n & (new & Hev & Hp & Hs & _) & _).
  exists new, added. split; [exact Hev|]. split; [exact Hp|].
  split; [exact Hs|]. rewrite Hs, Hp.
  destruct added as [|c added _] using rev_ind; [by rewrite app_nil_r|].
  rewrite length_app, Nat.add_comm. cbn [length Nat.add].
  rewrite seq_S, map_app. cbn [map Nat.add]. rewrite last_snoc. cbn [default].
  unfold id. f_equal. apply take_ge. rewrite length_app. simpl. lia.
Qed.

(** ** From a line to its entry *)

Lemma exec_from_hit r ng i s x :
  match_at r ng i s = Some x → exec_from r ng i s = Some x.
Proof. intros H. destruct s; simpl; by rewrite H. Qed.

Lemma is_phrase_char_spec c :
  is_phrase_char c = true →
  is_dot c = true ∧ (c =? 60) = false ∧ (c =? 62) = false ∧
  (c =? 46) = false ∧ (c =? 33) = false ∧ (c =? 63) = false ∧
  (c =? 58) = false ∧ (c =? 92) = false.
Proof.
  unfold is_phrase_char. simpl. intros H.
  apply andb_prop in H as [Hdot H]. apply negb_true_iff in H.
  repeat (apply orb_false_elim in H as [? H]). tauto.
Qed.

(** The end of the pattern of [parseASFStatus], from the marks on, takes
    the marks at the end of the line, and a colon with a detail after
    them. *)
Lemma status_tail_hit i punct tail cs k x :
  forallb is_end_mark punct = true →
  (tail = [] ∨
   ∃ detail, tail = 58 :: detail ∧ detail ≠ [] ∧ forallb is_dot detail = true) →
  k (MkSt (i + length punct + length tail) [] cs) = Some x →
  m (seqs [Rep true 0 (fun c => is_char 46 c || is_char 33 c || is_char 63 c);
           Opt (Seq (Cls (is_char 58)) (Rep true 1 is_dot));
           Opt (seqs [Cls (is_char 92); Cls (is_char_i 110); Cls is_dot;
                      Rep true 1 is_space; Cls (is_char 43)]);
           Eol]) (MkSt i (punct ++ tail) cs) k = Some x.
Proof.
  intros Hp Htail Hk. rewrite m_seqs_cons.
  eapply (m_Rep_greedy_pick _ _ _ _ punct tail);
    [reflexivity | exact Hp | lia | |].
  - destruct Htail as [->|(detail & -> & Hne & Hdetail)].
    + simpl in Hk. rewrite Nat.add_0_r in Hk. exact Hk.
    + rewrite m_seqs_cons. apply m_Opt_hit.
      cbn [idx rest caps groups reset foldr app m].
      change (is_char 58 58) with true. cbv iota.
      rewrite <- (app_nil_r detail) at 1.
      apply rep_greedy_pick;
        [exact Hdetail|destruct detail; [done|simpl; lia]| |].
      * cbn [idx]. rewrite (proj2 (Nat.eqb_neq _ _)) by lia.
        simpl in Hk.
        replace (S (i + length punct) + length detail)%nat
          with (i + length punct + S (length detail))%nat by lia.
        exact Hk.
      * intros e post' Heq Hne'. destruct e; [done|discriminate].
  - intros e post' Heq Hne He.
    destruct Htail as [->|(detail & -> & _)].
    + destruct e; [done|discriminate].
    + destruct e as [|c e]; [done|]. injection Heq as <- _. done.
Qed.

(** It does not match before a character of the phrase. *)
Lemma status_tail_miss i c s cs k :
  is_phrase_char c = true →
  m (seqs [Rep true 0 (fun c => is_char 46 c || is_char 33 c || is_char 63 c);
           Opt (Seq (Cls (is_char 58)) (Rep true 1 is_dot));
           Opt (seqs [Cls (is_char 92); Cls (is_char_i 110); Cls is_dot;
                      Rep true 1 is_space; Cls (is_char 43)]);
           Eol]) (MkSt i (c :: s) cs) k = None.
Proof.
  intros H. apply is_phrase_char_spec in H as (_ & _ & _ & H1 & H2 & H3 & H4 & H5).
  unfold seqs. cbn [foldr m idx rest caps rep_greedy groups reset app].
  unfold is_char. rewrite H1, H2, H3, H4, H5. reflexivity.
Qed.

Lemma forallb_phrase_dot body :
  forallb is_phrase_char body = true → forallb is_dot body = true.
Proof.
  rewrite !forallb_forall. intros H c Hc.
  by apply H, is_phrase_char_spec in Hc as [? _].
Qed.

Lemma forallb_not_elem_of (p : N → bool) l a :
  forallb p l = true → p a = false → a ∉ l.
Proof.
  rewrite forallb_forall. intros H Ha Hin. apply list_elem_of_In, H in Hin.
  congruence.
Qed.

(** The character after a proper prefix is one of the text. *)
Lemma after_prefix (l e post : jsstring) x :
  l = e ++ x :: post → x ∈ l.
Proof. intros ->. apply elem_of_app. right. apply list_elem_of_here. Qed.

Lemma after_nonempty_prefix (l e post : jsstring) a x :
  a :: l = e ++ x :: post → e ≠ [] → x ∈ l.
Proof.
  intros H Hne. destruct e as [|y e]; [done|]. injection H as _ H.
  by apply after_prefix in H.
Qed.

(** A line [<name> phrase] with marks and a detail at its end matches the
    pattern of [parseASFStatus], with the name and the phrase as the two
    groups. *)
Lemma status_match name body punct tail :
  forallb is_dot name = true → 60 ∉ name →
  forallb is_phrase_char body = true →
  (∃ c body', body = c :: body' ∧ is_space c = false) →
  forallb is_end_mark punct = true →
  (tail = [] ∨
   ∃ detail, tail = 58 :: detail ∧ detail ≠ [] ∧ forallb is_dot detail = true ∧
             (60 ∉ detail) ∧ (62 ∉ detail)) →
  ∃ matchRes,
    exec status_re 2 (60 :: name ++ 62 :: 32 :: body ++ punct ++ tail)
      = Some matchRes ∧
    group matchRes 1 = Some name ∧ group matchRes 2 = Some body.
Proof.
  intros Hname Hlt Hbody (c & body' & Hc & Hsp) Hpunct Htail.
  assert (Htail62 : (62 ∉ tail) ∧ (60 ∉ tail)).
  { destruct Htail as [->|(detail & -> & _ & _ & H60 & H62)].
    - split; apply not_elem_of_nil.
    - rewrite !not_elem_of_cons. done. }
  assert (Htail' : tail = [] ∨
            ∃ detail, tail = 58 :: detail ∧ detail ≠ [] ∧
                      forallb is_dot detail = true).
  { destruct Htail as [->|(detail & -> & ? & ? & _)]; [by left|].
    right. by exists detail. }
  assert (H62 : 62 ∉ 32 :: body ++ punct ++ tail).
  { rewrite not_elem_of_cons, !not_elem_of_app. split; [done|]. split.
    - apply (forallb_not_elem_of is_phrase_char); done.
    - split; [|tauto]. apply (forallb_not_elem_of is_end_mark); done. }
  assert (H60 : 60 ∉ name ++ 62 :: 32 :: body ++ punct ++ tail).
  { rewrite not_elem_of_app, !not_elem_of_cons, !not_elem_of_app.
    split; [done|]. split; [done|]. split; [done|]. split.
    - apply (forallb_not_elem_of is_phrase_char); done.
    - split; [|tauto]. apply (forallb_not_elem_of is_end_mark); done. }
  eexists. split; [|split].
  - apply exec_from_hit. unfold match_at, status_re.
    rewrite m_Grp.
    rewrite m_seqs_cons. cbn [m idx Nat.eqb].
    rewrite m_seqs_cons.
    eapply (m_Rep_greedy_pick _ _ _ _ []); [reflexivity|done|lia| |].
    + rewrite m_seqs_cons, m_Cls_hit by done. rewrite m_seqs_cons.
      eapply (m_Grp_greedy_pick _ _ _ _ _ name); [reflexivity|done|lia| |].
      * rewrite m_seqs_cons, m_Cls_hit by done. rewrite m_seqs_cons.
        eapply (m_Rep_greedy_pick _ _ _ _ [32]); [reflexivity|done|lia| |].
        -- rewrite m_seqs_cons.
           eapply (m_Grp_lazy_pick _ _ _ _ _ body); [reflexivity| | | |].
           ++ by apply forallb_phrase_dot.
           ++ rewrite Hc. simpl. lia.
           ++ apply status_tail_hit; [done|done|].
              cbn [idx rest caps]. reflexivity.
           ++ intros e e' caps' -> Hne _. destruct e' as [|c' e']; [done|].
              apply status_tail_miss.
              rewrite forallb_app in Hbody. apply andb_prop in Hbody as [_ Hb].
              simpl in Hb. by apply andb_prop in Hb as [? _].
        -- intros e post' Hpost Hne He.
           destruct e as [|x e]; [done|]. rewrite Hc in Hpost.
           injection Hpost as <- _. simpl in He. by rewrite Hsp in He.
      * intros e post' caps' Hpost Hne He.
        rewrite m_seqs_cons. destruct post' as [|x post']; [done|].
        apply m_Cls_miss. unfold is_char. apply N.eqb_neq. intros ->.
        by apply after_nonempty_prefix in Hpost.
    + intros e post' Hpost Hne He.
      rewrite m_seqs_cons. destruct post' as [|x post']; [done|].
      apply m_Cls_miss. unfold is_char. apply N.eqb_neq. intros ->.
      by apply after_nonempty_prefix in Hpost.
  - reflexivity.
  - reflexivity.
Qed.

Lemma is_text_char_spec c :
  is_text_char c = true →
  is_dot c = true ∧ (c =? 62) = false ∧ (c =? 39) = false ∧
  (c =? 92) = false ∧ (c =? 10) = false.
Proof.
  unfold is_text_char. simpl. intros H.
  apply andb_prop in H as [Hdot H]. apply negb_true_iff in H.
  repeat (apply orb_false_elim in H as [? H]).
  repeat split; try done.
  unfold is_dot, is_line_terminator in Hdot. apply negb_true_iff in Hdot.
  by repeat (apply orb_false_elim in Hdot as [Hdot ?]).
Qed.

Lemma forallb_text_dot s :
  forallb is_text_char s = true → forallb is_dot s = true.
Proof.
  rewrite !forallb_forall. intros H c Hc.
  by apply H, is_text_char_spec in Hc as [? _].
Qed.

(** The end of the pattern of [parseASFResult], after the status group,
    does not match before a character of the status. *)
Lemma result_tail_miss i c s cs k :
  is_text_char c = true →
  m (seqs [Opt (Alt (Seq (Cls (is_char 92)) (Cls (is_char_i 110)))
                    (Cls (is_char 10)));
           Opt (Seq (Cls (is_char 39)) (Rep true 0 is_dot));
           Eol]) (MkSt i (c :: s) cs) k = None.
Proof.
  intros H. apply is_text_char_spec in H as (_ & _ & H1 & H2 & H3).
  unfold seqs. cbn [foldr m idx rest caps groups reset app].
  unfold is_char. rewrite H1, H2, H3. reflexivity.
Qed.

Lemma matches_seqs_app rs1 : ∀ rs2 st st',
  matches (seqs (rs1 ++ rs2)) st st' →
  ∃ st1, matches (seqs rs1) st st1 ∧ matches (seqs rs2) st1 st'.
Proof.
  induction rs1 as [|r rs1 IH]; intros rs2 st st' H.
  - exists st. by split.
  - destruct H as (st0 & H0 & H). apply IH in H as (st1 & H1 & H2).
    exists st1. split; [|done]. by exists st0.
Qed.

(** The optional part of the pattern of [parseASFResult] needs the text
    [Status:]. *)
Lemma result_opt_miss i s cs k :
  includes_i s (js "Status:") = false →
  m (seqs [Rep true 0 is_dot; lit_i "ID:"; Rep true 1 is_space;
           Grp 2 (seqs [Rep true 1 is_word; Cls (is_char 47);
                        Rep true 1 is_digit]);
           Cls is_space; Rep true 1 is_dot; lit_i "Status:";
           Rep true 1 is_space]) (MkSt i s cs) k = None.
Proof.
  intros Hno. apply m_none. intros st' H. exfalso.
  apply (matches_seqs_app
           [Rep true 0 is_dot; lit_i "ID:"; Rep true 1 is_space;
            Grp 2 (seqs [Rep true 1 is_word; Cls (is_char 47);
                         Rep true 1 is_digit]);
            Cls is_space; Rep true 1 is_dot]
           [lit_i "Status:"; Rep true 1 is_space]) in H
    as (st1 & H1 & st2 & H2 & _).
  apply matches_consumes in H1 as (w & Hw & _). cbn [rest] in Hw.
  apply matches_literal in H2.
  rewrite Hw in Hno. by rewrite (includes_i_app _ _ _ H2) in Hno.
Qed.

(** The end of the pattern of [parseASFResult] matches what follows the
    status, up to the end of the line. *)
Lemma result_end_hit esc more i cs k x :
  match more with Some t => forallb is_dot t = true | None => True end →
  k (MkSt (i + length (result_end esc more)) [] cs) = Some x →
  m (seqs [Opt (Alt (Seq (Cls (is_char 92)) (Cls (is_char_i 110)))
                    (Cls (is_char 10)));
           Opt (Seq (Cls (is_char 39)) (Rep true 0 is_dot));
           Eol]) (MkSt i (result_end esc more) cs) k = Some x.
Proof.
  intros Hmore Hk.
  assert (H2 : ∀ j,
    k (MkSt (j + length match more with Some t => 39 :: t | None => [] end)
         [] cs) = Some x →
    m (seqs [Opt (Seq (Cls (is_char 39)) (Rep true 0 is_dot)); Eol])
      (MkSt j match more with Some t => 39 :: t | None => [] end cs) k
    = Some x).
  { intros j Hj. destruct more as [t|].
    - rewrite m_seqs_cons. apply m_Opt_hit.
      change (m (Seq ?a ?b) ?st ?k0) with (m a st (fun st1 => m b st1 k0)).
      cbn [idx rest caps groups reset app foldr].
      rewrite m_Cls_hit by done.
      eapply (m_Rep_greedy_pick _ _ _ _ t []);
        [by rewrite app_nil_r|done|lia| |].
      + cbn [idx]. rewrite (proj2 (Nat.eqb_neq _ _)) by lia.
        rewrite <- Hj. cbn [length]. 
        replace (j + S (length t))%nat with (S j + length t)%nat by lia.
        reflexivity.
      + intros e post' Hpost Hne _. by destruct e.
    - rewrite Nat.add_0_r in Hj. exact Hj. }
  unfold result_end. destruct esc.
  - rewrite m_seqs_cons. apply m_Opt_hit.
    cbn [idx rest caps groups reset app foldr].
    change (js "\n") with [92; 110]. cbn [app].
    change (m (Alt ?a ?b) ?st ?k0) with
      (match m a st k0 with Some y => Some y | None => m b st k0 end).
    change (m (Seq ?a ?b) ?st ?k0) with (m a st (fun st1 => m b st1 k0)).
    rewrite m_Cls_hit by done. rewrite m_Cls_hit by done.
    cbn [idx]. rewrite (proj2 (Nat.eqb_neq _ _)) by lia.
    change (match more with Some t => js "'" ++ t | None => [] end)
      with (match more with Some t => 39 :: t | None => [] end).
    rewrite H2; [done|]. rewrite <- Hk. unfold result_end.
    change (js "\n") with [92; 110]. cbn [app length].
    do 2 f_equal. destruct more; simpl; lia.
  - cbn [app]. rewrite m_seqs_cons, m_Opt_skip.
    + apply H2. exact Hk.
    + intros k'. destruct more; reflexivity.
Qed.

(** What follows the status holds no [>] and does not start with white
    space. *)
Lemma result_end_no_gt esc more : rest_ok more → 62 ∉ result_end esc more.
Proof.
  intros H. unfold result_end. apply not_elem_of_app. split.
  - destruct esc; [|apply not_elem_of_nil].
    change (62 ∉ [92; 110]).
    rewrite !not_elem_of_cons. repeat split; try done. apply not_elem_of_nil.
  - destruct more as [t|]; [|apply not_elem_of_nil].
    destruct H as [_ H]. change (62 ∉ 39 :: t). by apply not_elem_of_cons.
Qed.

Lemma result_end_head esc more c s :
  result_end esc more = c :: s → is_space c = false.
Proof.
  unfold result_end. destruct esc; [by intros [= <- _]|].
  destruct more; [by intros [= <- _]|done].
Qed.


Lemma no_space_head (status tail e post : jsstring) :
  trim_start status = status →
  (∀ c s, tail = c :: s → is_space c = false) →
  status ++ tail = e ++ post → e ≠ [] → forallb is_space e = true → False.
Proof.
  intros Htrim Htail Heq Hne He. destruct e as [|x e]; [done|].
  simpl in He. apply andb_prop in He as [Hx _].
  destruct status as [|c status].
  - simpl in Heq. apply Htail in Heq. by rewrite Heq in Hx.
  - injection Heq as -> _. apply trim_start_head in Htrim.
    by rewrite Htrim in Hx.
Qed.

(** From [<] on, a line [<name> status] followed by an end matches the
    pattern of [parseASFResult], with the name and the status as groups and
    no identifier. *)
Lemma result_body_plain name status tail i cs :
  name ≠ [] → forallb is_dot name = true →
  forallb is_text_char status = true → trim_start status = status →
  (∀ c s, tail = c :: s → is_space c = false) → 62 ∉ tail →
  includes_i (status ++ tail) (js "Status:") = false →
  (∀ j cs' k x,
     k (MkSt (j + length tail) [] cs') = Some x →
     m (seqs [Opt (Alt (Seq (Cls (is_char 92)) (Cls (is_char_i 110)))
                       (Cls (is_char 10)));
              Opt (Seq (Cls (is_char 39)) (Rep true 0 is_dot));
              Eol]) (MkSt j tail cs') k = Some x) →
  ∃ j, ∀ k x,
    k (MkSt j [] (<[3%nat := Some status]> (<[1%nat := Some name]> cs)))
      = Some x →
    m (seqs [Cls (is_char 60);
             Grp 1 (Rep true 1 is_dot);
             Cls (is_char 62);
             Rep true 0 is_space;
             Opt (seqs [
               Rep true 0 is_dot;
               lit_i "ID:";
               Rep true 1 is_space;
               Grp 2 (seqs [Rep true 1 is_word;
                            Cls (is_char 47);
                            Rep true 1 is_digit]);
               Cls is_space;
               Rep true 1 is_dot;
               lit_i "Status:";
               Rep true 1 is_space ]);
             Grp 3 (Rep false 0 is_dot);
             Opt (Alt (Seq (Cls (is_char 92)) (Cls (is_char_i 110)))
                      (Cls (is_char 10)));
             Opt (Seq (Cls (is_char 39))
                      (Rep true 0 is_dot));
             Eol])
      (MkSt i (60 :: name ++ 62 :: 32 :: status ++ tail) cs) k = Some x.
Proof.
  intros Hne Hname Hstatus Htrim Hhead Hgt Hno Htail.
  assert (H62 : 62 ∉ 32 :: status ++ tail).
  { rewrite not_elem_of_cons, not_elem_of_app. split; [done|]. split; [|done].
    apply (forallb_not_elem_of is_text_char); done. }
  eexists. intros k x Hk.
  rewrite m_seqs_cons, m_Cls_hit by done. rewrite m_seqs_cons.
  eapply (m_Grp_greedy_pick _ _ _ _ _ name); [reflexivity|done| | |].
  - destruct name; [done|simpl; lia].
  - rewrite m_seqs_cons, m_Cls_hit by done. rewrite m_seqs_cons.
    eapply (m_Rep_greedy_pick _ _ _ _ [32]); [reflexivity|done|lia| |].
    + rewrite m_seqs_cons, m_Opt_skip
        by (intros k'; by apply result_opt_miss).
      rewrite m_seqs_cons.
      eapply (m_Grp_lazy_pick _ _ _ _ _ status tail);
        [reflexivity|by apply forallb_text_dot|lia| |].
      * apply Htail. exact Hk.
      * intros e e' caps' -> Hne' _. destruct e' as [|c' e']; [done|].
        cbn [app]. apply result_tail_miss.
        rewrite forallb_app in Hstatus.
        apply andb_prop in Hstatus as [_ Hb].
        simpl in Hb. by apply andb_prop in Hb as [? _].
    + intros e post' Hpost Hne' He. exfalso.
      by apply (no_space_head status tail e post').
  - intros e post' caps' Hpost Hne' He.
    rewrite m_seqs_cons. destruct post' as [|y post']; [done|].
    apply m_Cls_miss. unfold is_char. apply N.eqb_neq. intros ->.
    by apply after_nonempty_prefix in Hpost.
Qed.

Lemma is_space_cases c :
  is_space c = true →
  c = 9 ∨ c = 10 ∨ c = 11 ∨ c = 12 ∨ c = 13 ∨ c = 32 ∨ 160 <= c.
Proof.
  unfold is_space, is_white_space, is_line_terminator.
  rewrite !orb_true_iff, !andb_true_iff, !N.eqb_eq, !N.leb_le. lia.
Qed.

Lemma is_word_cases c :
  is_word c = true →
  97 <= c <= 122 ∨ 65 <= c <= 90 ∨ 48 <= c <= 57 ∨ c = 95.
Proof.
  unfold is_word, is_digit.
  rewrite !orb_true_iff, !andb_true_iff, !N.eqb_eq, !N.leb_le. lia.
Qed.

Lemma is_digit_word c : is_digit c = true → is_word c = true.
Proof. unfold is_word. intros ->. by rewrite orb_true_r. Qed.

Lemma is_word_not_space c : is_word c = true → is_space c = false.
Proof.
  intros H. apply is_word_cases in H.
  destruct (is_space c) eqn:E; [|done]. apply is_space_cases in E. lia.
Qed.

Lemma is_word_not_char c a :
  is_word c = true → a < 48 ∨ 57 < a < 65 ∨ 122 < a → (c =? a) = false.
Proof. intros H Ha. apply is_word_cases in H. apply N.eqb_neq. lia. Qed.

Lemma is_word_dot c : is_word c = true → is_dot c = true.
Proof.
  intros H. apply is_word_cases in H.
  unfold is_dot, is_line_terminator. apply negb_true_iff.
  rewrite !orb_false_iff, !N.eqb_neq. lia.
Qed.

(** The characters of an identifier [type/number]. *)
Lemma id_chars w d p :
  (∀ c, is_word c = true → p c = true) → p 47 = true →
  forallb is_word w = true → forallb is_digit d = true →
  forallb p (w ++ 47 :: d) = true.
Proof.
  intros Hp H47 Hw Hd. rewrite forallb_app. simpl. rewrite H47.
  rewrite forallb_forall in Hw, Hd. apply andb_true_intro. split.
  - apply forallb_forall. intros c Hc. auto.
  - apply forallb_forall. intros c Hc. apply Hp, is_digit_word. auto.
Qed.

Lemma upper_colon c : (c =? 58) = false → is_char_i 58 c = false.
Proof.
  unfold is_char_i, upper. rewrite N.eqb_neq. intros H.
  change ((97 <=? 58) && (58 <=? 122)) with false. cbv iota.
  destruct ((97 <=? c) && (c <=? 122)) eqn:E; apply N.eqb_neq; [|done].
  apply andb_prop in E as [E1 E2]. apply N.leb_le in E1, E2. lia.
Qed.

(** After characters that are no colon, followed by [ |], the text [ID:]
    does not start. *)
Lemma no_id_before_bar u s :
  u ≠ [] → forallb (fun c => negb (c =? 58)) u = true →
  starts_with_i (js "ID:") (u ++ 32 :: 124 :: s) = false.
Proof.
  intros Hne Hu.
  destruct u as [|x [|y [|z u]]]; [done|..]; simpl in Hu.
  - change (is_char_i 73 x && false = false). apply andb_false_r.
  - change (is_char_i 73 x && (is_char_i 68 y && false) = false).
    by rewrite !andb_false_r.
  - apply andb_prop in Hu as [_ Hu]. apply andb_prop in Hu as [_ Hu].
    apply andb_prop in Hu as [Hz _]. apply negb_true_iff, upper_colon in Hz.
    change (is_char_i 73 x && (is_char_i 68 y && (is_char_i 58 z && true))
            = false).
    rewrite Hz. by rewrite !andb_false_r.
Qed.

(** From [<] on, a line [<name> ID: type/number | Status: status] followed
    by an end matches the pattern of [parseASFResult], with the name, the
    identifier and the status as groups. *)
Lemma result_body_id name w d status tail i cs :
  name ≠ [] → forallb is_dot name = true →
  w ≠ [] → forallb is_word w = true →
  d ≠ [] → forallb is_digit d = true →
  forallb is_text_char status = true → trim_start status = status →
  (∀ c s, tail = c :: s → is_space c = false) → 62 ∉ tail →
  includes_i (status ++ tail) (js "Status:") = false →
  includes_i (status ++ tail) (js "ID:") = false →
  (∀ j cs' k x,
     k (MkSt (j + length tail) [] cs') = Some x →
     m (seqs [Opt (Alt (Seq (Cls (is_char 92)) (Cls (is_char_i 110)))
                       (Cls (is_char 10)));
              Opt (Seq (Cls (is_char 39)) (Rep true 0 is_dot));
              Eol]) (MkSt j tail cs') k = Some x) →
  ∃ j, ∀ k x,
    k (MkSt j [] (<[3%nat := Some status]>
                    (<[2%nat := Some (w ++ 47 :: d)]>
                       (<[2%nat := None]> (<[1%nat := Some name]> cs)))))
      = Some x →
    m (seqs [Cls (is_char 60);
             Grp 1 (Rep true 1 is_dot);
             Cls (is_char 62);
             Rep true 0 is_space;
             Opt (seqs [
               Rep true 0 is_dot;
               lit_i "ID:";
               Rep true 1 is_space;
               Grp 2 (seqs [Rep true 1 is_word;
                            Cls (is_char 47);
                            Rep true 1 is_digit]);
               Cls is_space;
               Rep true 1 is_dot;
               lit_i "Status:";
               Rep true 1 is_space ]);
             Grp 3 (Rep false 0 is_dot);
             Opt (Alt (Seq (Cls (is_char 92)) (Cls (is_char_i 110)))
                      (Cls (is_char 10)));
             Opt (Seq (Cls (is_char 39))
                      (Rep true 0 is_dot));
             Eol])
      (MkSt i
         (60 :: name ++ 62 :: 32 :: 73 :: 68 :: 58 :: 32 :: w ++ 47 :: d ++
          32 :: 124 :: 32 :: 83 :: 116 :: 97 :: 116 :: 117 :: 115 :: 58 ::
          32 :: status ++ tail) cs) k = Some x.
Proof.
  intros Hne Hname Hwne Hw Hdne Hd Hstatus Htrim Hhead Hgt HnoS HnoI Htail.
  assert (H62 : 62 ∉ 32 :: 73 :: 68 :: 58 :: 32 :: (w ++ 47 :: d) ++
                 32 :: 124 :: 32 :: 83 :: 116 :: 97 :: 116 :: 117 :: 115 ::
                 58 :: 32 :: status ++ tail).
  { rewrite !not_elem_of_cons, not_elem_of_app, !not_elem_of_cons,
      (not_elem_of_app status).
    repeat split; try done.
    - apply (forallb_not_elem_of (fun c => negb (c =? 62))); [|done].
      apply id_chars; try done.
      intros c Hc. by rewrite (is_word_not_char c 62) by (done || lia).
    - apply (forallb_not_elem_of is_text_char); done. }
  rewrite <- app_assoc in H62.
  eexists. intros k x Hk.
  rewrite m_seqs_cons, m_Cls_hit by done. rewrite m_seqs_cons.
  eapply (m_Grp_greedy_pick _ _ _ _ _ name); [reflexivity|done| | |].
  - destruct name; [done|simpl; lia].
  - rewrite m_seqs_cons, m_Cls_hit by done. rewrite m_seqs_cons.
    eapply (m_Rep_greedy_pick _ _ _ _ [32]); [reflexivity|done|lia| |].
    + rewrite m_seqs_cons. apply m_Opt_hit. cbn [idx rest caps].
      rewrite m_seqs_cons.
      eapply (m_Rep_greedy_pick _ _ _ _ []); [reflexivity|done|lia| |].
      * rewrite m_seqs_cons, m_lit_hit by reflexivity.
        change (drop _ (73 :: 68 :: 58 :: ?s)) with s.
        rewrite m_seqs_cons.
        eapply (m_Rep_greedy_pick _ _ _ _ [32]);
          [reflexivity|done|simpl; lia| |].
        -- rewrite m_seqs_cons, m_Grp. rewrite m_seqs_cons.
           eapply (m_Rep_greedy_pick _ _ _ _ w); [reflexivity|done| | |].
           ++ destruct w; [done|simpl; lia].
           ++ rewrite m_seqs_cons, m_Cls_hit by done. rewrite m_seqs_cons.
              eapply (m_Rep_greedy_pick _ _ _ _ d); [reflexivity|done| | |].
              ** destruct d; [done|simpl; lia].
              ** rewrite m_seqs_nil. cbn [idx rest caps].
                 rewrite m_seqs_cons, m_Cls_hit by done. rewrite m_seqs_cons.
                 eapply (m_Rep_greedy_pick _ _ _ _ [124; 32]);
                   [reflexivity|done|simpl; lia| |].
                 --- rewrite m_seqs_cons, m_lit_hit by reflexivity.
                     change (drop _ (83 :: 116 :: 97 :: 116 :: 117 :: 115 ::
                                     58 :: ?s)) with s.
                     rewrite m_seqs_cons.
                     eapply (m_Rep_greedy_pick _ _ _ _ [32]);
                       [reflexivity|done|simpl; lia| |].
                     +++ rewrite m_seqs_nil. cbn [idx].
                         rewrite (proj2 (Nat.eqb_neq _ _)) by (simpl; lia).
                         rewrite m_seqs_cons.
                         eapply (m_Grp_lazy_pick _ _ _ _ _ status tail);
                           [reflexivity|by apply forallb_text_dot|lia| |].
                         *** apply Htail.
                             match goal with
                             | |- context [take ?n ?l] =>
                                 replace (take n l) with (w ++ 47 :: d)
                             end; [exact Hk|].
                             symmetry.
                             change (w ++ 47 :: d ++ ?r)
                               with (w ++ (47 :: d) ++ r).
                             rewrite app_assoc.
                             replace (_ - _)%nat
                               with (length (w ++ 47 :: d))
                               by (rewrite length_app; simpl; lia).
                             apply take_app_length.
                         *** intros e e' caps' -> Hne' _.
                             destruct e' as [|c' e']; [done|].
                             cbn [app]. apply result_tail_miss.
                             rewrite forallb_app in Hstatus.
                             apply andb_prop in Hstatus as [_ Hb].
                             simpl in Hb. by apply andb_prop in Hb as [? _].
                     +++ intros e post' Hpost Hne' He. exfalso.
                         by apply (no_space_head status tail e post').
                 --- intros e post' Hpost Hne' He.
                     rewrite m_seqs_cons. apply m_lit_miss.
                     destruct e as [|y e]; [done|]. injection Hpost as _ Hpost.
                     apply (starts_with_i_tails _
                              [116; 97; 116; 117; 115; 58; 32]
                              (status ++ tail) e);
                       [repeat constructor| |done].
                     intros e2 post2. by apply includes_i_splits.
              ** intros e post' Hpost Hne' He.
                 destruct e as [|y e]; [done|]. injection Hpost as <- _.
                 done.
           ++ intros e post' Hpost Hne' He.
              destruct e as [|y e]; [done|]. injection Hpost as <- _.
              done.
        -- intros e post' Hpost Hne' He.
           destruct e as [|y e]; [done|]. destruct w as [|c w]; [done|].
           injection Hpost as <- _. simpl in Hw, He.
           apply andb_prop in Hw as [Hc _]. apply is_word_not_space in Hc.
           by rewrite Hc in He.
      * intros e post' Hpost Hne' He.
        rewrite m_seqs_cons. apply m_lit_miss.
        destruct e as [|y e]; [done|]. injection Hpost as _ Hpost.
        apply (fun H1 H2 =>
                 starts_with_i_tails (js "ID:") [68; 58; 32] _ e post'
                   H1 H2 Hpost);
          [repeat constructor|].
        intros e2 post2 Heq.
        change (w ++ 47 :: d ++ ?r) with (w ++ (47 :: d) ++ r) in Heq.
        rewrite app_assoc in Heq.
        revert Heq. apply starts_with_i_middle.
        -- intros e1 u Hu Hune. apply no_id_before_bar; [done|].
           assert (Hall : forallb (fun c => negb (c =? 58)) (w ++ 47 :: d)
                          = true).
           { apply id_chars; try done.
             intros c Hc.
             by rewrite (is_word_not_char c 58) by (done || lia). }
           rewrite Hu, forallb_app in Hall.
           by apply andb_prop in Hall as [_ ?].
        -- intros e3 post3.
           apply (starts_with_i_tails _
                    [32; 124; 32; 83; 116; 97; 116; 117; 115; 58; 32]
                    (status ++ tail));
             [repeat constructor|].
           intros e4 post4. by apply includes_i_splits.
    + intros e post' Hpost Hne' He.
      destruct e as [|y e]; [done|]. injection Hpost as <- _. done.
  - intros e post' caps' Hpost Hne' He.
    rewrite m_seqs_cons. destruct post' as [|y post']; [done|].
    apply m_Cls_miss. unfold is_char. apply N.eqb_neq. intros ->.
    by apply after_nonempty_prefix in Hpost.
Qed.

(** A line that matches the pattern of [parseASFResult] from [<] on
    matches it from the start, with or without a quote before [<]. *)
Lemma result_re_from_angle (q : bool) body (F : result → result) :
  (∀ i cs, ∃ j, ∀ k x,
     k (MkSt j [] (F cs)) = Some x →
     m (seqs [Cls (is_char 60);
              Grp 1 (Rep true 1 is_dot);
              Cls (is_char 62);
              Rep true 0 is_space;
              Opt (seqs [
                Rep true 0 is_dot;
                lit_i "ID:";
                Rep true 1 is_space;
                Grp 2 (seqs [Rep true 1 is_word;
                             Cls (is_char 47);
                             Rep true 1 is_digit]);
                Cls is_space;
                Rep true 1 is_dot;
                lit_i "Status:";
                Rep true 1 is_space ]);
              Grp 3 (Rep false 0 is_dot);
              Opt (Alt (Seq (Cls (is_char 92)) (Cls (is_char_i 110)))
                       (Cls (is_char 10)));
              Opt (Seq (Cls (is_char 39))
                       (Rep true 0 is_dot));
              Eol])
       (MkSt i (60 :: body) cs) k = Some x) →
  ∃ whole,
    exec result_re 3 ((if q then js "'" else []) ++ 60 :: body) =
    Some (<[0%nat := Some whole]> (F (replicate 4 None))).
Proof.
  intros Hbody. destruct q.
  - destruct (Hbody 1%nat (replicate 4 None)) as [j Hj].
    eexists. apply exec_from_hit. unfold match_at, result_re.
    rewrite m_Grp. rewrite m_seqs_cons. apply m_Opt_hit.
    cbn [idx rest caps groups reset foldr].
    change (js "'" ++ 60 :: body) with (39 :: 60 :: body).
    rewrite m_Cls_hit by done. cbn [idx].
    apply Hj. reflexivity.
  - destruct (Hbody 0%nat (replicate 4 None)) as [j Hj].
    eexists. apply exec_from_hit. unfold match_at, result_re.
    rewrite m_Grp.
    rewrite m_seqs_cons, m_Opt_skip by (intros k'; by apply m_Cls_miss).
    apply Hj. reflexivity.
Qed.

(** *** Lines that match neither pattern *)

Lemma exec_from_sound r ng s : ∀ i x,
  exec_from r ng i s = Some x →
  ∃ pre s', s = pre ++ s' ∧ match_at r ng (i + length pre) s' = Some x.
Proof.
  induction s as [|c s IH]; intros i x H; simpl in H.
  - destruct (match_at r ng i []) eqn:E; [|done].
    exists [], []. simpl. by rewrite Nat.add_0_r, E.
  - destruct (match_at r ng i (c :: s)) eqn:E.
    + exists [], (c :: s). simpl. by rewrite Nat.add_0_r, E.
    + apply IH in H as (pre & s' & -> & H). exists (c :: pre), s'.
      split; [done|]. simpl. by rewrite Nat.add_succ_r.
Qed.

(** A match of either pattern takes a [<] and later a [>]. *)
Lemma result_re_angles line matchRes :
  exec result_re 3 line = Some matchRes → 60 ∈ line ∧ 62 ∈ line.
Proof.
  intros H. apply exec_from_sound in H as (pre & s' & -> & H).
  unfold match_at in H. apply m_sound in H as (st' & H & _).
  destruct H as (st9 & H & _).
  destruct H as (st1 & H1 & st2 & H2 & st3 & H3 & st4 & H4 & _).
  apply matches_consumes in H1 as (w1 & Hw1 & _).
  destruct H2 as (c2 & s2 & Hr2 & Hc2 & ->).
  apply matches_consumes in H3 as (w3 & Hw3 & _).
  destruct H4 as (c4 & s4 & Hr4 & Hc4 & _).
  apply N.eqb_eq in Hc2, Hc4. subst c2 c4.
  cbn [rest] in *. rewrite Hw1, Hr2, Hw3, Hr4.
  rewrite !elem_of_app, !elem_of_cons, !elem_of_app, !elem_of_cons. tauto.
Qed.

Lemma status_re_angles line matchRes :
  exec status_re 2 line = Some matchRes → 60 ∈ line ∧ 62 ∈ line.
Proof.
  intros H. apply exec_from_sound in H as (pre & s' & -> & H).
  unfold match_at in H. apply m_sound in H as (st' & H & _).
  destruct H as (st9 & H & _).
  destruct H as (st0 & [_ ->] & st1 & H1 & st2 & H2 & st3 & H3 & st4 & H4 & _).
  apply matches_consumes in H1 as (w1 & Hw1 & _).
  destruct H2 as (c2 & s2 & Hr2 & Hc2 & ->).
  apply matches_consumes in H3 as (w3 & Hw3 & _).
  destruct H4 as (c4 & s4 & Hr4 & Hc4 & _).
  apply N.eqb_eq in Hc2, Hc4. subst c2 c4.
  cbn [rest] in *. rewrite Hw1, Hr2, Hw3, Hr4.
  rewrite !elem_of_app, !elem_of_cons, !elem_of_app, !elem_of_cons. tauto.
Qed.

(** *** From the lines of an answer to the object *)

Lemma result_of_line_text l :
  result_line_ok l →
  result_of_line (result_text l) = Some (rl_name l, result_entry l).
Proof.
  destruct l as [q name [[w d]|] status esc more];
    unfold result_line_ok, result_entry;
    cbn [rl_quoted rl_name rl_id rl_status rl_escape rl_rest].
  - intros (Hne & Hname & Hst & Htrim & Hrest & HnoS &
            Hwne & Hw & Hdne & Hd & HnoI).
    destruct (result_re_from_angle q
                (name ++ 62 :: 32 :: 73 :: 68 :: 58 :: 32 :: w ++ 47 :: d ++
                 32 :: 124 :: 32 :: 83 :: 116 :: 97 :: 116 :: 117 :: 115 ::
                 58 :: 32 :: status ++ result_end esc more)
                (fun cs => <[3%nat := Some status]>
                             (<[2%nat := Some (w ++ 47 :: d)]>
                                (<[2%nat := None]>
                                   (<[1%nat := Some name]> cs)))))
      as [whole He].
    { intros i cs. apply result_body_id; try done.
      - apply result_end_head.
      - by apply result_end_no_gt.
      - intros j cs' k x. apply result_end_hit.
        destruct more as [t|]; [by destruct Hrest|done]. }
    unfold result_of_line.
    change (result_text (MkResultLine q name (Some (w, d)) status esc more))
      with
      ((if q then js "'" else []) ++
       60 :: name ++ 62 :: 32 :: 73 :: 68 :: 58 :: 32 :: w ++ 47 :: d ++
       32 :: 124 :: 32 :: 83 :: 116 :: 97 :: 116 :: 117 :: 115 :: 58 :: 32 ::
       status ++ result_end esc more).
    rewrite He. cbn [mbind option_bind].
    change (group _ 1) with (Some name).
    change (group _ 2) with (Some (w ++ 47 :: d)).
    change (group _ 3) with (Some status).
    rewrite reclassify_Some. reflexivity.
  - intros (Hne & Hname & Hst & Htrim & Hrest & HnoS & _).
    destruct (result_re_from_angle q
                (name ++ 62 :: 32 :: status ++ result_end esc more)
                (fun cs => <[3%nat := Some status]>
                             (<[1%nat := Some name]> cs)))
      as [whole He].
    { intros i cs. apply result_body_plain; try done.
      - apply result_end_head.
      - by apply result_end_no_gt.
      - intros j cs' k x. apply result_end_hit.
        destruct more as [t|]; [by destruct Hrest|done]. }
    unfold result_of_line.
    change (result_text (MkResultLine q name None status esc more)) with
      ((if q then js "'" else []) ++
       60 :: name ++ 62 :: 32 :: status ++ result_end esc more).
    rewrite He. cbn [mbind option_bind].
    change (group _ 1) with (Some name).
    change (group _ 2) with (@None jsstring).
    change (group _ 3) with (Some status).
    rewrite reclassify_Some. reflexivity.
Qed.

Lemma status_of_line_text l :
  status_line_ok l →
  status_of_line (status_text l) = Some (sl_name l, status_entry l).
Proof.
  destruct l as [name phrase marks detail];
    unfold status_line_ok, status_entry;
    cbn [sl_name sl_phrase sl_marks sl_detail].
  intros (Hname & Hlt & Hne & Htrim & Hphrase & Hmarks & Hdetail).
  destruct (status_match name phrase marks
              match detail with Some d => 58 :: d | None => [] end)
    as (mr & He & H1 & H2); try done.
  { destruct phrase as [|c phrase]; [done|]. exists c, phrase.
    split; [done|]. by apply trim_start_head in Htrim. }
  { destruct detail as [d|]; [|by left]. right. exists d.
    destruct Hdetail as (? & ? & ? & ?). done. }
  unfold status_of_line.
  change (status_text (MkStatusLine name phrase marks detail)) with
    (60 :: name ++ 62 :: 32 :: phrase ++ marks ++
     match detail with Some d => js ":" ++ d | None => [] end).
  replace (match detail with Some d => js ":" ++ d | None => [] end)
    with (match detail with Some d => 58 :: d | None => [] end)
    by (by destruct detail).
  rewrite He. cbn [mbind option_bind]. rewrite H1, H2. cbn [default key_of].
  by rewrite is_connecting_includes_i.
Qed.

Lemma forallb_class_app (p : N → bool) l1 l2 :
  forallb p l1 = true → forallb p l2 = true → forallb p (l1 ++ l2) = true.
Proof. intros H1 H2. by rewrite forallb_app, H1, H2. Qed.

Lemma forallb_impl (p q : N → bool) l :
  (∀ c, p c = true → q c = true) → forallb p l = true → forallb q l = true.
Proof. rewrite !forallb_forall. auto. Qed.

Lemma is_dot_no_nl l : forallb is_dot l = true → 10 ∉ l.
Proof. intros H. by apply (forallb_not_elem_of is_dot). Qed.

Lemma result_end_dot esc more :
  rest_ok more → forallb is_dot (result_end esc more) = true.
Proof.
  intros H. unfold result_end. apply forallb_class_app.
  - by destruct esc.
  - destruct more as [t|]; [|done]. by destruct H as [H _].
Qed.

Lemma result_text_no_nl l : result_line_ok l → 10 ∉ result_text l.
Proof.
  destruct l as [q name [[w d]|] status esc more];
    unfold result_line_ok, result_text;
    cbn [rl_quoted rl_name rl_id rl_status rl_escape rl_rest].
  - intros (Hne & Hname & Hst & Htrim & Hrest & HnoS &
            Hwne & Hw & Hdne & Hd & HnoI).
    pose proof (result_end_dot esc more Hrest) as He.
    set (tail := result_end esc more) in *. clearbody tail.
    apply is_dot_no_nl.
    repeat apply forallb_class_app; try done.
    + by destruct q.
    + by apply (forallb_impl is_word), Hw; apply is_word_dot.
    + apply (forallb_impl is_digit), Hd. intros c Hc.
      by apply is_word_dot, is_digit_word.
    + by apply forallb_text_dot.
  - intros (Hne & Hname & Hst & Htrim & Hrest & HnoS & _).
    pose proof (result_end_dot esc more Hrest) as He.
    set (tail := result_end esc more) in *. clearbody tail.
    apply is_dot_no_nl.
    repeat apply forallb_class_app; try done.
    + by destruct q.
    + by apply forallb_text_dot.
Qed.

Lemma status_text_no_nl l : status_line_ok l → 10 ∉ status_text l.
Proof.
  destruct l as [name phrase marks detail]; unfold status_line_ok, status_text;
    cbn [sl_name sl_phrase sl_marks sl_detail].
  intros (Hname & Hlt & Hne & Htrim & Hphrase & Hmarks & Hdetail).
  apply is_dot_no_nl.
  repeat apply forallb_class_app; try done.
  - by apply forallb_phrase_dot.
  - apply (forallb_impl is_end_mark), Hmarks. intros c.
    unfold is_end_mark, is_char, is_dot, is_line_terminator.
    rewrite !orb_true_iff, negb_true_iff, !orb_false_iff, !N.eqb_eq, !N.eqb_neq.
    lia.
  - destruct detail as [d|]; [|done].
    destruct Hdetail as (_ & Hd & _). by apply forallb_class_app.
Qed.

Lemma omap_fmap_Some {A B C} (f : B → option C) (g : A → B) (h : A → C)
  (P : A → Prop) l :
  (∀ x, P x → f (g x) = Some (h x)) → Forall P l →
  omap f (map g l) = map h l.
Proof.
  intros Hf Hall. induction Hall as [|x l Hx Hl IH]; [done|].
  simpl. rewrite (Hf x Hx). rewrite <- IH. reflexivity.
Qed.

Lemma result_matches_text ls :
  Forall result_line_ok ls →
  result_matches (join_nl (map result_text ls)) =
  map (fun l => (rl_name l, result_entry l)) ls.
Proof.
  intros Hall. unfold result_matches.
  destruct ls as [|l ls]; [vm_compute; reflexivity|].
  rewrite split_nl_join; [|done|].
  - apply (omap_fmap_Some _ _ _ result_line_ok); [|done].
    apply result_of_line_text.
  - apply Forall_fmap. eapply Forall_impl; [exact Hall|].
    apply result_text_no_nl.
Qed.

Lemma status_matches_text ls :
  Forall status_line_ok ls →
  status_matches (join_nl (map status_text ls)) =
  map (fun l => (sl_name l, status_entry l)) ls.
Proof.
  intros Hall. unfold status_matches.
  destruct ls as [|l ls]; [vm_compute; reflexivity|].
  rewrite split_nl_join; [|done|].
  - apply (omap_fmap_Some _ _ _ status_line_ok); [|done].
    apply status_of_line_text.
  - apply Forall_fmap. eapply Forall_impl; [exact Hall|].
    apply status_text_no_nl.
Qed.

(** An answer to [addlicense] with one line per account, [<name> status]
    or [<name> ID: type/number | Status: status], is read as written: the
    object [parseASFResult] returns is the one the lines assign in order,
    each name to the identifier and the status of its line, the status [OK]
    replaced; with distinct names, none of them [__proto__], every account
    has its entry.  A quote before [<], and after the status the two
    characters [\n] and a quote with more text, are left out of the
    entry.  A line without [<] or without [>] gives no entry. *)
Theorem parseASFResult_reads_lines (ls : list ResultLine) :
  Forall result_line_ok ls →
  let result := join_nl (map result_text ls) in
  parseASFResult result =
    obj_set_all obj_empty (map (fun l => (rl_name l, result_entry l)) ls) ∧
  (NoDup (map rl_name ls) → proto_key ∉ map rl_name ls →
   ∀ l, l ∈ ls →
        own (parseASFResult result) !! rl_name l = Some (result_entry l)) ∧
  (∀ line, 60 ∉ line ∨ 62 ∉ line → result_of_line line = None).
Proof.
  intros Hall result. subst result.
  rewrite parseASFResult_eq, result_matches_text by done.
  split; [done|]. split.
  - intros Hnd Hproto l Hl.
    apply own_obj_set_all_NoDup.
    + by rewrite <- list_fmap_compose.
    + by rewrite <- list_fmap_compose.
    + apply list_elem_of_fmap. by exists l.
  - intros line Hline. unfold result_of_line.
    destruct (exec result_re 3 line) as [mr|] eqn:E; [|done].
    apply result_re_angles in E. tauto.
Qed.

Lemma parseASFResult_reads_lines_witness :
  let l1 := MkResultLine true (js "bot1") (Some (js "app", js "730"))
              (js "OK") true (Some []) in
  let l2 := MkResultLine false (js "bot2") None (js "Fail/AlreadyPurchased")
              false None in
  own (parseASFResult (join_nl (map result_text [l1; l2]))) !! rl_name l1
  = Some (result_entry l1).
Proof.
  intros l1 l2.
  assert (Hok : Forall result_line_ok [l1; l2]).
  { constructor; [|constructor; [|constructor]];
      unfold result_line_ok, rest_ok;
      cbn [rl_name rl_id rl_status rl_escape rl_rest l1 l2];
      repeat split; try discriminate; try apply not_elem_of_nil;
      vm_compute; reflexivity. }
  refine (proj1 (proj2 (parseASFResult_reads_lines [l1; l2] Hok)) _ _ l1 _);
    [apply (bool_decide_unpack _); vm_compute; reflexivity
    |apply (bool_decide_unpack _); vm_compute; reflexivity
    |apply list_elem_of_here].
Defined.

(** An answer to [status] with one line per account, [<name> phrase]
    followed by marks and possibly by a colon and a detail, is read as
    written: [parseASFStatus] returns the object the lines assign in
    order, each name to its phrase without the marks and the detail;
    [isDone] is true exactly when no phrase holds [Bot is connecting to
    Steam network], in any case; with distinct names, none of them
    [__proto__], every account has its entry.  A line without [<] or
    without [>] gives no entry. *)
Theorem parseASFStatus_reads_lines (ls : list StatusLine) :
  Forall status_line_ok ls →
  ∃ info,
    parseASFStatus (join_nl (map status_text ls)) = Some info ∧
    user info =
      obj_set_all obj_empty (map (fun l => (sl_name l, status_entry l)) ls) ∧
    isDone info =
      forallb (fun l => negb (includes_i (sl_phrase l) connecting_text)) ls ∧
    (NoDup (map sl_name ls) → proto_key ∉ map sl_name ls →
     ∀ l, l ∈ ls → own (user info) !! sl_name l = Some (status_entry l)) ∧
    (∀ line, 60 ∉ line ∨ 62 ∉ line → status_of_line line = None).
Proof.
  intros Hall. eexists. split; [apply parseASFStatus_eq|].
  cbn [user isDone]. rewrite status_matches_text by done.
  split; [done|]. split; [|split].
  - clear Hall. induction ls as [|l ls IH]; [done|].
    simpl. by rewrite IH.
  - intros Hnd Hproto l Hl.
    apply own_obj_set_all_NoDup.
    + by rewrite <- list_fmap_compose.
    + by rewrite <- list_fmap_compose.
    + apply list_elem_of_fmap. by exists l.
  - intros line Hline. unfold status_of_line.
    destruct (exec status_re 2 line) as [mr|] eqn:E; [|done].
    apply status_re_angles in E. tauto.
Qed.

Lemma parseASFStatus_reads_lines_witness :
  let l1 := MkStatusLine (js "bot1") (js "Bot is not farming anything")
              (js ".") None in
  let l2 := MkStatusLine (js "bot2") (js "Bot is connecting to Steam network")
              (js "...") (Some (js " retrying")) in
  ∃ info,
    parseASFStatus (join_nl (map status_text [l1; l2])) = Some info ∧
    isDone info = false ∧
    own (user info) !! sl_name l2 = Some (status_entry l2).
Proof.
  intros l1 l2.
  assert (Hok : Forall status_line_ok [l1; l2]).
  { constructor; [|constructor; [|constructor]];
      unfold status_line_ok, detail_ok;
      cbn [sl_name sl_phrase sl_marks sl_detail l1 l2];
      repeat split; try discriminate;
      try (apply (bool_decide_unpack _)); vm_compute; reflexivity. }
  destruct (parseASFStatus_reads_lines [l1; l2] Hok)
    as (info & Hparse & _ & Hdone & Hown & _).
  exists info. split; [exact Hparse|]. split.
  - rewrite Hdone. vm_compute. reflexivity.
  - apply Hown; [..|apply list_elem_of_further, list_elem_of_here];
      apply (bool_decide_unpack _); vm_compute; reflexivity.
Defined.

(** ** Notifications *)

Section NotifyFacts.

Import Notify.

(** *** The license of a notification *)

Lemma includes_absent a p s : a ∉ s → includes s (a :: p) = false.
Proof.
  induction s as [|c s IH]; intros H; [done|].
  apply not_elem_of_cons in H as [Hc Hs]. simpl.
  rewrite IH by done. rewrite orb_false_r.
  apply andb_false_intro1. apply N.eqb_neq. congruence.
Qed.

Lemma replace_first_none p r s :
  includes s p = false → replace_first p r s = s.
Proof.
  induction s as [|c s IH]; simpl; intros H.
  - rewrite orb_false_r in H. by rewrite H.
  - apply orb_false_elim in H as [H1 H2]. rewrite H1. f_equal. auto.
Qed.

Lemma split_char_none sep s : sep ∉ s → split_char sep s = [s].
Proof.
  induction s as [|c s IH]; intros H; simpl; [done|].
  apply not_elem_of_cons in H as [Hc Hs].
  destruct (N.eqb_spec c sep) as [->|_]; [done|]. by rewrite IH.
Qed.

Lemma is_digit_not_elem_of d a :
  forallb is_digit d = true → is_digit a = false → a ∉ d.
Proof. apply forallb_not_elem_of. Qed.

(** The pattern [^(\d+)$] matches the texts of digits and nothing else. *)
Lemma number_re_digits d :
  d ≠ [] → forallb is_digit d = true →
  ∃ matchRes,
    exec number_re 1 d = Some matchRes ∧
    group matchRes 0 = Some d ∧ group matchRes 1 = Some d.
Proof.
  intros Hne Hd. eexists. split; [|split].
  - apply exec_from_hit. unfold match_at, number_re.
    rewrite m_Grp, m_seqs_cons. cbn [m idx Nat.eqb]. rewrite m_seqs_cons.
    eapply (m_Grp_greedy_pick _ _ _ _ _ d []);
      [by rewrite app_nil_r|done| | |].
    + destruct d; [done|simpl; lia].
    + reflexivity.
    + intros e post' caps' Hpost Hne'. destruct e; [done|discriminate].
  - unfold group. simpl. f_equal. apply take_ge. lia.
  - reflexivity.
Qed.

Lemma number_re_none s :
  s = [] ∨ (∃ c, c ∈ s ∧ is_digit c = false) → exec number_re 1 s = None.
Proof.
  intros Hs. destruct (exec number_re 1 s) as [x|] eqn:E; [exfalso|done].
  apply exec_from_sound in E as (pre & s' & -> & E).
  unfold match_at in E. apply m_sound in E as (st' & H & _).
  destruct H as (st1 & H & _).
  destruct H as (st2 & [Hidx ->] & st3 & (st4 & H4 & ->) & _ & [Hend _] & _).
  destruct H4 as (ds & Hds & Hall & Hlen & _).
  cbn [idx rest] in *. rewrite Hend, app_nil_r in Hds. subst s'.
  destruct pre; [|done]. simpl in Hs.
  destruct Hs as [->|(c & Hc & Hno)]; [simpl in Hlen; lia|].
  rewrite forallb_forall in Hall.
  apply list_elem_of_In, Hall in Hc. congruence.
Qed.

Lemma replace_number_digits d :
  d ≠ [] → forallb is_digit d = true → replace_number d = js "sub/" ++ d.
Proof.
  intros Hne Hd. unfold replace_number.
  destruct (number_re_digits d Hne Hd) as (mr & -> & -> & ->). simpl.
  by rewrite drop_all, app_nil_r.
Qed.

Lemma replace_number_other s :
  (∃ c, c ∈ s ∧ is_digit c = false) → replace_number s = s.
Proof.
  intros H. unfold replace_number. rewrite number_re_none; [done|]. by right.
Qed.

(** The codes of the list name a license as [a/number], [s/number] or
    [number], or with the words written out; all five are read as the kind
    of license, [app] or [sub], and its number. *)
Theorem license_of_forms (d : jsstring) :
  d ≠ [] → forallb is_digit d = true →
  normalize (js "a/" ++ d) = js "app/" ++ d ∧
  normalize (js "app/" ++ d) = js "app/" ++ d ∧
  normalize (js "s/" ++ d) = js "sub/" ++ d ∧
  normalize (js "sub/" ++ d) = js "sub/" ++ d ∧
  normalize d = js "sub/" ++ d ∧
  (∀ written,
     written ∈ [js "a/"; js "app/"] →
     license_of (Some (written ++ d)) = MkLicense (Some (js "app")) (Some d)) ∧
  (∀ written,
     written ∈ [js "s/"; js "sub/"; []] →
     license_of (Some (written ++ d)) = MkLicense (Some (js "sub")) (Some d)).
Proof.
  intros Hne Hd.
  assert (H47 : 47 ∉ d) by (by apply is_digit_not_elem_of).
  assert (H97 : 97 ∉ d) by (by apply is_digit_not_elem_of).
  assert (H115 : 115 ∉ d) by (by apply is_digit_not_elem_of).
  assert (Happ : replace_number (js "app/" ++ d) = js "app/" ++ d).
  { apply replace_number_other. exists 97. split; [|done]. apply list_elem_of_here. }
  assert (Hsub : replace_number (js "sub/" ++ d) = js "sub/" ++ d).
  { apply replace_number_other. exists 115. split; [|done]. apply list_elem_of_here. }
  assert (Hno_s : includes d (js "s/") = false) by (by apply includes_absent).
  assert (Hno_a : includes d (js "a/") = false) by (by apply includes_absent).
  assert (H1 : normalize (js "a/" ++ d) = js "app/" ++ d).
  { unfold normalize.
    change (replace_first (js "a/") (js "app/") (js "a/" ++ d))
      with (js "app/" ++ d).
    rewrite replace_first_none; [done|].
    change (includes (js "app/" ++ d) (js "s/"))
      with (false || (false || (false || (false || includes d (js "s/"))))).
    by rewrite Hno_s. }
  assert (H2 : normalize (js "app/" ++ d) = js "app/" ++ d).
  { unfold normalize. rewrite (replace_first_none (js "a/")).
    - rewrite replace_first_none; [done|].
      change (includes (js "app/" ++ d) (js "s/"))
        with (false || (false || (false || (false || includes d (js "s/"))))).
      by rewrite Hno_s.
    - change (includes (js "app/" ++ d) (js "a/"))
        with (false || (false || (false || (false || includes d (js "a/"))))).
      by rewrite Hno_a. }
  assert (H3 : normalize (js "s/" ++ d) = js "sub/" ++ d).
  { unfold normalize. rewrite (replace_first_none (js "a/")).
    - change (replace_first (js "s/") (js "sub/") (js "s/" ++ d))
        with (js "sub/" ++ d).
      done.
    - change (includes (js "s/" ++ d) (js "a/"))
        with (false || (false || includes d (js "a/"))).
      by rewrite Hno_a. }
  assert (H4 : normalize (js "sub/" ++ d) = js "sub/" ++ d).
  { unfold normalize. rewrite (replace_first_none (js "a/")).
    - rewrite replace_first_none; [done|].
      change (includes (js "sub/" ++ d) (js "s/"))
        with (false || (false || (false || (false || includes d (js "s/"))))).
      by rewrite Hno_s.
    - change (includes (js "sub/" ++ d) (js "a/"))
        with (false || (false || (false || (false || includes d (js "a/"))))).
      by rewrite Hno_a. }
  assert (H5 : normalize d = js "sub/" ++ d).
  { unfold normalize. rewrite (replace_first_none (js "a/")) by done.
    rewrite (replace_first_none (js "s/")) by done.
    by apply replace_number_digits. }
  assert (Hsplit : ∀ word, 47 ∉ word →
            split_char 47 (word ++ 47 :: d) = [word; d]).
  { intros word Hw. induction word as [|c word IH]; simpl.
    - by rewrite split_char_none.
    - apply not_elem_of_cons in Hw as [Hc Hw].
      destruct (N.eqb_spec c 47) as [->|_]; [done|]. by rewrite IH. }
  assert (Hlic : ∀ written word,
            normalize (written ++ d) = word ++ 47 :: d → word ≠ [] →
            47 ∉ word → written ++ d ≠ [] →
            license_of (Some (written ++ d)) = MkLicense (Some word) (Some d)).
  { intros written word Hnorm Hword H47w Hwd.
    assert (Hn : normalized (Some (written ++ d)) = Some (word ++ 47 :: d)).
    { unfold normalized. destruct (written ++ d) as [|c l]; [done|].
      by rewrite Hnorm. }
    unfold license_of. rewrite Hn.
    destruct word as [|x word]; [done|]. cbn [app].
    change (x :: word ++ 47 :: d) with ((x :: word) ++ 47 :: d).
    by rewrite Hsplit. }
  do 5 (split; [done|]). split.
  - intros written Hin.
    apply elem_of_cons in Hin as [->|Hin];
      [|apply elem_of_cons in Hin as [->|Hin]; [|by apply elem_of_nil in Hin]].
    + apply (Hlic (js "a/") (js "app"));
        [exact H1|discriminate|by apply (bool_decide_unpack _)|discriminate].
    + apply (Hlic (js "app/") (js "app"));
        [exact H2|discriminate|by apply (bool_decide_unpack _)|discriminate].
  - intros written Hin.
    apply elem_of_cons in Hin as [->|Hin];
      [|apply elem_of_cons in Hin as [->|Hin];
        [|apply elem_of_cons in Hin as [->|Hin]; [|by apply elem_of_nil in Hin]]].
    + apply (Hlic (js "s/") (js "sub"));
        [exact H3|discriminate|by apply (bool_decide_unpack _)|discriminate].
    + apply (Hlic (js "sub/") (js "sub"));
        [exact H4|discriminate|by apply (bool_decide_unpack _)|discriminate].
    + apply (Hlic [] (js "sub"));
        [exact H5|discriminate|by apply (bool_decide_unpack _)|exact Hne].
Qed.


(** *** One call of [sendHookAsync] *)

Lemma bind_val {A B} (c : M A) (f : A → M B) w a w' :
  c w = (Val a, w') → bind c f w = f a w'.
Proof. unfold bind. by intros ->. Qed.

Lemma bind_throw {A B} (c : M A) (f : A → M B) w w' :
  c w = (Throw, w') → bind c f w = (Throw, w').
Proof. unfold bind. by intros ->. Qed.

Lemma bind_wait {A B} (c : M A) (f : A → M B) w w' :
  c w = (Wait, w') → bind c f w = (Wait, w').
Proof. unfold bind. by intros ->. Qed.

Lemma sendWebhook_delivered p w ds :
  deliveries w = true :: ds →
  sendWebhook p w =
  (Val tt, MkWorld (appReplies w) (pkgReplies w) ds (trace w ++ [Webhook p])).
Proof. intros H. unfold sendWebhook, bind, emit. simpl. by rewrite H. Qed.

Lemma sendWebhook_rejected p w ds :
  deliveries w = false :: ds →
  sendWebhook p w =
  (Throw, MkWorld (appReplies w) (pkgReplies w) ds (trace w ++ [Webhook p])).
Proof. intros H. unfold sendWebhook, bind, emit. simpl. by rewrite H. Qed.

Lemma sendWebhook_any p w :
  ∃ r ds,
    sendWebhook p w =
    (r, MkWorld (appReplies w) (pkgReplies w) ds (trace w ++ [Webhook p])).
Proof.
  unfold sendWebhook, bind, emit. simpl.
  destruct (deliveries w) as [|[] ds]; eauto.
Qed.

(** The loop over the enabled types for a notification without license. *)
Lemma plain_loop_delivered type msg types : ∀ w rest,
  deliveries w =
    replicate (length (filter (fun t => t = type_name type) types)) true
    ++ rest →
  for_each types (fun enabled =>
    if decide (enabled = type_name type)
    then sendWebhook (MkPayload msg type None) else ret tt) w =
  (Val tt,
   MkWorld (appReplies w) (pkgReplies w) rest
     (trace w ++
      replicate (length (filter (fun t => t = type_name type) types))
        (Webhook (MkPayload msg type None)))).
Proof.
  induction types as [|t types IH]; intros [apps pkgs ds tr] rest Hds;
    simpl in *.
  - subst. by rewrite app_nil_r.
  - destruct (decide (t = type_name type)) as [Ht|Ht].
    + rewrite filter_cons_True in * by done. simpl in *.
      erewrite bind_val by (by apply sendWebhook_delivered).
      rewrite IH with (rest := rest) by done. simpl.
      by rewrite <- app_assoc.
    + rewrite filter_cons_False in * by done.
      unfold bind, ret. by rewrite IH with (rest := rest).
Qed.

Lemma plain_loop_rejected type msg types : ∀ w i rest,
  (i < length (filter (fun t => t = type_name type) types))%nat →
  deliveries w = replicate i true ++ false :: rest →
  for_each types (fun enabled =>
    if decide (enabled = type_name type)
    then sendWebhook (MkPayload msg type None) else ret tt) w =
  (Throw,
   MkWorld (appReplies w) (pkgReplies w) rest
     (trace w ++ replicate (S i) (Webhook (MkPayload msg type None)))).
Proof.
  induction types as [|t types IH]; intros [apps pkgs ds tr] i rest Hi Hds;
    simpl in *; [lia|].
  destruct (decide (t = type_name type)) as [Ht|Ht].
  - rewrite filter_cons_True in * by done. simpl in *.
    destruct i as [|i]; simpl in Hds.
    + by erewrite bind_throw by (by apply sendWebhook_rejected).
    + erewrite bind_val by (by apply sendWebhook_delivered).
      rewrite IH with (i := i) (rest := rest) by (done || lia). simpl.
      by rewrite <- app_assoc.
  - rewrite filter_cons_False in * by done.
    unfold bind, ret. by rewrite IH with (i := i) (rest := rest).
Qed.

Lemma plain_loop_any type msg types : ∀ w,
  ∃ r ds k,
    for_each types (fun enabled =>
      if decide (enabled = type_name type)
      then sendWebhook (MkPayload msg type None) else ret tt) w =
    (r, MkWorld (appReplies w) (pkgReplies w) ds
          (trace w ++ replicate k (Webhook (MkPayload msg type None)))).
Proof.
  induction types as [|t types IH]; intros [apps pkgs ds tr]; simpl.
  - exists (Val tt), ds, 0%nat. by rewrite app_nil_r.
  - destruct (decide (t = type_name type)) as [Ht|Ht].
    + destruct (sendWebhook_any (MkPayload msg type None)
                  (MkWorld apps pkgs ds tr)) as (r & ds' & Hsend).
      simpl in Hsend. unfold bind. rewrite Hsend.
      destruct r.
      * destruct (IH (MkWorld apps pkgs ds'
                        (tr ++ [Webhook (MkPayload msg type None)])))
          as (r & ds2 & k & ->).
        exists r, ds2, (S k). simpl. by rewrite <- app_assoc.
      * by exists Throw, ds', 1%nat.
      * by exists Wait, ds', 1%nat.
    + unfold bind, ret. apply IH.
Qed.

Lemma sendHookAsync_plain_any config type msg w :
  ∃ r ds k,
    sendHookAsync_plain config type msg w =
    (r, MkWorld (appReplies w) (pkgReplies w) ds
          (trace w ++ replicate k (Webhook (MkPayload msg type None)))).
Proof.
  unfold sendHookAsync_plain. destruct (disabled config).
  - exists (Val tt), (deliveries w), 0%nat. rewrite app_nil_r. by destruct w.
  - apply plain_loop_any.
Qed.

(** Without a license the call is the plain one. *)
Lemma sendHookAsync_no_license config type msg licenseId :
  truthy (normalized licenseId) = false →
  sendHookAsync config type msg licenseId = sendHookAsync_plain config type msg.
Proof.
  intros H. unfold sendHookAsync, sendHookAsync_plain. by rewrite H.
Qed.

Lemma for_each_skip {A} (pre : list A) x post (body : A → M unit) w :
  (∀ y, y ∈ pre → body y = ret tt) →
  for_each (pre ++ x :: post) body w =
  bind (body x) (fun _ => for_each post body) w.
Proof.
  induction pre as [|y pre IH]; intros H; [done|]. simpl.
  rewrite (H y) by apply list_elem_of_here. unfold bind at 1, ret.
  apply IH. intros z Hz. apply H. by apply list_elem_of_further.
Qed.

Lemma for_each_skip_all {A} (l : list A) (body : A → M unit) w :
  (∀ y, y ∈ l → body y = ret tt) → for_each l body w = (Val tt, w).
Proof.
  induction l as [|y l IH]; intros H; [done|]. simpl.
  rewrite (H y) by apply list_elem_of_here. unfold bind, ret.
  apply IH. intros z Hz. apply H. by apply list_elem_of_further.
Qed.

(** A type that is listed once. *)
Lemma listed_once (t : jsstring) l :
  filter (fun x => x = t) l = [t] →
  ∃ pre post, l = pre ++ t :: post ∧ (t ∉ pre) ∧ (t ∉ post).
Proof.
  induction l as [|y l IH]; intros H; [done|].
  destruct (decide (y = t)) as [->|Hy].
  - rewrite filter_cons_True in H by done. injection H as H.
    exists [], l. split; [done|]. split; [apply not_elem_of_nil|].
    intros Hin. assert (Hf : t ∈ filter (fun x => x = t) l)
      by (by apply list_elem_of_filter).
    rewrite H in Hf. by apply elem_of_nil in Hf.
  - rewrite filter_cons_False in H by done.
    destruct (IH H) as (pre & post & -> & Hpre & Hpost).
    exists (y :: pre), post. split; [done|]. split; [|done].
    rewrite not_elem_of_cons. split; [congruence|done].
Qed.

(** A notification without license is sent once for every time its type is
    listed in [WEBHOOK_ENABLEDTYPES], and not at all for a type that is not
    listed: when the deliveries succeed the call returns after that many
    webhooks; a delivery that fails makes the call throw, and the webhooks
    after it are not sent.  No lookup is made.  When the webhook address is
    empty or [none], a call does nothing, whatever its arguments. *)
Theorem sendHookAsync_plain_notifies (config : HookConfig) (type : Severity)
  (msg : string) (w : World) :
  let n := length (filter (fun t => t = type_name type) (enabledTypes config)) in
  let sent k := trace w ++ replicate k (Webhook (MkPayload msg type None)) in
  (disabled config = true →
   ∀ licenseId, sendHookAsync config type msg licenseId w = (Val tt, w)) ∧
  (disabled config = false →
   (∀ rest,
      deliveries w = replicate n true ++ rest →
      sendHookAsync config type msg None w =
      (Val tt, MkWorld (appReplies w) (pkgReplies w) rest (sent n))) ∧
   (∀ i rest,
      (i < n)%nat → deliveries w = replicate i true ++ false :: rest →
      sendHookAsync config type msg None w =
      (Throw, MkWorld (appReplies w) (pkgReplies w) rest (sent (S i))))).
Proof.
  intros n sent. split.
  - intros Hdis licenseId. unfold sendHookAsync. by rewrite Hdis.
  - intros Hdis. rewrite sendHookAsync_no_license by done.
    unfold sendHookAsync_plain. rewrite Hdis. split.
    + intros rest Hds. by apply plain_loop_delivered.
    + intros i rest Hi Hds. by apply plain_loop_rejected.
Qed.

Lemma sendHookAsync_plain_notifies_witness :
  let config := MkHookConfig (js "https://hook") (js "error;warn;success;error") in
  sendHookAsync config Error "Failed" None (world [] [] [true; true; false]) =
  (Val tt,
   MkWorld [] [] [false]
     (replicate 2 (Webhook (MkPayload "Failed" Error None)))) ∧
  sendHookAsync config Info "Checking" None (world [] [] [false]) =
  (Val tt, world [] [] [false]).
Proof.
  intros config. split.
  - exact (proj1 (proj2 (sendHookAsync_plain_notifies config Error "Failed"
                           (world [] [] [true; true; false])) eq_refl)
             [false] eq_refl).
  - exact (proj1 (proj2 (sendHookAsync_plain_notifies config Info "Checking"
                           (world [] [] [false])) eq_refl)
             [false] eq_refl).
Defined.


(** *** Notifications for a license *)

(** The loop of [sendHookAsync] over the enabled types, for a type listed
    once: the pass for the type is the whole loop. *)
Lemma for_each_once type (types : list jsstring) (hit : M unit) w :
  filter (fun t => t = type_name type) types = [type_name type] →
  for_each types (fun enabled =>
    if decide (enabled = type_name type) then hit else ret tt) w =
  bind hit (fun _ => ret tt) w.
Proof.
  intros H. apply listed_once in H as (pre & post & -> & Hpre & Hpost).
  rewrite for_each_skip.
  - rewrite decide_True by done. unfold bind.
    destruct (hit w) as [[[]| |] w']; try done.
    apply for_each_skip_all. intros y Hy. rewrite decide_False; [done|].
    intros ->. done.
  - intros y Hy. rewrite decide_False; [done|]. intros ->. done.
Qed.

Lemma for_each_first type (types : list jsstring) (hit : M unit) w r w' :
  type_name type ∈ types → hit w = (r, w') → r ≠ Val tt →
  for_each types (fun enabled =>
    if decide (enabled = type_name type) then hit else ret tt) w = (r, w').
Proof.
  intros Hin Hhit Hr.
  apply list_elem_of_split_l in Hin as (pre & post & -> & Hpre).
  rewrite for_each_skip.
  - rewrite decide_True by done. unfold bind. rewrite Hhit.
    by destruct r as [[]| |].
  - intros y Hy. rewrite decide_False; [done|]. intros ->. done.
Qed.

(** When the lookup of a package fails with an error (the request is
    rejected, the answer is no JSON or has no entry with [data] for the
    package), the notification is never sent and the call does not return
    normally, whatever the deliveries give: after the lookup and two
    warnings in the log, the warning is sent to the webhook once for each
    time [warn] is listed, and when these deliveries succeed the call
    throws on the length of the list of apps, which is [undefined]. *)
Theorem sendHookAsync_package_error (config : HookConfig) (type : Severity)
  (msg : string) (licenseId : option jsstring) (w : World)
  (rest : list PkgReply) :
  disabled config = false →
  type_name type ∈ enabledTypes config →
  truthy (normalized licenseId) = true →
  license_type (license_of licenseId) ≠ Some (js "app") →
  pkgReplies w = PkgError :: rest →
  let looked_up k :=
    trace w ++
    [GetPackage (license_id (license_of licenseId)); WarnLine; WarnLine] ++
    replicate k (Webhook (MkPayload steam_error Warn None)) in
  (∃ r ds k,
     sendHookAsync config type msg licenseId w =
     (r, MkWorld (appReplies w) rest ds (looked_up k)) ∧
     r ≠ Val tt) ∧
  (∀ ds,
     let n := length (filter (fun t => t = type_name Warn)
                        (enabledTypes config)) in
     deliveries w = replicate n true ++ ds →
     sendHookAsync config type msg licenseId w =
     (Throw, MkWorld (appReplies w) rest ds (looked_up n))).
Proof.
  intros Hdis Hin Htruthy Hsub Hpkg looked_up. subst looked_up.
  unfold sendHookAsync. rewrite Hdis, Htruthy.
  rewrite decide_False by done.
  destruct w as [apps pkgs ds tr]. simpl in Hpkg. subst pkgs.
  cbn [appReplies pkgReplies deliveries trace].
  set (id := license_id (license_of licenseId)).
  set (w3 := MkWorld apps rest ds (tr ++ [GetPackage id; WarnLine; WarnLine])).
  assert (Hsub_apps : ∀ r ds' k,
    sendHookAsync_plain config Warn steam_error w3 =
      (r, MkWorld apps rest ds'
            (trace w3 ++ replicate k (Webhook (MkPayload steam_error Warn None)))) →
    for_each (enabledTypes config) (fun enabled =>
      if decide (enabled = type_name type) then
        bind (parseSubApps config id) (fun appMetadata =>
          for_each appMetadata (fun data =>
            sendWebhook
              (MkPayload msg type
                 (Some (metaData_of (license_of licenseId) data)))))
      else ret tt) (MkWorld apps (PkgError :: rest) ds tr) =
      (match r with Val _ => Throw | Throw => Throw | Wait => Wait end,
       MkWorld apps rest ds'
         (tr ++ [GetPackage id; WarnLine; WarnLine] ++
          replicate k (Webhook (MkPayload steam_error Warn None))))).
  { intros r ds' k Hplain.
    apply for_each_first; [done| |by destruct r].
    unfold parseSubApps, lookup_failed, bind, emit, next_pkg, throw, ret.
    cbn [appReplies pkgReplies deliveries trace].
    rewrite <- !app_assoc. cbn [app]. fold w3. rewrite Hplain.
    unfold w3. cbn [trace]. rewrite <- !app_assoc. by destruct r. }
  split.
  - destruct (sendHookAsync_plain_any config Warn steam_error w3)
      as (r & ds' & k & Hplain).
    eexists _, ds', k. split; [by apply Hsub_apps|]. by destruct r.
  - intros ds0 Hds.
    apply (Hsub_apps (Val tt)).
    unfold sendHookAsync_plain. rewrite Hdis.
    by apply (plain_loop_delivered Warn steam_error (enabledTypes config) w3).
Qed.


Lemma collect_apps config : ∀ apps datas w arest,
  length datas = length apps →
  appReplies w = map AppSuccess datas ++ arest →
  collect apps (parseAppMetaAsync config) w =
  (Val datas,
   MkWorld arest (pkgReplies w) (deliveries w) (trace w ++ map GetApp apps)).
Proof.
  induction apps as [|app apps IH]; intros datas [ars pkgs ds tr] arest Hlen Har;
    destruct datas as [|data datas]; try done; simpl in *.
  - subst. by rewrite app_nil_r.
  - subst ars. injection Hlen as Hlen.
    unfold bind at 1. unfold parseAppMetaAsync at 1.
    unfold bind, emit, next_app, ret. cbn [appReplies pkgReplies deliveries trace].
    fold (@bind (list (option AppData)) (list (option AppData))).
    rewrite (IH datas _ arest) by done.
    cbn [appReplies pkgReplies deliveries trace].
    by rewrite <- app_assoc.
Qed.

Lemma send_all msg type license : ∀ datas w ds,
  deliveries w = replicate (length datas) true ++ ds →
  for_each datas (fun data =>
    sendWebhook (MkPayload msg type (Some (metaData_of license data)))) w =
  (Val tt,
   MkWorld (appReplies w) (pkgReplies w) ds
     (trace w ++
      map (fun data =>
             Webhook (MkPayload msg type (Some (metaData_of license data))))
        datas)).
Proof.
  induction datas as [|data datas IH]; intros [ars pkgs ds0 tr] ds Hds;
    simpl in *.
  - subst. by rewrite app_nil_r.
  - erewrite bind_val by (by apply sendWebhook_delivered).
    rewrite (IH _ ds) by done. simpl. by rewrite <- app_assoc.
Qed.

(** A notification for a package whose type is listed once.  When the
    answer to the lookup of the package has no success, the call returns
    and the notification is not sent: only the warning is, once for each
    time [warn] is listed.  When the answer lists the apps of the package
    and the lookup of each app succeeds, all lookups are made first, in the
    order of the list, and then one webhook is sent for each app; for a
    package without apps none is sent.  When the answer has no list of
    apps, the call throws and nothing is sent. *)
Theorem sendHookAsync_package (config : HookConfig) (type : Severity)
  (msg : string) (licenseId : option jsstring) (w : World)
  (rest : list PkgReply) :
  disabled config = false →
  filter (fun t => t = type_name type) (enabledTypes config)
    = [type_name type] →
  truthy (normalized licenseId) = true →
  license_type (license_of licenseId) ≠ Some (js "app") →
  let license := license_of licenseId in
  let call := sendHookAsync config type msg licenseId w in
  let n := length (filter (fun t => t = type_name Warn) (enabledTypes config)) in
  (∀ ds,
     pkgReplies w = PkgNoSuccess :: rest →
     deliveries w = replicate n true ++ ds →
     call =
     (Val tt,
      MkWorld (appReplies w) rest ds
        (trace w ++ [GetPackage (license_id license); WarnLine; WarnLine] ++
         replicate n (Webhook (MkPayload none_success Warn None))))) ∧
  (∀ apps datas arest ds,
     pkgReplies w = PkgSuccess (Some apps) :: rest →
     length datas = length apps →
     appReplies w = map AppSuccess datas ++ arest →
     deliveries w = replicate (length datas) true ++ ds →
     call =
     (Val tt,
      MkWorld arest rest ds
        (trace w ++ [GetPackage (license_id license)] ++ map GetApp apps ++
         map (fun data =>
                Webhook (MkPayload msg type (Some (metaData_of license data))))
           datas))) ∧
  (pkgReplies w = PkgSuccess None :: rest →
   call =
   (Throw,
    MkWorld (appReplies w) rest (deliveries w)
      (trace w ++ [GetPackage (license_id license)]))).
Proof.
  intros Hdis Honce Htruthy Hsub license call n. subst call.
  unfold sendHookAsync. rewrite Hdis, Htruthy.
  rewrite decide_False by done. fold license.
  rewrite for_each_once by done.
  destruct w as [ars pkgs ds0 tr].
  cbn [appReplies pkgReplies deliveries trace].
  split; [|split].
  - intros ds -> ->.
    unfold parseSubApps, lookup_no_success, catch, bind, emit, next_pkg, ret.
    cbn [appReplies pkgReplies deliveries trace].
    unfold sendHookAsync_plain. rewrite Hdis.
    erewrite plain_loop_delivered by reflexivity.
    cbn [appReplies pkgReplies deliveries trace collect for_each].
    unfold ret. by rewrite <- !app_assoc.
  - intros apps datas arest ds -> Hlen -> ->.
    unfold parseSubApps. unfold bind, emit, next_pkg, ret.
    cbn [appReplies pkgReplies deliveries trace].
    erewrite collect_apps by (done || reflexivity).
    cbn [appReplies pkgReplies deliveries trace].
    erewrite send_all by reflexivity.
    cbn [appReplies pkgReplies deliveries trace].
    by rewrite <- !app_assoc.
  - intros ->.
    unfold parseSubApps, throw, bind, emit, next_pkg, ret.
    by cbn [appReplies pkgReplies deliveries trace].
Qed.

(** A notification for an app whose type is listed once: one lookup is
    made, and one webhook is sent with the metadata of the app; when the
    lookup fails with an error, the warning is sent, once for each time
    [warn] is listed, and the notification is still sent, with the texts
    [Cant load name] and [Cant load type] and the number of the license as
    the app. *)
Theorem sendHookAsync_app (config : HookConfig) (type : Severity)
  (msg : string) (licenseId : option jsstring) (w : World)
  (rest : list AppReply) :
  disabled config = false →
  filter (fun t => t = type_name type) (enabledTypes config)
    = [type_name type] →
  truthy (normalized licenseId) = true →
  license_type (license_of licenseId) = Some (js "app") →
  let license := license_of licenseId in
  let call := sendHookAsync config type msg licenseId w in
  let n := length (filter (fun t => t = type_name Warn) (enabledTypes config)) in
  (∀ data ds,
     appReplies w = AppSuccess data :: rest →
     deliveries w = true :: ds →
     call =
     (Val tt,
      MkWorld rest (pkgReplies w) ds
        (trace w ++
         [GetApp (license_id license);
          Webhook (MkPayload msg type (Some (metaData_of license data)))]))) ∧
  (∀ ds,
     appReplies w = AppError :: rest →
     deliveries w = replicate n true ++ true :: ds →
     call =
     (Val tt,
      MkWorld rest (pkgReplies w) ds
        (trace w ++ [GetApp (license_id license); WarnLine; WarnLine] ++
         replicate n (Webhook (MkPayload steam_error Warn None)) ++
         [Webhook (MkPayload msg type (Some (metaData_of license None)))]))) ∧
  meta_name (metaData_of license None) = js "Cant load name" ∧
  meta_type (metaData_of license None) = js "Cant load type" ∧
  appId (metaData_of license None) = license_id license ∧
  subId (metaData_of license None) = None.
Proof.
  intros Hdis Honce Htruthy Happ license call n. subst call.
  unfold sendHookAsync. rewrite Hdis, Htruthy.
  rewrite decide_True by done. fold license.
  rewrite for_each_once by done.
  destruct w as [ars pkgs ds0 tr].
  cbn [appReplies pkgReplies deliveries trace].
  split; [|split].
  - intros data ds -> ->.
    unfold parseAppMetaAsync, bind, emit, next_app, ret, sendWebhook.
    cbn [appReplies pkgReplies deliveries trace for_each].
    unfold bind, emit, ret.
    cbn [appReplies pkgReplies deliveries trace].
    by rewrite <- !app_assoc.
  - intros ds -> ->.
    unfold parseAppMetaAsync, lookup_failed.
    unfold bind, emit, next_app, ret.
    cbn [appReplies pkgReplies deliveries trace].
    unfold sendHookAsync_plain. rewrite Hdis.
    erewrite plain_loop_delivered by reflexivity.
    cbn [appReplies pkgReplies deliveries trace for_each].
    erewrite bind_val by (by apply sendWebhook_delivered).
    unfold ret. cbn [appReplies pkgReplies deliveries trace].
    by rewrite <- !app_assoc.
  - subst license. unfold metaData_of. rewrite Happ. simpl.
    repeat split; try done.
Qed.


Lemma license_of_forms_witness :
  license_of (Some (js "a/" ++ js "730"))
  = MkLicense (Some (js "app")) (Some (js "730")) ∧
  license_of (Some ([] ++ js "730"))
  = MkLicense (Some (js "sub")) (Some (js "730")).
Proof.
  pose proof (license_of_forms (js "730")) as H.
  destruct H as (_ & _ & _ & _ & _ & Happ & Hsub);
    [discriminate|reflexivity|].
  split.
  - apply Happ. apply list_elem_of_here.
  - apply Hsub. do 2 apply list_elem_of_further. apply list_elem_of_here.
Defined.

Lemma sendHookAsync_package_error_witness :
  let config := MkHookConfig (js "https://hook") (js "error;warn;success") in
  sendHookAsync config Success "Processed a new package!" (Some (js "s/730"))
    (world [] [PkgError] [true]) =
  (Throw,
   MkWorld [] [] []
     [GetPackage (Some (js "730")); WarnLine; WarnLine;
      Webhook (MkPayload steam_error Warn None)]).
Proof.
  intros config.
  refine (proj2 (sendHookAsync_package_error config Success
                   "Processed a new package!" (Some (js "s/730"))
                   (world [] [PkgError] [true]) [] eq_refl _ eq_refl _ eq_refl)
            [] eq_refl).
  - apply (bool_decide_unpack _). vm_compute. reflexivity.
  - vm_compute. discriminate.
Defined.

Lemma sendHookAsync_package_witness :
  let config := MkHookConfig (js "https://hook") (js "error;warn;success") in
  sendHookAsync config Success "Processed a new package!" (Some (js "s/730"))
    (world [] [PkgNoSuccess] [true]) =
  (Val tt,
   MkWorld [] [] []
     [GetPackage (Some (js "730")); WarnLine; WarnLine;
      Webhook (MkPayload none_success Warn None)]).
Proof.
  intros config.
  refine (proj1 (sendHookAsync_package config Success
                   "Processed a new package!" (Some (js "s/730"))
                   (world [] [PkgNoSuccess] [true]) [] eq_refl eq_refl eq_refl _)
            [] eq_refl eq_refl).
  vm_compute. discriminate.
Defined.

Lemma sendHookAsync_app_witness :
  let config := MkHookConfig (js "https://hook") (js "error;warn;success") in
  let license := MkLicense (Some (js "app")) (Some (js "730")) in
  sendHookAsync config Success "Processed a new package!" (Some (js "a/730"))
    (world [AppError] [] [true; true]) =
  (Val tt,
   MkWorld [] [] []
     [GetApp (Some (js "730")); WarnLine; WarnLine;
      Webhook (MkPayload steam_error Warn None);
      Webhook (MkPayload "Processed a new package!" Success
                 (Some (metaData_of license None)))]).
Proof.
  intros config license.
  exact (proj1 (proj2 (sendHookAsync_app config Success
                         "Processed a new package!" (Some (js "a/730"))
                         (world [AppError] [] [true; true]) []
                         eq_refl eq_refl eq_refl eq_refl))
           [] eq_refl eq_refl).
Defined.

End NotifyFacts.

(** ** The start of the process: nothing is claimed before the checks *)

Lemma fetches_checkConnection_from config : ∀ replies attemptNumber,
  ∃ k,
    fetches (checkConnection_from config attemptNumber replies).1
    = replicate k (stats_command config) ∧
    ((checkConnection_from config attemptNumber replies).2 = Returned →
     ∃ r, r ∈ replies ∧ reply_success r = true).
Proof.
  induction replies as [|r replies IH]; intros attemptNumber; simpl.
  - destruct (maxRetries <? attemptNumber)%nat.
    + by exists 0%nat.
    + by exists 1%nat.
  - destruct (maxRetries <? attemptNumber)%nat; [by exists 0%nat|].
    destruct (reply_success r) eqn:Hr.
    + exists 1%nat. split; [done|]. intros _. exists r.
      split; [apply list_elem_of_here|done].
    + destruct (IH (S attemptNumber)) as (k & Hk & Hret).
      destruct (checkConnection_from config (S attemptNumber) replies)
        as [evs out].
      exists (S k). simpl in *. rewrite Hk. split; [done|].
      intros Hout. destruct (Hret Hout) as (r' & Hin & Hr').
      exists r'. split; [by apply list_elem_of_further|done].
Qed.

Lemma fetches_checkUserLoggedIn_loop config : ∀ replies,
  ∃ k,
    fetches (checkUserLoggedIn_loop config replies).1
    = replicate k (status_command config).
Proof.
  induction replies as [|r replies (k & IH)].
  - by exists 1%nat.
  - destruct r as [ok res|]; [|by exists 1%nat].
    rewrite checkUserLoggedIn_loop_body.
    destruct (status_reply_ok (Body ok res)) as [res'|]; [|by exists 1%nat].
    destruct (parseASFStatus res') as [info|].
    + destruct (isDone info).
      * exists 1%nat. cbn [fst]. change (Fetch ?c :: ?l) with ([Fetch c] ++ l).
        rewrite !fetches_app, fetches_replicate. done.
      * destruct (checkUserLoggedIn_loop config replies) as [evs out].
        exists (S k). cbn [fst] in *.
        change (Fetch ?c :: ?l) with ([Fetch c] ++ l).
        rewrite !fetches_app, fetches_replicate, IH. done.
    + exists 1%nat. cbn [fst]. change (Fetch ?c :: ?l) with ([Fetch c] ++ l).
      rewrite !fetches_app, fetches_replicate. done.
Qed.

Lemma fetches_checkUserLoggedIn config hookOk replies :
  ∃ k,
    fetches (checkUserLoggedIn config hookOk replies).1
    = replicate k (status_command config) ∧
    ((checkUserLoggedIn config hookOk replies).2 = Returned →
     ∃ r res asfStatus,
       r ∈ replies ∧ status_reply_ok r = Some res ∧
       parseASFStatus res = Some asfStatus ∧ isDone asfStatus = true).
Proof.
  unfold checkUserLoggedIn.
  destruct (fetches_checkUserLoggedIn_loop config replies) as (k & Hk).
  pose proof (checkUserLoggedIn_loop_returned config replies) as Hret.
  destruct (checkUserLoggedIn_loop config replies) as [evs out].
  cbn [fst] in Hk. exists k.
  destruct out; try (split; [done|discriminate]).
  unfold consoleAndWebhookAsync, sendHookAsync. cbn [fst snd].
  rewrite !fetches_app. simpl. rewrite !app_nil_r. split; [done|].
  intros _.
  destruct (Hret evs eq_refl) as (pre & r & rest & res & info & -> & _ & H).
  exists r, res, info. split; [|done].
  apply elem_of_app. right. apply list_elem_of_here.
Qed.

Lemma addlicense_not_stats config code k :
  addlicense_command config code ∉ replicate k (stats_command config).
Proof.
  intros H. apply elem_of_replicate in H as [H _].
  unfold addlicense_command, stats_command in H.
  apply app_inv_head in H. discriminate.
Qed.

Lemma addlicense_not_status config code k :
  addlicense_command config code ∉ replicate k (status_command config).
Proof.
  intros H. apply elem_of_replicate in H as [H _].
  unfold addlicense_command, status_command in H.
  apply app_inv_head in H. discriminate.
Qed.

Lemma addlicense_command_inj config code1 code2 :
  addlicense_command config code1 = addlicense_command config code2 →
  code1 = code2.
Proof.
  unfold addlicense_command. intros H.
  by repeat apply app_inv_head in H.
Qed.

(** A status that [parseASFStatus] reads as done has no line that matches
    the pattern with a phrase holding [Bot is connecting to Steam
    network]. *)
Lemma isDone_no_connecting_line res asfStatus :
  parseASFStatus res = Some asfStatus → isDone asfStatus = true →
  ∀ line name e,
    line ∈ split_nl res → status_of_line line = Some (name, e) →
    ∃ phrase,
      user_status e = Some phrase ∧
      includes_i phrase (js "Bot is connecting to Steam network") = false.
Proof.
  rewrite parseASFStatus_eq. intros [= <-]. cbn [isDone].
  rewrite forallb_forall. intros Hall line name e Hin Hline.
  destruct (status_of_line_flag line name e Hline) as (phrase & Hst & Hflag).
  exists phrase. split; [done|].
  assert (Hm : (name, e) ∈ status_matches res).
  { apply list_elem_of_omap. by exists line. }
  apply list_elem_of_In, Hall in Hm. cbn [snd] in Hm.
  rewrite Hm in Hflag. symmetry in Hflag.
  by apply negb_true_iff in Hflag.
Qed.

(** The process sends an [addlicense] command only after the agent answered
    the [stats] command with success and a [status] command with success
    and a text that is not empty, that [parseASFStatus] reads as done and
    in which no line that matches its pattern has a phrase holding [Bot is
    connecting to Steam network], in any letter case; and only for a code
    of the list that is not among the processed licenses; before that it
    sends nothing but [stats] and then [status] commands. *)
Theorem startup_claims_after_checks (config : Config) (hookOk : nat → bool)
  (webhook : bool) (stats_replies status_replies claim_replies : list Reply)
  (gist : Gist) (licenses : list jsstring) (code : jsstring) :
  let st :=
    (startup config hookOk webhook stats_replies status_replies claim_replies
       gist licenses).1 in
  addlicense_command config code ∈ fetches (events st) →
  (∃ r, r ∈ stats_replies ∧ reply_success r = true) ∧
  (∃ r res asfStatus,
     r ∈ status_replies ∧ r = Body true res ∧ res ≠ [] ∧
     parseASFStatus res = Some asfStatus ∧ isDone asfStatus = true ∧
     ∀ line name e,
       line ∈ split_nl res → status_of_line line = Some (name, e) →
       ∃ phrase,
         user_status e = Some phrase ∧
         includes_i phrase (js "Bot is connecting to Steam network") = false) ∧
  (code ∉ licenses) ∧
  (∃ content, gist = GistContent content ∧ code ∈ codes_of content) ∧
  ∃ a b submitted,
    fetches (events st) =
    replicate a (stats_command config) ++
    replicate b (status_command config) ++
    map (addlicense_command config) submitted.
Proof.
  intros st. subst st. unfold startup.
  set (r1 := if webhook
             then consoleAndWebhookAsync hookOk [] Info
                    "Discord hook enabled! With types: "
             else ([], true)).
  assert (H1 : fetches r1.1 = []) by (subst r1; by destruct webhook).
  destruct r1 as [evs1 ok1]. cbn [fst] in H1.
  destruct ok1; [|cbn [fst events]; rewrite H1; intros H; by apply elem_of_nil in H].
  assert (H2 : fetches (consoleAndWebhookAsync hookOk evs1 Info
                          "ASFClaim started!").1 = []).
  { unfold consoleAndWebhookAsync, sendHookAsync. cbn [fst].
    rewrite !fetches_app, H1. done. }
  destruct (consoleAndWebhookAsync hookOk evs1 Info "ASFClaim started!")
    as [evs2 ok2]. cbn [fst] in H2.
  destruct ok2; [|cbn [fst events]; rewrite H2; intros H; by apply elem_of_nil in H].
  unfold checkConnection.
  destruct (fetches_checkConnection_from config stats_replies 1)
    as (a & Ha & Hconn).
  destruct (checkConnection_from config 1 stats_replies) as [evs3 out3].
  cbn [fst snd] in Ha, Hconn.
  assert (Hno3 : addlicense_command config code ∉ fetches (evs2 ++ evs3)).
  { rewrite fetches_app, H2, Ha. apply addlicense_not_stats. }
  destruct out3; try (cbn [fst events]; intros H; by destruct Hno3).
  destruct (fetches_checkUserLoggedIn config
              (fun n => hookOk (hook_calls (evs2 ++ evs3) + n)%nat)
              status_replies) as (b & Hb & Hlogged).
  destruct (checkUserLoggedIn config _ status_replies) as [evs4 out4].
  cbn [fst snd] in Hb, Hlogged.
  assert (Hno4 : addlicense_command config code ∉ fetches (evs2 ++ evs3 ++ evs4)).
  { rewrite !fetches_app, H2, Ha, Hb. cbn [app].
    rewrite not_elem_of_app. split.
    - apply addlicense_not_stats.
    - apply addlicense_not_status. }
  destruct out4; try (cbn [fst events]; intros H; by destruct Hno4).
  destruct (checkGame_trace config hookOk gist claim_replies
              (MkCycle licenses (evs2 ++ evs3 ++ evs4)))
    as (new & added & submitted & Hev & Hf & _ & Hsub & _).
  cbn [events processedLicenses] in Hev, Hsub.
  rewrite Hev, fetches_app, Hf. intros Hin.
  apply elem_of_app in Hin as [Hin|Hin]; [by destruct Hno4|].
  apply list_elem_of_fmap in Hin as (code' & Heq & Hin).
  apply addlicense_command_inj in Heq. subst code'.
  destruct (Hsub code Hin) as (Hnot & content & Hgist & Hcode).
  split; [by apply Hconn|]. split.
  { destruct (Hlogged eq_refl) as (r & res & asfStatus & Hr & Hres & Hp & Hd).
    exists r, res, asfStatus. split; [done|].
    assert (r = Body true res ∧ res ≠ []) as [-> Hne].
    { destruct r as [[] [|c res']|]; try discriminate.
      injection Hres as <-. by split. }
    split; [done|]. split; [done|]. split; [done|]. split; [done|].
    by apply (isDone_no_connecting_line res asfStatus). }
  split; [done|]. split; [by exists content|].
  exists a, b, submitted.
  rewrite !fetches_app, H2, Ha, Hb. cbn [app]. by rewrite <- app_assoc.
Qed.

Lemma startup_claims_after_checks_witness :
  let stats_replies := [Failure; Body true []] in
  let status_replies := [Body true (js "<bot1> Bot is not farming anything.")] in
  let claim_replies := [Body true (js "<bot1> ID: app/730 | Status: OK")] in
  (∃ r, r ∈ stats_replies ∧ reply_success r = true) ∧
  (∃ r res asfStatus,
     r ∈ status_replies ∧ r = Body true res ∧ res ≠ [] ∧
     parseASFStatus res = Some asfStatus ∧ isDone asfStatus = true ∧
     ∀ line name e,
       line ∈ split_nl res → status_of_line line = Some (name, e) →
       ∃ phrase,
         user_status e = Some phrase ∧
         includes_i phrase (js "Bot is connecting to Steam network") = false) ∧
  (js "a/730" ∉ []) ∧
  (∃ content, GistContent (js "a/730") = GistContent content ∧
              js "a/730" ∈ codes_of content) ∧
  ∃ a b submitted,
    fetches (events (startup default_config (fun _ => true) false
                       stats_replies status_replies claim_replies
                       (GistContent (js "a/730")) []).1) =
    replicate a (stats_command default_config) ++
    replicate b (status_command default_config) ++
    map (addlicense_command default_config) submitted.
Proof.
  intros stats_replies status_replies claim_replies.
  refine (startup_claims_after_checks default_config (fun _ => true) false
            stats_replies status_replies claim_replies
            (GistContent (js "a/730")) [] (js "a/730") _).
  apply (bool_decide_unpack _). vm_compute. reflexivity.
Defined.

(** ** From the lines of an answer to the decision of the process *)

Lemma join_nl_cons_nonempty l ls : l ≠ [] → join_nl (l :: ls) ≠ [].
Proof. destruct l; [done|]. by destruct ls. Qed.

(** The readiness gate on a status answer with one line per account,
    [<name> phrase] followed by marks and possibly by a colon and a
    detail: when no phrase holds [Bot is connecting to Steam network], in
    any letter case, the loop of [checkUserLoggedIn] ends after this one
    query; otherwise it logs, sleeps 10 seconds and asks again. *)
Theorem checkUserLoggedIn_reads_status (config : Config) (ls : list StatusLine)
  (rest : list Reply) :
  Forall status_line_ok ls → ls ≠ [] →
  let reply := Body true (join_nl (map status_text ls)) in
  let connecting :=
    existsb (fun l => includes_i (sl_phrase l) connecting_text) ls in
  not_ready reply = connecting ∧
  checkUserLoggedIn_loop config (reply :: rest) =
    if connecting
    then (polling_round config reply ++ (checkUserLoggedIn_loop config rest).1,
          (checkUserLoggedIn_loop config rest).2)
    else (Fetch (status_command config) ::
            replicate (length ls) (Log Info) ++ [Log Info], Returned).
Proof.
  intros Hall Hne reply connecting. subst reply connecting.
  assert (Hok : status_reply_ok (Body true (join_nl (map status_text ls)))
                = Some (join_nl (map status_text ls))).
  { destruct ls as [|l ls]; [done|]. simpl map.
    pose proof (join_nl_cons_nonempty (status_text l) (map status_text ls)) as H.
    destruct (join_nl (status_text l :: map status_text ls)); [|done].
    by destruct H. }
  assert (Hdone : forallb (fun kv : jsstring * UserStatus => user_isDone kv.2)
                    (map (fun l => (sl_name l, status_entry l)) ls)
                  = negb (existsb (fun l => includes_i (sl_phrase l)
                                              connecting_text) ls)).
  { clear. induction ls as [|l ls IH]; [done|]. simpl. rewrite IH.
    by rewrite negb_orb. }
  split.
  - unfold not_ready. rewrite Hok, parseASFStatus_eq.
    rewrite status_matches_text by done. cbn [isDone].
    by rewrite Hdone, negb_involutive.
  - rewrite checkUserLoggedIn_loop_body, Hok. cbv zeta.
    unfold polling_round. rewrite Hok, parseASFStatus_eq.
    rewrite status_matches_text by done. cbn [isDone].
    rewrite Hdone, length_map.
    destruct (existsb _ ls); [|done]. cbn [negb].
    change ((Fetch ?c :: ?l) ++ ?k) with (Fetch c :: (l ++ k)).
    by rewrite <- app_assoc.
Qed.

Lemma checkUserLoggedIn_reads_status_witness :
  let ls := [MkStatusLine (js "bot1") (js "Bot is not farming anything")
               (js ".") None;
             MkStatusLine (js "bot2") (js "Bot is connecting to Steam network")
               (js "...") (Some (js " retrying"))] in
  not_ready (Body true (join_nl (map status_text ls))) =
  existsb (fun l => includes_i (sl_phrase l) connecting_text) ls.
Proof.
  intros ls.
  refine (proj1 (checkUserLoggedIn_reads_status default_config ls [] _ _)).
  - constructor; [|constructor; [|constructor]];
      unfold status_line_ok, detail_ok;
      cbn [sl_name sl_phrase sl_marks sl_detail];
      repeat split; try discriminate;
      try (apply (bool_decide_unpack _)); vm_compute; reflexivity.
  - discriminate.
Defined.

Lemma includes_reclassified status :
  includes (if decide (status = js "OK") then not_available else status)
    rate_limit_marker
  = includes status rate_limit_marker.
Proof. destruct (decide (status = js "OK")) as [->|]; [|done]. reflexivity. Qed.

(** The test of the rate limit on an answer with one line per account. *)
Lemma hasRateLimit_text ls :
  Forall result_line_ok ls →
  NoDup (map rl_name ls) → proto_key ∉ map rl_name ls →
  hasRateLimit (parseASFResult (join_nl (map result_text ls))) =
  Some (existsb (fun l => includes (rl_status l) rate_limit_marker) ls).
Proof.
  intros Hall Hnd Hproto.
  destruct (hasRateLimit_spec (join_nl (map result_text ls)))
    as (b & -> & Hiff).
  f_equal. unfold rate_limited in Hiff.
  rewrite parseASFResult_eq, result_matches_text in Hiff by done.
  apply eq_true_iff_eq. rewrite Hiff. rewrite existsb_exists. split.
  - intros (name & e & st & Hown & Hst & Hinc).
    apply own_obj_set_all_elim in Hown as [Hin|Hin]; [|done].
    apply list_elem_of_fmap in Hin as (l & [= -> ->] & Hl).
    exists l. split; [by apply list_elem_of_In|].
    unfold result_entry in Hst. simpl in Hst. injection Hst as <-.
    by rewrite includes_reclassified in Hinc.
  - intros (l & Hl & Hinc). apply list_elem_of_In in Hl.
    exists (rl_name l), (result_entry l), 
      (if decide (rl_status l = js "OK") then not_available else rl_status l).
    split; [|split; [done|by rewrite includes_reclassified]].
    apply own_obj_set_all_NoDup.
    + by rewrite <- list_fmap_compose.
    + by rewrite <- list_fmap_compose.
    + apply list_elem_of_fmap. by exists l.
Qed.

(** A submission whose answer has one line per account, with distinct
    names: the code is marked as processed exactly when no status holds
    [RateLimitExceeded], whether or not the notification gets through. *)
Theorem claim_one_reads_result (config : Config) (hookOk : nat → bool)
  (currentLicense : jsstring) (ls : list ResultLine) (st : CycleState) :
  Forall result_line_ok ls →
  NoDup (map rl_name ls) → proto_key ∉ map rl_name ls →
  let r := Body true (join_nl (map result_text ls)) in
  processedLicenses (claim_one config hookOk currentLicense r st).1 =
  if existsb (fun l => includes (rl_status l) (js "RateLimitExceeded")) ls
  then processedLicenses st
  else processedLicenses st ++ [currentLicense].
Proof.
  intros Hall Hnd Hproto r. subst r.
  rewrite (claim_one_success config hookOk _ _ _ _
             (hasRateLimit_text ls Hall Hnd Hproto)).
  cbv zeta. change rate_limit_marker with (js "RateLimitExceeded").
  destruct (existsb _ ls); destruct (hookOk _); cbn [fst processedLicenses];
    try done; by rewrite (proj1 (submit_catch_licenses hookOk _)).
Qed.

Lemma claim_one_reads_result_witness :
  let limited :=
    [MkResultLine true (js "bot1") (Some (js "app", js "730"))
       (js "OK") true (Some []);
     MkResultLine false (js "bot2") None
       (js "Fail/RateLimitExceeded") false None] in
  let claimed :=
    [MkResultLine false (js "bot1") (Some (js "app", js "730"))
       (js "OK | Items: app/730") false None;
     MkResultLine false (js "bot2") None
       (js "Fail/AlreadyPurchased") false None] in
  processedLicenses
    (claim_one default_config (fun _ => true) (js "a/730")
       (Body true (join_nl (map result_text limited)))
       (MkCycle [js "a/440"] [])).1 = [js "a/440"] ∧
  processedLicenses
    (claim_one default_config (fun _ => true) (js "a/730")
       (Body true (join_nl (map result_text claimed)))
       (MkCycle [js "a/440"] [])).1 = [js "a/440"; js "a/730"].
Proof.
  intros limited claimed.
  assert (Hok : ∀ ls, ls = limited ∨ ls = claimed →
                      Forall result_line_ok ls).
  { intros ls [->| ->];
      (constructor; [|constructor; [|constructor]]);
      unfold result_line_ok, rest_ok;
      cbn [rl_name rl_id rl_status rl_escape rl_rest];
      repeat split; try discriminate; try apply not_elem_of_nil;
      vm_compute; reflexivity. }
  assert (Hnd : ∀ ls, ls = limited ∨ ls = claimed → NoDup (map rl_name ls)).
  { intros ls [->| ->]; apply (bool_decide_unpack _); vm_compute;
      reflexivity. }
  assert (Hproto : ∀ ls, ls = limited ∨ ls = claimed →
                         proto_key ∉ map rl_name ls).
  { intros ls [->| ->]; apply (bool_decide_unpack _); vm_compute;
      reflexivity. }
  split.
  - exact (claim_one_reads_result default_config (fun _ => true) (js "a/730")
             limited (MkCycle [js "a/440"] [])
             (Hok _ (or_introl eq_refl)) (Hnd _ (or_introl eq_refl))
             (Hproto _ (or_introl eq_refl))).
  - exact (claim_one_reads_result default_config (fun _ => true) (js "a/730")
             claimed (MkCycle [js "a/440"] [])
             (Hok _ (or_intror eq_refl)) (Hnd _ (or_intror eq_refl))
             (Hproto _ (or_intror eq_refl))).
Defined.
